(** * Saddle-point solver settings and Schur-complement helpers of code_saturne

    A shallow embedding of
    - [src/alge/cs_param_saddle.c]: the record [cs_param_saddle_t], its
      creation, its string-keyed setters and its copy;
    - [src/cdo/cs_cdofb_monolithic_sles.c]: the scaled pressure mass
      matrix, the Schur matrix built from a diagonal approximation of the
      inverse of the (1,1)-block, the guards of the full-system and
      Notay drivers, and the initialisation of the contexts of the ALU
      and GKB algorithms.

    Conventions.
    - [cs_real_t] and [double] are binary64 numbers: Rocq's primitive
      [float], with the operations of [PrimFloat].
    - A pointer that may be [NULL] is an [option]; [None] is [NULL].
    - A call whose behaviour C leaves undefined (a read through [NULL], an
      access outside an array) yields [Undefined] in the [exec] monad.
    - [_gkb_init_context] and [_alu_init_context] assert on their
      arguments: they take the build as a boolean [NDEBUG] and, without
      it, end in the assertion that fails.
    - The context attached to a [cs_param_saddle_t] is a [void *]: it is
      kept as an address into a heap of allocated blocks, so that
      allocation and release by [BFT_MALLOC] and [BFT_FREE] are visible. *)

From Stdlib Require Import ZArith String Floats Bool.
From stdpp Require Import gmap strings list fin_maps.

Set Warnings "-inexact-float".

Local Open Scope Z_scope.
Local Open Scope string_scope.

(** ** Undefined behaviour as an error monad *)

Inductive exec (A : Type) : Type :=
| Normal (a : A)
| Undefined.

Arguments Normal {A} a.
Arguments Undefined {A}.

#[global] Instance exec_ret : MRet exec := fun A a => Normal a.
#[global] Instance exec_bind : MBind exec := fun A B f m =>
  match m with
  | Normal a => f a
  | Undefined => Undefined
  end.

(** Dereference of a pointer. *)
Definition deref {A : Type} (p : option A) : exec A :=
  match p with
  | Some a => Normal a
  | None => Undefined
  end.

(** ** Floating-point helpers of the C library *)

#[global] Instance float_inhabited : Inhabited float := populate 0%float.

(** [fmin] and [fmax] of <math.h>: a NaN argument is treated as missing
    data, otherwise the smaller (larger) argument is returned. *)
Definition fmin (x y : float) : float :=
  if PrimFloat.is_nan x then y
  else if PrimFloat.is_nan y then x
  else if PrimFloat.ltb y x then y else x.

Definition fmax (x y : float) : float :=
  if PrimFloat.is_nan x then y
  else if PrimFloat.is_nan y then x
  else if PrimFloat.ltb x y then y else x.

(** ** Enumerations *)

Inductive cs_param_solver_class_t : Set :=
| CS_PARAM_SOLVER_CLASS_CS
| CS_PARAM_SOLVER_CLASS_HYPRE
| CS_PARAM_SOLVER_CLASS_MUMPS
| CS_PARAM_SOLVER_CLASS_PETSC
| CS_PARAM_N_SOLVER_CLASSES.

Inductive cs_param_saddle_solver_t : Set :=
| CS_PARAM_SADDLE_SOLVER_NONE
| CS_PARAM_SADDLE_SOLVER_ALU
| CS_PARAM_SADDLE_SOLVER_FGMRES
| CS_PARAM_SADDLE_SOLVER_GCR
| CS_PARAM_SADDLE_SOLVER_GKB
| CS_PARAM_SADDLE_SOLVER_MINRES
| CS_PARAM_SADDLE_SOLVER_MUMPS
| CS_PARAM_SADDLE_SOLVER_NOTAY_TRANSFORM
| CS_PARAM_SADDLE_SOLVER_UZAWA_CG
| CS_PARAM_SADDLE_N_SOLVERS.

Inductive cs_param_saddle_precond_t : Set :=
| CS_PARAM_SADDLE_PRECOND_NONE
| CS_PARAM_SADDLE_PRECOND_DIAG
| CS_PARAM_SADDLE_PRECOND_LOWER
| CS_PARAM_SADDLE_PRECOND_SGS
| CS_PARAM_SADDLE_PRECOND_UPPER
| CS_PARAM_SADDLE_PRECOND_UZAWA.

Inductive cs_param_saddle_schur_approx_t : Set :=
| CS_PARAM_SADDLE_SCHUR_NONE
| CS_PARAM_SADDLE_SCHUR_DIAG_INVERSE
| CS_PARAM_SADDLE_SCHUR_IDENTITY
| CS_PARAM_SADDLE_SCHUR_LUMPED_INVERSE
| CS_PARAM_SADDLE_SCHUR_MASS_SCALED
| CS_PARAM_SADDLE_SCHUR_MASS_SCALED_DIAG_INVERSE
| CS_PARAM_SADDLE_SCHUR_MASS_SCALED_LUMPED_INVERSE.

(** Modelled from the spec: the enumerations of a single linear solver
    ([cs_param_types.h], not among the sources).  Only the enumerators
    written in the embedded functions are distinguished; [_NONE] stands for
    the value found in a record nobody has configured yet. *)
Inductive cs_param_solver_type_t : Set :=
| CS_PARAM_SOLVER_NONE
| CS_PARAM_SOLVER_FCG
| CS_PARAM_SOLVER_GCR.

Inductive cs_param_precond_type_t : Set :=
| CS_PARAM_PRECOND_NONE
| CS_PARAM_PRECOND_AMG
| CS_PARAM_PRECOND_DIAG.

Inductive cs_param_amg_type_t : Set :=
| CS_PARAM_AMG_NONE
| CS_PARAM_AMG_INHOUSE_K.

#[global] Instance solver_class_eq_dec : EqDecision cs_param_solver_class_t.
Proof. solve_decision. Defined.
#[global] Instance saddle_solver_eq_dec : EqDecision cs_param_saddle_solver_t.
Proof. solve_decision. Defined.
#[global] Instance saddle_precond_eq_dec : EqDecision cs_param_saddle_precond_t.
Proof. solve_decision. Defined.
#[global] Instance saddle_schur_eq_dec :
  EqDecision cs_param_saddle_schur_approx_t.
Proof. solve_decision. Defined.

(** ** Records *)

Record cs_param_convergence_t : Set := mk_cvg {
  n_max_iter : Z;
  atol : float;
  rtol : float;
  dtol : float
}.

(** Modelled from the spec: [cs_param_sles_t] is declared in
    [cs_param_sles.h], not among the sources.  The fields are those the
    specification lists for ParamSLES and the embedded functions read or
    write. *)
Record cs_param_sles_t : Set := mk_sles {
  sles_name : option string;
  sles_field_id : Z;
  sles_solver_class : cs_param_solver_class_t;
  sles_precond : cs_param_precond_type_t;
  sles_solver : cs_param_solver_type_t;
  sles_amg_type : cs_param_amg_type_t;
  sles_cvg_param : cs_param_convergence_t
}.

(** The blocks a [context] pointer may refer to:
    [cs_param_saddle_context_alu_t], [..._gkb_t], [..._block_krylov_t] and
    [..._notay_t]. *)
Inductive context_block : Set :=
| Context_alu (augmentation_scaling : float) (dedicated_xtra_sles : bool)
| Context_gkb (augmentation_scaling : float) (truncation_threshold : Z)
              (dedicated_xtra_sles : bool)
| Context_block_krylov (n_stored_directions : Z)
| Context_notay (scaling_coef : float).

Definition addr : Set := positive.

Record cs_param_saddle_t : Set := mk_saddle {
  verbosity : Z;
  name : option string;
  solver_class : cs_param_solver_class_t;
  solver : cs_param_saddle_solver_t;
  precond : cs_param_saddle_precond_t;
  cvg_param : cs_param_convergence_t;
  schur_approx : cs_param_saddle_schur_approx_t;
  block11_sles_param : option cs_param_sles_t;  (* shared, read only *)
  schur_sles_param : option cs_param_sles_t;    (* owned *)
  xtra_sles_param : option cs_param_sles_t;     (* owned *)
  context : option addr
}.

(** Field assignments. *)

Definition with_rtol (v : float) (c : cs_param_convergence_t) :=
  mk_cvg (n_max_iter c) (atol c) v (dtol c).
Definition with_atol (v : float) (c : cs_param_convergence_t) :=
  mk_cvg (n_max_iter c) v (rtol c) (dtol c).
Definition with_dtol (v : float) (c : cs_param_convergence_t) :=
  mk_cvg (n_max_iter c) (atol c) (rtol c) v.
Definition with_n_max_iter (v : Z) (c : cs_param_convergence_t) :=
  mk_cvg v (atol c) (rtol c) (dtol c).

Definition with_sles_precond v (s : cs_param_sles_t) :=
  mk_sles (sles_name s) (sles_field_id s) (sles_solver_class s) v
          (sles_solver s) (sles_amg_type s) (sles_cvg_param s).
Definition with_sles_solver v (s : cs_param_sles_t) :=
  mk_sles (sles_name s) (sles_field_id s) (sles_solver_class s)
          (sles_precond s) v (sles_amg_type s) (sles_cvg_param s).
Definition with_sles_amg_type v (s : cs_param_sles_t) :=
  mk_sles (sles_name s) (sles_field_id s) (sles_solver_class s)
          (sles_precond s) (sles_solver s) v (sles_cvg_param s).
Definition with_sles_cvg_param v (s : cs_param_sles_t) :=
  mk_sles (sles_name s) (sles_field_id s) (sles_solver_class s)
          (sles_precond s) (sles_solver s) (sles_amg_type s) v.

Definition with_name v (p : cs_param_saddle_t) :=
  mk_saddle (verbosity p) v (solver_class p) (solver p) (precond p)
            (cvg_param p) (schur_approx p) (block11_sles_param p)
            (schur_sles_param p) (xtra_sles_param p) (context p).
Definition with_solver_class v (p : cs_param_saddle_t) :=
  mk_saddle (verbosity p) (name p) v (solver p) (precond p)
            (cvg_param p) (schur_approx p) (block11_sles_param p)
            (schur_sles_param p) (xtra_sles_param p) (context p).
Definition with_solver v (p : cs_param_saddle_t) :=
  mk_saddle (verbosity p) (name p) (solver_class p) v (precond p)
            (cvg_param p) (schur_approx p) (block11_sles_param p)
            (schur_sles_param p) (xtra_sles_param p) (context p).
Definition with_precond v (p : cs_param_saddle_t) :=
  mk_saddle (verbosity p) (name p) (solver_class p) (solver p) v
            (cvg_param p) (schur_approx p) (block11_sles_param p)
            (schur_sles_param p) (xtra_sles_param p) (context p).
Definition with_cvg_param v (p : cs_param_saddle_t) :=
  mk_saddle (verbosity p) (name p) (solver_class p) (solver p) (precond p)
            v (schur_approx p) (block11_sles_param p)
            (schur_sles_param p) (xtra_sles_param p) (context p).
Definition with_schur_approx v (p : cs_param_saddle_t) :=
  mk_saddle (verbosity p) (name p) (solver_class p) (solver p) (precond p)
            (cvg_param p) v (block11_sles_param p)
            (schur_sles_param p) (xtra_sles_param p) (context p).
Definition with_block11_sles_param v (p : cs_param_saddle_t) :=
  mk_saddle (verbosity p) (name p) (solver_class p) (solver p) (precond p)
            (cvg_param p) (schur_approx p) v
            (schur_sles_param p) (xtra_sles_param p) (context p).
Definition with_schur_sles_param v (p : cs_param_saddle_t) :=
  mk_saddle (verbosity p) (name p) (solver_class p) (solver p) (precond p)
            (cvg_param p) (schur_approx p) (block11_sles_param p)
            v (xtra_sles_param p) (context p).
Definition with_xtra_sles_param v (p : cs_param_saddle_t) :=
  mk_saddle (verbosity p) (name p) (solver_class p) (solver p) (precond p)
            (cvg_param p) (schur_approx p) (block11_sles_param p)
            (schur_sles_param p) v (context p).
Definition with_context v (p : cs_param_saddle_t) :=
  mk_saddle (verbosity p) (name p) (solver_class p) (solver p) (precond p)
            (cvg_param p) (schur_approx p) (block11_sles_param p)
            (schur_sles_param p) (xtra_sles_param p) v.

(** ** Process-wide state

    [bft_heap] holds the context blocks obtained from [BFT_MALLOC] and not
    yet released; [sles_epzero] is the threshold [cs_sles_set_epzero]
    writes. *)
Record world : Type := mk_world {
  bft_heap : gmap addr context_block;
  sles_epzero : float
}.

(** Modelled from the spec: [BFT_MALLOC] and [BFT_FREE] are macros of
    [bft_mem.h], which is not among the sources; the specification speaks
    of context memory that is allocated and reclaimed.

    [BFT_MALLOC] of one block followed by the initialisation of all its
    members: the block lives at an address no live block uses. *)
Definition BFT_MALLOC (blk : context_block) (w : world) : addr * world :=
  let a := fresh (dom (bft_heap w)) in
  (a, mk_world (<[a := blk]> (bft_heap w)) (sles_epzero w)).

(** Modelled from the spec: [BFT_FREE] of a pointer that is not [NULL]
    reclaims the block; releasing what is not a live block is undefined. *)
Definition BFT_FREE (a : addr) (w : world) : exec world :=
  match bft_heap w !! a with
  | Some _ => Normal (mk_world (delete a (bft_heap w)) (sles_epzero w))
  | None => Undefined
  end.

(** Modelled from the spec: [cs_sles_set_epzero] ([cs_sles.c], not among
    the sources) sets the process-wide epsilon-zero threshold of the
    linear solvers. *)
Definition cs_sles_set_epzero (v : float) (w : world) : world :=
  mk_world (bft_heap w) v.

(** ** [cs_param_saddle.c] *)

Section ParamSaddle.

(** Functions of [cs_param_sles.c], which is not among the sources: the
    creation of a [cs_param_sles_t] from a field id and a name, the copy
    of the settings of one such record into another one, and the test
    of which class of solvers this build offers for a requested one. *)
Variable cs_param_sles_create : Z -> string -> cs_param_sles_t.
Variable cs_param_sles_copy_from :
  cs_param_sles_t -> cs_param_sles_t -> cs_param_sles_t.
Variable cs_param_sles_check_class :
  cs_param_solver_class_t -> cs_param_solver_class_t.

(** [cs_param_saddle_get_name] *)
Definition cs_param_saddle_get_name (saddlep : option cs_param_saddle_t)
  : option string :=
  match saddlep with
  | None => Some "Undefined"
  | Some p =>
      match name p with
      | Some n => Some n
      | None =>
          match block11_sles_param p with
          | Some b11 => sles_name b11
          | None => Some "Undefined"
          end
      end
  end.

(** The three static initialisers are only called on a pointer their
    caller has already tested or dereferenced; they are given the
    pointee.  [strlen] and [sprintf] read their string arguments, and a
    copy reads its source. *)

(** [_init_schur_slesp] *)
Definition _init_schur_slesp (saddlep : cs_param_saddle_t)
  : exec cs_param_saddle_t :=
  let saddlep :=
    match schur_sles_param saddlep with
    | Some _ => with_schur_sles_param None saddlep   (* cs_param_sles_free *)
    | None => saddlep
    end in
  basename ← deref (cs_param_saddle_get_name (Some saddlep));
  let name := basename ++ "_schur_approx" in
  let schurp := cs_param_sles_create (-1) name in
  let schurp := with_sles_precond CS_PARAM_PRECOND_AMG schurp in
  let schurp := with_sles_solver CS_PARAM_SOLVER_FCG schurp in
  let schurp := with_sles_amg_type CS_PARAM_AMG_INHOUSE_K schurp in
  let schurp :=
    with_sles_cvg_param (with_rtol 1e-4 (sles_cvg_param schurp)) schurp in
  Normal (with_schur_sles_param (Some schurp) saddlep).

(** [_init_xtra_slesp] *)
Definition _init_xtra_slesp (saddlep : cs_param_saddle_t)
  : exec cs_param_saddle_t :=
  let b11_slesp := block11_sles_param saddlep in
  let saddlep :=
    match xtra_sles_param saddlep with
    | Some _ => with_xtra_sles_param None saddlep
    | None => saddlep
    end in
  basename ← deref (cs_param_saddle_get_name (Some saddlep));
  let name := basename ++ "_b11_xtra" in
  let xtra_slesp := cs_param_sles_create (-1) name in
  b11 ← deref b11_slesp;
  let xtra_slesp := cs_param_sles_copy_from b11 xtra_slesp in
  let xtra_slesp :=
    with_sles_cvg_param (with_rtol 1e-3 (sles_cvg_param xtra_slesp))
                        xtra_slesp in
  let xtra_slesp :=
    with_sles_cvg_param (with_n_max_iter 50 (sles_cvg_param xtra_slesp))
                        xtra_slesp in
  Normal (with_xtra_sles_param (Some xtra_slesp) saddlep).

(** [_init_xtra_transfo_slesp] *)
Definition _init_xtra_transfo_slesp (saddlep : cs_param_saddle_t)
  : exec cs_param_saddle_t :=
  let b11_slesp := block11_sles_param saddlep in
  let saddlep :=
    match xtra_sles_param saddlep with
    | Some _ => with_xtra_sles_param None saddlep
    | None => saddlep
    end in
  b11 ← deref b11_slesp;
  basename ← deref (sles_name b11);
  let name := basename ++ ":Transfo" in
  let xtra_slesp := cs_param_sles_create (-1) name in
  let xtra_slesp := cs_param_sles_copy_from b11 xtra_slesp in
  let min_tol_threshold := 1e-14%float in
  let tol := fmin (0.1 * rtol (sles_cvg_param b11))%float
                  (0.1 * rtol (cvg_param saddlep))%float in
  let tol := fmin tol (10 * atol (cvg_param saddlep))%float in
  let tol := fmax tol min_tol_threshold in
  let xtra_slesp :=
    with_sles_cvg_param (with_rtol tol (sles_cvg_param xtra_slesp))
                        xtra_slesp in
  let xtra_slesp :=
    with_sles_cvg_param
      (with_atol (fmin (atol (cvg_param saddlep))
                       (atol (sles_cvg_param b11)))
                 (sles_cvg_param xtra_slesp))
      xtra_slesp in
  Normal (with_xtra_sles_param (Some xtra_slesp) saddlep).

(** Access to the block behind [saddlep->context], read as the
    structure the solver kind calls for. *)
Definition load_context (saddlep : cs_param_saddle_t) (w : world)
  : exec (addr * context_block) :=
  a ← deref (context saddlep);
  blk ← deref (bft_heap w !! a);
  Normal (a, blk).

Definition store_context (a : addr) (blk : context_block) (w : world)
  : world :=
  mk_world (<[a := blk]> (bft_heap w)) (sles_epzero w).

(** [cs_param_saddle_set_restart_range].  The structure the context is
    read as has one member, an [int] at its start, and every context
    block holds at least that much: the store lies inside any live
    block, of whatever solver kind [set_solver] allocated it for (a
    refused "fgmres" leaves the block of the previous kind in place),
    and the block is the block-Krylov structure from then on. *)
Definition cs_param_saddle_set_restart_range
    (saddlep : option cs_param_saddle_t) (restart_range : Z) (w : world)
  : exec world :=
  match saddlep with
  | None => Normal w
  | Some p =>
      match solver p with
      | CS_PARAM_SADDLE_SOLVER_FGMRES
      | CS_PARAM_SADDLE_SOLVER_GCR =>
          '(a, _) ← load_context p w;
          Normal (store_context a (Context_block_krylov restart_range) w)
      | _ => Normal w   (* a warning is logged *)
      end
  end.

(** [cs_param_saddle_set_notay_scaling] *)
Definition cs_param_saddle_set_notay_scaling
    (saddlep : option cs_param_saddle_t) (scaling_coef : float) (w : world)
  : exec world :=
  match saddlep with
  | None => Normal w
  | Some p =>
      if decide (solver p ≠ CS_PARAM_SADDLE_SOLVER_NOTAY_TRANSFORM)
      then Normal w
      else
        '(a, blk) ← load_context p w;
        match blk with
        | Context_notay _ =>
            Normal (store_context a (Context_notay scaling_coef) w)
        | _ => Undefined
        end
  end.

(** [cs_param_saddle_set_augmentation_coef] *)
Definition cs_param_saddle_set_augmentation_coef
    (saddlep : option cs_param_saddle_t) (coef : float) (w : world)
  : exec world :=
  match saddlep with
  | None => Normal w
  | Some p =>
      match solver p with
      | CS_PARAM_SADDLE_SOLVER_ALU =>
          '(a, blk) ← load_context p w;
          match blk with
          | Context_alu _ d => Normal (store_context a (Context_alu coef d) w)
          | _ => Undefined
          end
      | CS_PARAM_SADDLE_SOLVER_GKB =>
          '(a, blk) ← load_context p w;
          match blk with
          | Context_gkb _ t d =>
              Normal (store_context a (Context_gkb coef t d) w)
          | _ => Undefined
          end
      | _ => Normal w   (* a warning is logged *)
      end
  end.

(** [cs_param_saddle_get_augmentation_coef] *)
Definition cs_param_saddle_get_augmentation_coef
    (saddlep : option cs_param_saddle_t) (w : world) : exec float :=
  match saddlep with
  | None => Normal 0%float
  | Some p =>
      match solver p with
      | CS_PARAM_SADDLE_SOLVER_ALU =>
          '(_, blk) ← load_context p w;
          match blk with
          | Context_alu g _ => Normal g
          | _ => Undefined
          end
      | CS_PARAM_SADDLE_SOLVER_GKB =>
          '(_, blk) ← load_context p w;
          match blk with
          | Context_gkb g _ _ => Normal g
          | _ => Undefined
          end
      | _ => Normal 0%float
      end
  end.

(** [cs_param_saddle_create].  The member [block11_sles_param] is not
    written by the function: it keeps whatever the fresh memory holds,
    here [b11_indeterminate]. *)
Definition cs_param_saddle_create
    (b11_indeterminate : option cs_param_sles_t) : cs_param_saddle_t :=
  {| verbosity := 0;
     name := None;
     solver_class := CS_PARAM_SOLVER_CLASS_CS;
     solver := CS_PARAM_SADDLE_SOLVER_NONE;
     precond := CS_PARAM_SADDLE_PRECOND_NONE;
     cvg_param := {| n_max_iter := 100; atol := 1e-12;
                     rtol := 1e-6; dtol := 1e3 |};
     schur_approx := CS_PARAM_SADDLE_SCHUR_NONE;
     block11_sles_param := b11_indeterminate;
     schur_sles_param := None;
     xtra_sles_param := None;
     context := None |}.

(** [cs_param_saddle_set_name] *)
Definition cs_param_saddle_set_name (name : option string)
    (saddlep : option cs_param_saddle_t) : exec (option cs_param_saddle_t) :=
  match saddlep with
  | None => Normal None
  | Some p =>
      n ← deref name;
      Normal (Some (with_name (Some n) p))
  end.

(** [cs_param_saddle_set_block11_sles_param] *)
Definition cs_param_saddle_set_block11_sles_param
    (saddlep : option cs_param_saddle_t)
    (block11_slesp : option cs_param_sles_t) : option cs_param_saddle_t :=
  match saddlep with
  | None => None
  | Some p => Some (with_block11_sles_param block11_slesp p)
  end.


(** [cs_param_saddle_set_precond] *)
Definition cs_param_saddle_set_precond (keyval : option string)
    (saddlep : option cs_param_saddle_t) : Z * option cs_param_saddle_t :=
  let ierr := 1 in
  match keyval, saddlep with
  | None, _ => (ierr, saddlep)
  | _, None => (ierr, saddlep)
  | Some keyval, Some p =>
      if String.eqb keyval "none" then
        (0, Some (with_precond CS_PARAM_SADDLE_PRECOND_NONE p))
      else if String.eqb keyval "diag" then
        (0, Some (with_precond CS_PARAM_SADDLE_PRECOND_DIAG p))
      else if String.eqb keyval "lower" then
        (0, Some (with_precond CS_PARAM_SADDLE_PRECOND_LOWER p))
      else if String.eqb keyval "sgs" then
        (0, Some (with_precond CS_PARAM_SADDLE_PRECOND_SGS p))
      else if String.eqb keyval "upper" then
        (0, Some (with_precond CS_PARAM_SADDLE_PRECOND_UPPER p))
      else if String.eqb keyval "uzawa" then
        let p := with_precond CS_PARAM_SADDLE_PRECOND_UZAWA p in
        let p :=
          if decide (schur_approx p = CS_PARAM_SADDLE_SCHUR_NONE)
          then with_schur_approx CS_PARAM_SADDLE_SCHUR_MASS_SCALED p
          else p in
        (0, Some p)
      else (ierr, Some p)
  end.

(** [cs_param_saddle_set_schur_approx] *)
Definition cs_param_saddle_set_schur_approx (keyval : option string)
    (saddlep : option cs_param_saddle_t)
  : exec (Z * option cs_param_saddle_t) :=
  let ierr := 1 in
  match keyval, saddlep with
  | None, _ => Normal (ierr, saddlep)
  | _, None => Normal (ierr, saddlep)
  | Some keyval, Some p =>
      if String.eqb keyval "none" then
        Normal (0, Some (with_schur_approx CS_PARAM_SADDLE_SCHUR_NONE p))
      else if String.eqb keyval "diag_inv" then
        let p := with_schur_approx CS_PARAM_SADDLE_SCHUR_DIAG_INVERSE p in
        p ← _init_schur_slesp p;
        Normal (0, Some p)
      else if String.eqb keyval "identity" then
        Normal (0, Some (with_schur_approx CS_PARAM_SADDLE_SCHUR_IDENTITY p))
      else if String.eqb keyval "lumped_inv" then
        let p := with_schur_approx CS_PARAM_SADDLE_SCHUR_LUMPED_INVERSE p in
        p ← _init_schur_slesp p;
        p ← _init_xtra_slesp p;
        Normal (0, Some p)
      else if String.eqb keyval "mass" || String.eqb keyval "mass_scaled" then
        Normal (0, Some (with_schur_approx CS_PARAM_SADDLE_SCHUR_MASS_SCALED p))
      else if String.eqb keyval "mass_scaled_diag_inv" then
        let p :=
          with_schur_approx CS_PARAM_SADDLE_SCHUR_MASS_SCALED_DIAG_INVERSE p in
        p ← _init_schur_slesp p;
        Normal (0, Some p)
      else if String.eqb keyval "mass_scaled_lumped_inv" then
        let p :=
          with_schur_approx CS_PARAM_SADDLE_SCHUR_MASS_SCALED_LUMPED_INVERSE p
        in
        p ← _init_schur_slesp p;
        p ← _init_xtra_slesp p;
        Normal (0, Some p)
      else Normal (ierr, Some p)
  end.

(** [cs_param_saddle_set_solver_class] *)
Definition cs_param_saddle_set_solver_class (keyval : option string)
    (saddlep : option cs_param_saddle_t) : Z * option cs_param_saddle_t :=
  let ierr := 1 in
  match keyval, saddlep with
  | None, _ => (ierr, saddlep)
  | _, None => (ierr, saddlep)
  | Some keyval, Some p =>
      if String.eqb keyval "cs" || String.eqb keyval "saturne" then
        (0, Some (with_solver_class CS_PARAM_SOLVER_CLASS_CS p))
      else if String.eqb keyval "petsc" then
        let p := with_solver_class CS_PARAM_SOLVER_CLASS_PETSC p in
        let ret_class :=
          cs_param_sles_check_class CS_PARAM_SOLVER_CLASS_PETSC in
        if decide (ret_class ≠ CS_PARAM_SOLVER_CLASS_PETSC)
        then (2, Some p)
        else (0, Some p)
      else if String.eqb keyval "mumps" then
        let p := with_solver_class CS_PARAM_SOLVER_CLASS_MUMPS p in
        let ret_class :=
          cs_param_sles_check_class CS_PARAM_SOLVER_CLASS_MUMPS in
        if decide (ret_class = CS_PARAM_N_SOLVER_CLASSES)
        then (3, Some p)
        else (0, Some p)
      else (ierr, Some p)
  end.

(** The common tail of the branches of [cs_param_saddle_set_solver] that
    own a context: the previous block, if any, is released and the new
    one attached. *)
Definition replace_context (ctxp : addr) (p : cs_param_saddle_t) (w : world)
  : exec (cs_param_saddle_t * world) :=
  w ← match context p with
      | Some old => BFT_FREE old w
      | None => Normal w
      end;
  Normal (with_context (Some ctxp) p, w).

(** [cs_param_saddle_set_solver] *)
Definition cs_param_saddle_set_solver (keyval : option string)
    (saddlep : option cs_param_saddle_t) (w : world)
  : exec (Z * option cs_param_saddle_t * world) :=
  let ierr := 1 in
  match keyval, saddlep with
  | None, _ => Normal (ierr, saddlep, w)
  | _, None => Normal (ierr, saddlep, w)
  | Some keyval, Some p =>
      if String.eqb keyval "none" then
        Normal (0, Some (with_solver CS_PARAM_SADDLE_SOLVER_NONE p), w)
      else if String.eqb keyval "alu" then
        let p := with_solver CS_PARAM_SADDLE_SOLVER_ALU p in
        let p := with_solver_class CS_PARAM_SOLVER_CLASS_CS p in
        let p := with_precond CS_PARAM_SADDLE_PRECOND_NONE p in
        let p := with_schur_approx CS_PARAM_SADDLE_SCHUR_NONE p in
        p ← _init_xtra_transfo_slesp p;
        let '(ctxp, w) := BFT_MALLOC (Context_alu 100 false) w in
        '(p, w) ← replace_context ctxp p w;
        Normal (0, Some p, w)
      else if String.eqb keyval "fgmres" then
        let p := with_solver CS_PARAM_SADDLE_SOLVER_FGMRES p in
        let p := with_solver_class CS_PARAM_SOLVER_CLASS_PETSC p in
        let ret_class :=
          cs_param_sles_check_class CS_PARAM_SOLVER_CLASS_PETSC in
        if decide (ret_class ≠ CS_PARAM_SOLVER_CLASS_PETSC)
        then Normal (2, Some p, w)
        else
          let '(ctxp, w) := BFT_MALLOC (Context_block_krylov 30) w in
          '(p, w) ← replace_context ctxp p w;
          Normal (0, Some p, w)
      else if String.eqb keyval "gcr" then
        let p := with_solver CS_PARAM_SADDLE_SOLVER_GCR p in
        let p := with_solver_class CS_PARAM_SOLVER_CLASS_CS p in
        let '(ctxp, w) := BFT_MALLOC (Context_block_krylov 30) w in
        '(p, w) ← replace_context ctxp p w;
        Normal (0, Some p, w)
      else if String.eqb keyval "gkb" then
        let p := with_solver CS_PARAM_SADDLE_SOLVER_GKB p in
        let p := with_solver_class CS_PARAM_SOLVER_CLASS_CS p in
        let p := with_precond CS_PARAM_SADDLE_PRECOND_NONE p in
        let p := with_schur_approx CS_PARAM_SADDLE_SCHUR_NONE p in
        p ← _init_xtra_transfo_slesp p;
        let '(ctxp, w) := BFT_MALLOC (Context_gkb 0 5 false) w in
        '(p, w) ← replace_context ctxp p w;
        Normal (0, Some p, w)
      else if String.eqb keyval "minres" then
        let p := with_solver CS_PARAM_SADDLE_SOLVER_MINRES p in
        let p := with_solver_class CS_PARAM_SOLVER_CLASS_CS p in
        Normal (0, Some p, w)
      else if String.eqb keyval "mumps" then
        let p := with_solver CS_PARAM_SADDLE_SOLVER_MUMPS p in
        let p := with_solver_class CS_PARAM_SOLVER_CLASS_MUMPS p in
        let ret_class :=
          cs_param_sles_check_class CS_PARAM_SOLVER_CLASS_MUMPS in
        if decide (ret_class = CS_PARAM_N_SOLVER_CLASSES)
        then Normal (3, Some p, w)
        else Normal (0, Some p, w)
      else if String.eqb keyval "notay" then
        let p := with_solver CS_PARAM_SADDLE_SOLVER_NOTAY_TRANSFORM p in
        let p := with_solver_class CS_PARAM_SOLVER_CLASS_CS p in
        let '(ctxp, w) := BFT_MALLOC (Context_notay 1.0) w in
        '(p, w) ← replace_context ctxp p w;
        Normal (0, Some p, w)
      else if String.eqb keyval "uzawa_cg" then
        let p := with_solver CS_PARAM_SADDLE_SOLVER_UZAWA_CG p in
        let p := with_solver_class CS_PARAM_SOLVER_CLASS_CS p in
        let w := cs_sles_set_epzero 1e-15 w in
        Normal (0, Some p, w)
      else Normal (ierr, Some p, w)
  end.

(** [cs_param_saddle_try_init_schur_sles_param] *)
Definition cs_param_saddle_try_init_schur_sles_param
    (saddlep : option cs_param_saddle_t) : exec (option cs_param_saddle_t) :=
  match saddlep with
  | None => Normal None
  | Some p =>
      match schur_sles_param p with
      | Some _ => Normal (Some p)
      | None => p ← _init_schur_slesp p; Normal (Some p)
      end
  end.

(** [cs_param_saddle_try_init_xtra_sles_param] *)
Definition cs_param_saddle_try_init_xtra_sles_param
    (saddlep : option cs_param_saddle_t) : exec (option cs_param_saddle_t) :=
  match saddlep with
  | None => Normal None
  | Some p =>
      match xtra_sles_param p with
      | Some _ => Normal (Some p)
      | None => p ← _init_xtra_slesp p; Normal (Some p)
      end
  end.

(** [cs_param_saddle_copy].  [ref == NULL] returns at once; [dest] is
    written without a test.  [verbosity], [name] and [context] are not
    assigned. *)
Definition cs_param_saddle_copy (ref dest : option cs_param_saddle_t)
  : exec (option cs_param_saddle_t) :=
  match ref with
  | None => Normal dest
  | Some ref =>
      dest ← deref dest;
      let dest := with_solver_class (solver_class ref) dest in
      let dest := with_solver (solver ref) dest in
      let dest := with_precond (precond ref) dest in
      let dest := with_schur_approx (schur_approx ref) dest in
      let dest :=
        with_cvg_param (with_rtol (rtol (cvg_param ref)) (cvg_param dest))
                       dest in
      let dest :=
        with_cvg_param (with_atol (atol (cvg_param ref)) (cvg_param dest))
                       dest in
      let dest :=
        with_cvg_param (with_dtol (dtol (cvg_param ref)) (cvg_param dest))
                       dest in
      let dest :=
        with_cvg_param
          (with_n_max_iter (n_max_iter (cvg_param ref)) (cvg_param dest))
          dest in
      let dest := with_block11_sles_param (block11_sles_param ref) dest in
      dest ←
        match schur_sles_param ref with
        | Some ref_schur =>
            d ← match name dest with
                | None =>
                    cs_param_saddle_set_name (Some "automatic") (Some dest)
                | Some _ => Normal (Some dest)
                end;
            d ← cs_param_saddle_try_init_schur_sles_param d;
            dest ← deref d;
            dest_schur ← deref (schur_sles_param dest);
            Normal (with_schur_sles_param
                      (Some (cs_param_sles_copy_from ref_schur dest_schur))
                      dest)
        | None => Normal dest
        end;
      dest ←
        match xtra_sles_param ref with
        | Some ref_xtra =>
            d ← match name dest with
                | None =>
                    cs_param_saddle_set_name (Some "automatic") (Some dest)
                | Some _ => Normal (Some dest)
                end;
            d ← cs_param_saddle_try_init_xtra_sles_param d;
            dest ← deref d;
            dest_xtra ← deref (xtra_sles_param dest);
            Normal (with_xtra_sles_param
                      (Some (cs_param_sles_copy_from ref_xtra dest_xtra))
                      dest)
        | None => Normal dest
        end;
      Normal (Some dest)
  end.

(** [cs_param_saddle_get_type_name] *)
Definition cs_param_saddle_get_type_name (type : cs_param_saddle_solver_t)
  : string :=
  match type with
  | CS_PARAM_SADDLE_SOLVER_NONE => "None"
  | CS_PARAM_SADDLE_SOLVER_ALU => "Augmented-Lagrangian Uzawa"
  | CS_PARAM_SADDLE_SOLVER_FGMRES => "FGMRES"
  | CS_PARAM_SADDLE_SOLVER_GCR => "GCR"
  | CS_PARAM_SADDLE_SOLVER_GKB => "GKB"
  | CS_PARAM_SADDLE_SOLVER_MINRES => "MinRES"
  | CS_PARAM_SADDLE_SOLVER_MUMPS => "MUMPS"
  | CS_PARAM_SADDLE_SOLVER_NOTAY_TRANSFORM => "MUMPS"
  | CS_PARAM_SADDLE_SOLVER_UZAWA_CG => "CG"
  | CS_PARAM_SADDLE_N_SOLVERS => "Undefined"
  end.

(** [cs_param_saddle_free].  The argument is a pointer to the pointer to
    the record; the name and the nested records, kept by value here, go
    with the record; [BFT_FREE] of a [NULL] pointer does nothing.  The
    result is the pointer as the caller finds it and the process
    state. *)
Definition cs_param_saddle_free
    (p_saddlep : option (option cs_param_saddle_t)) (w : world)
  : exec (option (option cs_param_saddle_t) * world) :=
  match p_saddlep with
  | None => Normal (None, w)
  | Some None => Normal (Some None, w)
  | Some (Some saddlep) =>
      w ← match context saddlep with
          | Some a => BFT_FREE a w
          | None => Normal w
          end;
      Normal (Some None, w)
  end.

End ParamSaddle.

(** ** [cs_cdofb_monolithic_sles.c] *)

(** Arrays of reals.  An access outside the array is undefined. *)
Definition array_get (a : list float) (i : nat) : exec float := deref (a !! i).

Definition array_set (a : list float) (i : nat) (v : float)
  : exec (list float) :=
  if decide (i < length a)%nat then Normal (<[i := v]> a) else Undefined.

(** [for (i = start; i < start + count; i++) body] *)
Fixpoint for_loop {S : Type} (body : nat -> S -> exec S)
    (start count : nat) (s : S) : exec S :=
  match count with
  | O => Normal s
  | Datatypes.S n => s' ← body start s; for_loop body (Datatypes.S start) n s'
  end.

(** Modelled from the spec: [cs_array_real_fill_zero] ([cs_array.c], not
    among the sources) sets the first [size] entries of an array to zero
    ("initialized to zero"). *)
Definition cs_array_real_fill_zero (size : nat) (a : list float)
  : exec (list float) :=
  for_loop (fun i a => array_set a i 0%float) 0 size a.

(** [cs_nvec3_t]: a measure and a unit vector. *)
Record cs_nvec3_t : Set := mk_nvec3 {
  meas : float;
  unitv : float * float * float
}.

Definition unitv_at (nvf : cs_nvec3_t) (k : nat) : exec float :=
  let '(u0, u1, u2) := unitv nvf in
  match k with
  | 0%nat => Normal u0
  | 1%nat => Normal u1
  | 2%nat => Normal u2
  | _ => Undefined
  end.

(** The members of [cs_mesh_t], [cs_cdo_quantities_t], [cs_time_step_t]
    and [cs_navsto_param_t] the functions read.  Counts and indices
    are of type [cs_lnum_t]; they are natural numbers here. *)
Record cs_mesh_t : Set := mk_mesh {
  n_cells_with_ghosts : nat;
  n_i_faces : nat;
  n_b_faces : nat;
  i_face_cells : list (nat * nat);
  b_face_cells : list nat
}.

Record cs_cdo_quantities_t : Set := mk_quant {
  n_cells : nat;
  n_faces : nat;
  cell_vol : list float;
  i_face_normal : list float;
  b_face_normal : list float
}.

Record cs_time_step_t : Set := mk_time_step {
  t_cur : float;
  dt : float * float * float
}.

Record cs_property_t : Set := mk_property {
  pty_id : Z;
  ref_value : float
}.

Record cs_turb_model_t : Set := mk_turb_model { iturb : Z }.
Record cs_turbulence_param_t : Set := mk_turbulence { model : cs_turb_model_t }.

Record cs_navsto_param_t : Set := mk_navsto {
  model_flag : Z;
  turbulence : cs_turbulence_param_t;
  mass_density : cs_property_t;
  lam_viscosity : cs_property_t;
  tot_viscosity : cs_property_t
}.

Section MonolithicSles.

(** Constants and helpers declared in headers that are not among the
    sources: the turbulence model meaning "none", the flag bit of a
    steady model, the value of a property in one cell at a given time,
    and the measure and unit vector of an interior face and of a vector
    of three reals. *)
Variable CS_TURB_NONE : Z.
Variable CS_NAVSTO_MODEL_STEADY : Z.
Variable cs_property_cell_value : float -> cs_property_t -> nat -> float.
Variable cs_quant_set_face_nvec : nat -> cs_cdo_quantities_t -> cs_nvec3_t.
Variable cs_nvec3 : float * float * float -> cs_nvec3_t.

(** Modelled from the spec: [cs_property_eval_at_cells(time, prop, out)]
    ([cs_property.c], not among the sources) writes the value of the
    property in every cell into [out[0 .. n_cells)]. *)
Definition cs_property_eval_at_cells (cdoq : cs_cdo_quantities_t)
    (t : float) (pty : cs_property_t) (array : list float)
  : exec (list float) :=
  for_loop (fun i a => array_set a i (cs_property_cell_value t pty i))
           0 (n_cells cdoq) array.

(** [_get_m22_scaled_diag_mass_matrix].  [cs_shared_quant] and
    [cs_glob_time_step] are passed as [cdoq] and [ts]; [fresh] is the
    content of the array as [BFT_MALLOC] hands it over, of the requested
    size but with indeterminate values.  The result is the array and the
    value written to [*schur_scaling]. *)
Definition _get_m22_scaled_diag_mass_matrix
    (cdoq : cs_cdo_quantities_t) (ts : cs_time_step_t) (fresh : float)
    (nsp : cs_navsto_param_t) : exec (list float * float) :=
  let n_cells := n_cells cdoq in
  let m22_mass_diag := replicate n_cells fresh in
  m22_mass_diag ←
    (if decide (iturb (model (turbulence nsp)) = CS_TURB_NONE) then
       let visc_val := ref_value (lam_viscosity nsp) in
       for_loop (fun i m =>
                   vol ← array_get (cell_vol cdoq) i;
                   array_set m i (visc_val / vol)%float)
                0 n_cells m22_mass_diag
     else
       m ← cs_property_eval_at_cells cdoq (t_cur ts) (tot_viscosity nsp)
             m22_mass_diag;
       for_loop (fun i m =>
                   v ← array_get m i;
                   vol ← array_get (cell_vol cdoq) i;
                   array_set m i (v / vol)%float)
                0 n_cells m);
  let rho0 := ref_value (mass_density nsp) in
  let alpha := (1 / (dt ts).1.1)%float in
  let alpha :=
    if decide (Z.land (model_flag nsp) CS_NAVSTO_MODEL_STEADY ≠ 0)
    then (0.01 * ref_value (lam_viscosity nsp))%float
    else alpha in
  Normal (m22_mass_diag, (rho0 * alpha)%float).

(** The three reals at [a + off]. *)
Definition read3 (a : list float) (off : nat) : exec (float * float * float) :=
  x ← array_get a off;
  y ← array_get a (off + 1);
  z ← array_get a (off + 2);
  Normal (x, y, z).

(** The inner loop shared by both kinds of faces:
    [for (k = 0; k < 3; k++) contrib += m11_inv_ff[k] * unitv[k]*unitv[k]]
    with [m11_inv_ff = base + off]. *)
Definition normal_weighted_sum (base : list float) (off : nat)
    (nvf : cs_nvec3_t) : exec float :=
  for_loop (fun k contrib =>
              d ← array_get base (off + k);
              u ← unitv_at nvf k;
              Normal (contrib + d * u * u)%float)
           0 3 0%float.

(** [_schur_matrix_from_m11_inv_approx].  [cs_shared_quant] and
    [cs_shared_mesh] are passed as [quant] and [mesh]; [fresh] is as
    above.  The result is the pair [(diag_smat, xtra_smat)] handed back
    through [p_diag_smat] and [p_xtra_smat]; the matrix object built from
    them by the backend is not represented. *)
Definition _schur_matrix_from_m11_inv_approx
    (quant : cs_cdo_quantities_t) (mesh : cs_mesh_t) (fresh : float)
    (mat_class : cs_param_solver_class_t) (m11_inv_approx : list float)
  : exec (list float * list float) :=
  let n_cells_ext := n_cells_with_ghosts mesh in
  let n_i_faces := n_i_faces mesh in
  let n_b_faces := n_b_faces mesh in
  let diag_smat := replicate n_cells_ext fresh in
  let xtra_smat := replicate (2 * n_i_faces) fresh in
  diag_smat ← cs_array_real_fill_zero n_cells_ext diag_smat;
  xtra_smat ← cs_array_real_fill_zero (2 * n_i_faces) xtra_smat;
  '(diag_smat, xtra_smat) ←
    for_loop (fun f_id '(diag_smat, xtra_smat) =>
                let nvf := cs_quant_set_face_nvec f_id quant in
                contrib ← normal_weighted_sum m11_inv_approx (3 * f_id) nvf;
                let contrib := (contrib * (- meas nvf * meas nvf))%float in
                xtra_smat ← array_set xtra_smat (2 * f_id + 1) contrib;
                xtra_smat ← array_set xtra_smat (2 * f_id) contrib;
                '(cell_i, cell_j) ← deref (i_face_cells mesh !! f_id);
                d ← array_get diag_smat cell_i;
                diag_smat ← array_set diag_smat cell_i (d - contrib)%float;
                d ← array_get diag_smat cell_j;
                diag_smat ← array_set diag_smat cell_j (d - contrib)%float;
                Normal (diag_smat, xtra_smat))
             0 n_i_faces (diag_smat, xtra_smat);
  let _shift := (3 * n_i_faces)%nat in
  diag_smat ←
    for_loop (fun f_id diag_smat =>
                v ← read3 (b_face_normal quant) (3 * f_id);
                let nvf := cs_nvec3 v in
                contrib ← normal_weighted_sum m11_inv_approx
                            (_shift + 3 * f_id) nvf;
                let contrib := (contrib * (meas nvf * meas nvf))%float in
                c ← deref (b_face_cells mesh !! f_id);
                d ← array_get diag_smat c;
                array_set diag_smat c (d + contrib)%float)
             0 n_b_faces diag_smat;
  Normal (diag_smat, xtra_smat).

(** The saddle-point solver handle, with the member the guards read. *)
Record cs_saddle_solver_t : Set := mk_saddle_solver {
  param : cs_param_saddle_t;
  n1_scatter_dofs : nat;
  n2_scatter_dofs : nat
}.

(** Modelled from the spec: [bft_error] ([bft_error.c], not among the
    sources) reports a fatal error and the run stops there.  A driver
    either ends in it or returns a number of iterations. *)
Inductive driver_result : Set :=
| Fatal (message : string)
| Returned (n_iters : Z).

(** The solves the two drivers delegate to ([cs_saddle_solver.c], not
    among the sources), reduced to the iteration count they leave in
    [solver->algo]. *)
Variable cs_saddle_solver_sles_full_system : cs_saddle_solver_t -> Z.
Variable cs_saddle_solver_notay : cs_saddle_solver_t -> Z.

(** [cs_cdofb_monolithic_sles_full_system] *)
Definition cs_cdofb_monolithic_sles_full_system
    (psolver : option cs_saddle_solver_t) : driver_result :=
  match psolver with
  | None => Returned 0
  | Some sv =>
      let saddlep := param sv in
      if bool_decide (solver saddlep ≠ CS_PARAM_SADDLE_SOLVER_MUMPS)
         || bool_decide (solver saddlep ≠ CS_PARAM_SADDLE_SOLVER_FGMRES)
      then
        Fatal ("cs_cdofb_monolithic_sles_full_system: "
               ++ "Full system solver is expected.")
      else
        let n_iters := cs_saddle_solver_sles_full_system sv in
        Returned n_iters
  end.

(** [cs_cdofb_monolithic_sles_notay] *)
Definition cs_cdofb_monolithic_sles_notay
    (psolver : option cs_saddle_solver_t) : driver_result :=
  match psolver with
  | None => Returned 0
  | Some sv =>
      let saddlep := param sv in
      if bool_decide
           (solver saddlep ≠ CS_PARAM_SADDLE_SOLVER_NOTAY_TRANSFORM)
      then
        Fatal ("cs_cdofb_monolithic_sles_notay: "
               ++ "Notay's transformation is expected.")
      else
        let n_iters := cs_saddle_solver_notay sv in
        Returned n_iters
  end.


(** *** Contexts of the ALU and GKB algorithms

    The members of the solver handle that [cs_saddle_solver_t] above
    does not hold ([do_setup], [context], the matrix of the first block
    of the system helper) are passed beside it. *)

(** [assert] is compiled unless the build defines [NDEBUG]; it then
    evaluates its argument and, when this is zero, aborts the run.  A
    function with assertions takes the build as [NDEBUG], and ends in a
    failed assertion or goes on to its result. *)
Inductive asserted (A : Type) : Type :=
| Assertion_failed (expression : string)
| Passed (a : A).

#[global] Arguments Assertion_failed {A} expression.
#[global] Arguments Passed {A} a.

Definition assert_fails (NDEBUG : bool) (expression : bool) : bool :=
  negb NDEBUG && negb expression.

(** [int] is a 32-bit integer; an operation on [int] whose result does
    not fit is undefined. *)
Definition INT_MIN : Z := -2147483648.
Definition INT_MAX : Z := 2147483647.

Definition int_result (z : Z) : exec Z :=
  if decide (INT_MIN <= z <= INT_MAX) then Normal z else Undefined.

(** Modelled from the spec: [CS_MAX] ([cs_defs.h], not among the
    sources) is the larger of its two arguments ("max(1, tt - 1)"). *)
Definition CS_MAX (a b : Z) : Z := if decide (a > b) then a else b.

(** Modelled from the spec: [BFT_MALLOC] of an array of reals whose
    number of entries is an [int] (the buffers are given by their
    sizes): the entries hold indeterminate values, here [fresh]; a
    negative count is no request the model gives a meaning to. *)
Definition BFT_MALLOC_reals (fresh : float) (n : Z) : exec (list float) :=
  if decide (0 <= n) then Normal (replicate (Z.to_nat n) fresh)
  else Undefined.

(** [cs_saddle_solver_context_gkb_t] ([cs_saddle_solver.h], not among
    the sources), with the members [_gkb_init_context] writes. *)
Record cs_saddle_solver_context_gkb_t : Set := mk_context_gkb {
  gkb_alpha : float;
  gkb_beta : float;
  gkb_zeta : float;
  gkb_q : option (list float);
  gkb_d : option (list float);
  gkb_m21v : option (list float);
  gkb_inv_m22 : option (list float);
  gkb_m22 : option (list float);
  gkb_m12q : option (list float);
  gkb_x1_tilda : option (list float);
  gkb_w : option (list float);
  gkb_v : option (list float);
  gkb_rhs_tilda : option (list float);
  gkb_zeta_size : Z;
  gkb_zeta_array : option (list float);
  gkb_zeta_square_sum : float
}.

(** The size of the window of the energy-norm estimate, as
    [_gkb_init_context] chooses it from the augmentation scaling
    [gamma] and the truncation threshold [tt], here [tt']. *)
Definition gkb_zeta_size_of (gamma : float) (tt' : Z) : exec Z :=
  if PrimFloat.ltb gamma 1 then int_result (tt' + 1)
  else if PrimFloat.ltb gamma 10 then Normal tt'
  else if PrimFloat.ltb gamma 100 then
    m ← int_result (tt' - 1); Normal (CS_MAX 1 m)
  else if PrimFloat.ltb gamma 1e3 then
    m ← int_result (tt' - 2); Normal (CS_MAX 1 m)
  else if PrimFloat.ltb gamma 1e4 then
    m ← int_result (tt' - 3); Normal (CS_MAX 1 m)
  else
    m ← int_result (tt' - 4); Normal (CS_MAX 1 m).

(** [_gkb_init_context].  [cs_shared_quant] is passed as [quant],
    [n_columns_m11] is what [cs_matrix_get_n_columns] answers for the
    matrix of the first block, and [w] holds the block behind
    [saddlep->context]. *)
Definition _gkb_init_context (NDEBUG : bool) (quant : cs_cdo_quantities_t)
    (fresh : float) (n_columns_m11 : nat) (do_setup : bool) (w : world)
    (sv : option cs_saddle_solver_t)
    (ctx : option cs_saddle_solver_context_gkb_t)
  : exec (asserted cs_saddle_solver_context_gkb_t) :=
  if assert_fails NDEBUG
       (bool_decide (ctx ≠ None) && bool_decide (sv ≠ None))
  then Normal (Assertion_failed "ctx != NULL && solver != NULL")
  else
  sv ← deref sv;
  let n1_dofs := n1_scatter_dofs sv in
  let n2_dofs := n2_scatter_dofs sv in
  if assert_fails NDEBUG (bool_decide (n1_dofs = 3 * n_faces quant)%nat)
  then Normal (Assertion_failed "n1_dofs == 3*quant->n_faces")
  else
  if assert_fails NDEBUG (bool_decide (n2_dofs = n_cells quant))
  then Normal (Assertion_failed "n2_dofs == quant->n_cells")
  else
  ctx ← deref ctx;
  let ctx :=
    {| gkb_alpha := 0; gkb_beta := 0; gkb_zeta := 0;
       gkb_q := gkb_q ctx; gkb_d := gkb_d ctx; gkb_m21v := gkb_m21v ctx;
       gkb_inv_m22 := gkb_inv_m22 ctx; gkb_m22 := gkb_m22 ctx;
       gkb_m12q := gkb_m12q ctx; gkb_x1_tilda := gkb_x1_tilda ctx;
       gkb_w := gkb_w ctx; gkb_v := gkb_v ctx;
       gkb_rhs_tilda := gkb_rhs_tilda ctx;
       gkb_zeta_size := gkb_zeta_size ctx;
       gkb_zeta_array := gkb_zeta_array ctx;
       gkb_zeta_square_sum := gkb_zeta_square_sum ctx |} in
  if negb do_setup then Normal (Passed ctx)
  else
    let q := replicate n2_dofs fresh in
    let d := replicate n2_dofs fresh in
    let m21v := replicate n2_dofs fresh in
    let inv_m22 := replicate n2_dofs fresh in
    let m22 := cell_vol quant in
    inv_m22 ←
      for_loop (fun i inv_m22 =>
                  vol ← array_get (cell_vol quant) i;
                  array_set inv_m22 i (1 / vol)%float)
               0 n2_dofs inv_m22;
    let m12q := replicate n1_dofs fresh in
    let x1_tilda := replicate n1_dofs fresh in
    let max_b11_size := Nat.max n_columns_m11 n1_dofs in
    let w_buf := replicate max_b11_size fresh in
    let v_buf := replicate max_b11_size fresh in
    let rhs_tilda := replicate (Nat.max n1_dofs n2_dofs) fresh in
    let saddlep := param sv in
    '(_, ctxp) ← load_context saddlep w;
    match ctxp with
    | Context_gkb gamma tt' _ =>
        zeta_size ← gkb_zeta_size_of gamma tt';
        zeta_array ← BFT_MALLOC_reals fresh zeta_size;
        zeta_array ←
          for_loop (fun i zeta_array => array_set zeta_array i 0%float)
                   0 (Z.to_nat zeta_size) zeta_array;
        Normal (Passed
                  {| gkb_alpha := 0; gkb_beta := 0; gkb_zeta := 0;
                     gkb_q := Some q; gkb_d := Some d;
                     gkb_m21v := Some m21v;
                     gkb_inv_m22 := Some inv_m22; gkb_m22 := Some m22;
                     gkb_m12q := Some m12q; gkb_x1_tilda := Some x1_tilda;
                     gkb_w := Some w_buf; gkb_v := Some v_buf;
                     gkb_rhs_tilda := Some rhs_tilda;
                     gkb_zeta_size := zeta_size;
                     gkb_zeta_array := Some zeta_array;
                     gkb_zeta_square_sum := 0 |})
    | _ => Undefined
    end.

(** [cs_saddle_solver_context_alu_t], with the members
    [_alu_init_context] writes. *)
Record cs_saddle_solver_context_alu_t : Set := mk_context_alu {
  alu_inv_m22 : option (list float);
  alu_res2 : option (list float);
  alu_m21x1 : option (list float);
  alu_b1_tilda : option (list float);
  alu_rhs : option (list float)
}.

(** [_alu_init_context].  In a build with [NDEBUG] and without a setup
    to do, the pointer [ctx] is not read. *)
Definition _alu_init_context (NDEBUG : bool) (quant : cs_cdo_quantities_t)
    (fresh : float) (do_setup : bool) (sv : option cs_saddle_solver_t)
    (ctx : option cs_saddle_solver_context_alu_t)
  : exec (asserted (option cs_saddle_solver_context_alu_t)) :=
  if assert_fails NDEBUG (bool_decide (ctx ≠ None))
  then Normal (Assertion_failed "ctx != NULL")
  else
  sv ← deref sv;
  if negb do_setup then Normal (Passed ctx)
  else
    if assert_fails NDEBUG (bool_decide (n2_scatter_dofs sv = n_cells quant))
    then Normal (Assertion_failed
                   "solver->n2_scatter_dofs == quant->n_cells")
    else
    if assert_fails NDEBUG
         (bool_decide (n1_scatter_dofs sv = 3 * n_faces quant)%nat)
    then Normal (Assertion_failed
                   "solver->n1_scatter_dofs == 3*quant->n_faces")
    else
    _ ← deref ctx;
    let inv_m22 := replicate (n2_scatter_dofs sv) fresh in
    inv_m22 ←
      for_loop (fun i2 inv_m22 =>
                  vol ← array_get (cell_vol quant) i2;
                  array_set inv_m22 i2 (1 / vol)%float)
               0 (n2_scatter_dofs sv) inv_m22;
    Normal (Passed
              (Some {| alu_inv_m22 := Some inv_m22;
                       alu_res2 :=
                         Some (replicate (n2_scatter_dofs sv) fresh);
                       alu_m21x1 :=
                         Some (replicate (n2_scatter_dofs sv) fresh);
                       alu_b1_tilda :=
                         Some (replicate (n1_scatter_dofs sv) fresh);
                       alu_rhs :=
                         Some (replicate (n1_scatter_dofs sv) fresh) |})).

End MonolithicSles.

(** ** A build and sample data to run the embedding on *)

Module Sample.

(** Modelled from the spec: [cs_param_sles_create], [cs_param_sles_copy_from]
    and [cs_param_sles_check_class] live in [cs_param_sles.c], which is not
    among the sources.  The stand-ins below are only used to evaluate the
    embedding on concrete records: creation stores the field id and the
    name and leaves the remaining members unconfigured, the copy
    ("deep-clones", in the words of the specification) overwrites every
    member of the destination but its name, and the class test answers
    for a build with every backend ([all_backends]) or with none
    ([no_backend]). *)
Definition sles_create (field_id : Z) (name : string) : cs_param_sles_t :=
  {| sles_name := Some name;
     sles_field_id := field_id;
     sles_solver_class := CS_PARAM_SOLVER_CLASS_CS;
     sles_precond := CS_PARAM_PRECOND_NONE;
     sles_solver := CS_PARAM_SOLVER_NONE;
     sles_amg_type := CS_PARAM_AMG_NONE;
     sles_cvg_param := {| n_max_iter := 10000; atol := 1e-15;
                          rtol := 1e-6; dtol := 1e3 |} |}.

Definition sles_copy_from (src dst : cs_param_sles_t) : cs_param_sles_t :=
  {| sles_name := sles_name dst;
     sles_field_id := sles_field_id src;
     sles_solver_class := sles_solver_class src;
     sles_precond := sles_precond src;
     sles_solver := sles_solver src;
     sles_amg_type := sles_amg_type src;
     sles_cvg_param := sles_cvg_param src |}.

Definition all_backends (wanted : cs_param_solver_class_t)
  : cs_param_solver_class_t := wanted.

Definition no_backend (wanted : cs_param_solver_class_t)
  : cs_param_solver_class_t :=
  match wanted with
  | CS_PARAM_SOLVER_CLASS_CS => CS_PARAM_SOLVER_CLASS_CS
  | _ => CS_PARAM_N_SOLVER_CLASSES
  end.

(** Settings of a (1,1)-block solver, a saddle-point record that refers
    to them, and a process state without any context block. *)
Definition b11 : cs_param_sles_t :=
  {| sles_name := Some "Momentum";
     sles_field_id := 3;
     sles_solver_class := CS_PARAM_SOLVER_CLASS_CS;
     sles_precond := CS_PARAM_PRECOND_DIAG;
     sles_solver := CS_PARAM_SOLVER_GCR;
     sles_amg_type := CS_PARAM_AMG_NONE;
     sles_cvg_param := {| n_max_iter := 2500; atol := 1e-14;
                          rtol := 1e-5; dtol := 1e3 |} |}.

Definition saddlep : cs_param_saddle_t :=
  cs_param_saddle_create (Some b11).

Definition verbose_saddlep : cs_param_saddle_t :=
  {| verbosity := 2;
     name := None;
     solver_class := CS_PARAM_SOLVER_CLASS_CS;
     solver := CS_PARAM_SADDLE_SOLVER_NONE;
     precond := CS_PARAM_SADDLE_PRECOND_NONE;
     cvg_param := {| n_max_iter := 100; atol := 1e-12;
                     rtol := 1e-6; dtol := 1e3 |};
     schur_approx := CS_PARAM_SADDLE_SCHUR_NONE;
     block11_sles_param := Some b11;
     schur_sles_param := None;
     xtra_sles_param := None;
     context := None |}.

Definition w0 : world := {| bft_heap := ∅; sles_epzero := 1e-12 |}.

(** The record and the process state after [set_solver("alu")] on
    [verbose_saddlep], then after [set_solver("minres")] or
    [set_solver("gcr")] on the result. *)
Definition alu_run : exec (Z * option cs_param_saddle_t * world) := Eval vm_compute in
    cs_param_saddle_set_solver sles_create sles_copy_from all_backends
      (Some "alu") (Some verbose_saddlep) w0.

Definition alu_saddlep : cs_param_saddle_t := Eval vm_compute in
    match alu_run with
    | Normal (_, Some p, _) => p
    | _ => verbose_saddlep
    end.

Definition alu_world : world := Eval vm_compute in
    match alu_run with
    | Normal (_, _, w) => w
    | _ => w0
    end.

Definition minres_saddlep : cs_param_saddle_t := Eval vm_compute in
    match cs_param_saddle_set_solver sles_create sles_copy_from all_backends
            (Some "minres") (Some alu_saddlep) alu_world with
    | Normal (_, Some p, _) => p
    | _ => alu_saddlep
    end.

Definition gcr_run : exec (Z * option cs_param_saddle_t * world) := Eval vm_compute in
    cs_param_saddle_set_solver sles_create sles_copy_from all_backends
      (Some "gcr") (Some alu_saddlep) alu_world.

Definition gcr_saddlep : cs_param_saddle_t := Eval vm_compute in
    match gcr_run with
    | Normal (_, Some p, _) => p
    | _ => alu_saddlep
    end.

Definition gcr_world : world := Eval vm_compute in
    match gcr_run with
    | Normal (_, _, w) => w
    | _ => alu_world
    end.

(** [alu_saddlep] copied into a fresh record, and that one copied into
    another fresh record. *)
Definition copied_once : cs_param_saddle_t := Eval vm_compute in
    match cs_param_saddle_copy sles_create sles_copy_from
            (Some alu_saddlep) (Some saddlep) with
    | Normal (Some p) => p
    | _ => saddlep
    end.

Definition copied_twice : cs_param_saddle_t := Eval vm_compute in
    match cs_param_saddle_copy sles_create sles_copy_from
            (Some copied_once) (Some saddlep) with
    | Normal (Some p) => p
    | _ => saddlep
    end.

(** [verbose_saddlep] after [set_schur_approx("lumped_inv")]. *)
Definition lumped_saddlep : cs_param_saddle_t := Eval vm_compute in
    match cs_param_saddle_set_schur_approx sles_create sles_copy_from
            (Some "lumped_inv") (Some verbose_saddlep) with
    | Normal (_, Some p) => p
    | _ => verbose_saddlep
    end.

(** Two cells of volume 0.5 separated by one interior face, cell 0 having
    one boundary face; a steady laminar model.  The measure and unit
    vector of a face are stand-ins for the geometric helpers. *)
Definition mesh : cs_mesh_t :=
  {| n_cells_with_ghosts := 2; n_i_faces := 1; n_b_faces := 1;
     i_face_cells := [(0, 1)%nat]; b_face_cells := [0%nat] |}.

Definition quant : cs_cdo_quantities_t :=
  {| n_cells := 2;
     n_faces := 2;
     cell_vol := [0.5; 0.5]%float;
     i_face_normal := [2; 0; 0]%float;
     b_face_normal := [0; 0; 2]%float |}.

Definition m11_inv : list float := [1; 1; 1; 0.5; 0.5; 0.5]%float.

Definition face_nvec (f : nat) (q : cs_cdo_quantities_t) : cs_nvec3_t :=
  {| meas := 2; unitv := (1, 0, 0)%float |}.

Definition nvec3 (v : float * float * float) : cs_nvec3_t :=
  {| meas := 2; unitv := (0, 0, 1)%float |}.

Definition ts : cs_time_step_t :=
  {| t_cur := 0; dt := (0.1, 0.1, 0.1)%float |}.

Definition nsp : cs_navsto_param_t :=
  {| model_flag := 1;
     turbulence := {| model := {| iturb := 0 |} |};
     mass_density := {| pty_id := 0; ref_value := 1000 |};
     lam_viscosity := {| pty_id := 1; ref_value := 0.001 |};
     tot_viscosity := {| pty_id := 2; ref_value := 0.001 |} |}.

Definition cell_value (t : float) (pty : cs_property_t) (i : nat) : float :=
  ref_value pty.

(** [verbose_saddlep] after [set_solver("gkb")]. *)
Definition gkb_run : exec (Z * option cs_param_saddle_t * world) := Eval vm_compute in
    cs_param_saddle_set_solver sles_create sles_copy_from all_backends
      (Some "gkb") (Some verbose_saddlep) w0.

Definition gkb_saddlep : cs_param_saddle_t := Eval vm_compute in
    match gkb_run with
    | Normal (_, Some p, _) => p
    | _ => verbose_saddlep
    end.

Definition gkb_world : world := Eval vm_compute in
    match gkb_run with
    | Normal (_, _, w) => w
    | _ => w0
    end.

(** [alu_saddlep] after [set_schur_approx("lumped_inv")], and the created
    record [saddlep] after the same call. *)
Definition alu_lumped_saddlep : cs_param_saddle_t := Eval vm_compute in
    match cs_param_saddle_set_schur_approx sles_create sles_copy_from
            (Some "lumped_inv") (Some alu_saddlep) with
    | Normal (_, Some p) => p
    | _ => alu_saddlep
    end.

Definition created_lumped_saddlep : cs_param_saddle_t := Eval vm_compute in
    match cs_param_saddle_set_schur_approx sles_create sles_copy_from
            (Some "lumped_inv") (Some saddlep) with
    | Normal (_, Some p) => p
    | _ => saddlep
    end.

(** Solver handles on [gkb_saddlep] and on [alu_saddlep] for the mesh
    above (two faces, two cells), and a GKB and an ALU context as their
    creation leaves them. *)
Definition gkb_solver : cs_saddle_solver_t :=
  {| param := gkb_saddlep; n1_scatter_dofs := 6; n2_scatter_dofs := 2 |}.

Definition gkb_context : cs_saddle_solver_context_gkb_t :=
  {| gkb_alpha := 1; gkb_beta := 1; gkb_zeta := 1;
     gkb_q := None; gkb_d := None; gkb_m21v := None;
     gkb_inv_m22 := None; gkb_m22 := None;
     gkb_m12q := None; gkb_x1_tilda := None;
     gkb_w := None; gkb_v := None; gkb_rhs_tilda := None;
     gkb_zeta_size := 0; gkb_zeta_array := None;
     gkb_zeta_square_sum := 1 |}.

Definition alu_solver : cs_saddle_solver_t :=
  {| param := alu_saddlep; n1_scatter_dofs := 6; n2_scatter_dofs := 2 |}.

Definition alu_context : cs_saddle_solver_context_alu_t :=
  {| alu_inv_m22 := None; alu_res2 := None; alu_m21x1 := None;
     alu_b1_tilda := None; alu_rhs := None |}.

End Sample.

(** ** Statements about contexts *)

(** The block [saddlep->context] refers to, if any. *)
Definition context_block_of (p : cs_param_saddle_t) (w : world)
  : option context_block :=
  context p ≫= (bft_heap w !!.).

(** [saddlep->context] is [NULL] or the address of a live block. *)
Definition valid_context (p : cs_param_saddle_t) (w : world) : Prop :=
  forall a, context p = Some a -> is_Some (bft_heap w !! a).

(** The block [cs_param_saddle_set_solver] allocates for a solver kind,
    with its default scalars; [None] for the kinds without context. *)
Definition default_context (s : cs_param_saddle_solver_t)
  : option context_block :=
  match s with
  | CS_PARAM_SADDLE_SOLVER_ALU => Some (Context_alu 100 false)
  | CS_PARAM_SADDLE_SOLVER_FGMRES
  | CS_PARAM_SADDLE_SOLVER_GCR => Some (Context_block_krylov 30)
  | CS_PARAM_SADDLE_SOLVER_GKB => Some (Context_gkb 0 5 false)
  | CS_PARAM_SADDLE_SOLVER_NOTAY_TRANSFORM => Some (Context_notay 1.0)
  | _ => None
  end.

(** The variant of the tagged union the specification associates with a
    solver kind: ALU, GKB, block-Krylov (GCR and FGMRES), Notay, and no
    block at all for the kinds without context scalars. *)
Definition context_matches (s : cs_param_saddle_solver_t)
    (blk : option context_block) : Prop :=
  match s, blk with
  | CS_PARAM_SADDLE_SOLVER_ALU, Some (Context_alu _ _) => True
  | CS_PARAM_SADDLE_SOLVER_GKB, Some (Context_gkb _ _ _) => True
  | CS_PARAM_SADDLE_SOLVER_FGMRES, Some (Context_block_krylov _) => True
  | CS_PARAM_SADDLE_SOLVER_GCR, Some (Context_block_krylov _) => True
  | CS_PARAM_SADDLE_SOLVER_NOTAY_TRANSFORM, Some (Context_notay _) => True
  | CS_PARAM_SADDLE_SOLVER_NONE, None => True
  | CS_PARAM_SADDLE_SOLVER_MINRES, None => True
  | CS_PARAM_SADDLE_SOLVER_MUMPS, None => True
  | CS_PARAM_SADDLE_SOLVER_UZAWA_CG, None => True
  | _, _ => False
  end.

(** The solver keys and the Schur keys that call for a nested solve. *)
Definition solver_keys : list string :=
  ["none"; "alu"; "fgmres"; "gcr"; "gkb"; "minres"; "mumps"; "notay";
   "uzawa_cg"].

Definition schur_solve_keys : list string :=
  ["diag_inv"; "lumped_inv"; "mass_scaled_diag_inv"; "mass_scaled_lumped_inv"].

Definition lumped_keys : list string :=
  ["lumped_inv"; "mass_scaled_lumped_inv"].

(** The solver kind a key selects. *)
Definition solver_of_key (k : string) : option cs_param_saddle_solver_t :=
  if String.eqb k "none" then Some CS_PARAM_SADDLE_SOLVER_NONE
  else if String.eqb k "alu" then Some CS_PARAM_SADDLE_SOLVER_ALU
  else if String.eqb k "fgmres" then Some CS_PARAM_SADDLE_SOLVER_FGMRES
  else if String.eqb k "gcr" then Some CS_PARAM_SADDLE_SOLVER_GCR
  else if String.eqb k "gkb" then Some CS_PARAM_SADDLE_SOLVER_GKB
  else if String.eqb k "minres" then Some CS_PARAM_SADDLE_SOLVER_MINRES
  else if String.eqb k "mumps" then Some CS_PARAM_SADDLE_SOLVER_MUMPS
  else if String.eqb k "notay" then
    Some CS_PARAM_SADDLE_SOLVER_NOTAY_TRANSFORM
  else if String.eqb k "uzawa_cg" then Some CS_PARAM_SADDLE_SOLVER_UZAWA_CG
  else None.

(** The block preconditioner a key selects, for the two triangular ones. *)
Definition triangular_precond (k : string) : cs_param_saddle_precond_t :=
  if String.eqb k "lower" then CS_PARAM_SADDLE_PRECOND_LOWER
  else CS_PARAM_SADDLE_PRECOND_UPPER.

(** Allocation of a context block followed by its attachment: the two
    steps every branch of [cs_param_saddle_set_solver] with a context
    ends with. *)
Definition install (blk : context_block) (p : cs_param_saddle_t) (w : world)
  : exec (cs_param_saddle_t * world) :=
  replace_context (BFT_MALLOC blk w).1 p (BFT_MALLOC blk w).2.

(** ** The smallest and the largest of reals

    The order of the binary64 numbers goes through a key: every value
    but a NaN is mapped to a triple of integers, and two values compare
    as their keys do, lexicographically. *)
Definition sf_key (f : spec_float) : Z * Z * Z :=
  match f with
  | S754_zero _ => (0, 0, 0)
  | S754_infinity true => (-2, 0, 0)
  | S754_infinity false => (2, 0, 0)
  | S754_nan => (3, 0, 0)
  | S754_finite true m e => (-1, - e, - Z.pos m)
  | S754_finite false m e => (1, e, Z.pos m)
  end.

Definition key_lt (a b : Z * Z * Z) : Prop :=
  a.1.1 < b.1.1 \/
  (a.1.1 = b.1.1 /\ (a.1.2 < b.1.2 \/ (a.1.2 = b.1.2 /\ a.2 < b.2))).

Definition key_le (a b : Z * Z * Z) : Prop :=
  a.1.1 < b.1.1 \/
  (a.1.1 = b.1.1 /\ (a.1.2 < b.1.2 \/ (a.1.2 = b.1.2 /\ a.2 <= b.2))).

(** [r] is the smallest (the largest) of the reals of a list.  A NaN is
    no real: it is set aside, and [r] is a NaN only when the list holds
    nothing else.  Otherwise [r] is one of the reals of the list and is
    below (above) every one of them. *)
Definition smallest_of (l : list float) (r : float) : Prop :=
  (PrimFloat.is_nan r = true /\
   forall x, x ∈ l -> PrimFloat.is_nan x = true) \/
  (PrimFloat.is_nan r = false /\ r ∈ l /\
   forall x, x ∈ l -> PrimFloat.is_nan x = false ->
     PrimFloat.leb r x = true).

Definition largest_of (l : list float) (r : float) : Prop :=
  (PrimFloat.is_nan r = true /\
   forall x, x ∈ l -> PrimFloat.is_nan x = true) \/
  (PrimFloat.is_nan r = false /\ r ∈ l /\
   forall x, x ∈ l -> PrimFloat.is_nan x = false ->
     PrimFloat.leb x r = true).

(** ** Statements of the specification the code departs from

    Each is written as the specification words it, at one input, so that
    it can be evaluated. *)

Section Statements.

Variable create : Z -> string -> cs_param_sles_t.
Variable copy_from : cs_param_sles_t -> cs_param_sles_t -> cs_param_sles_t.
Variable check_class : cs_param_solver_class_t -> cs_param_solver_class_t.

(** "After [set_solver(k); set_solver(k')] the context variant matches
    [k'] and the old context memory is reclaimed." *)
Definition context_follows_solver (k k' : string) (p : cs_param_saddle_t)
    (w : world) : Prop :=
  forall i1 p1 w1 i2 p2 w2,
    cs_param_saddle_set_solver create copy_from check_class
      (Some k) (Some p) w = Normal (i1, Some p1, w1) ->
    cs_param_saddle_set_solver create copy_from check_class
      (Some k') (Some p1) w1 = Normal (i2, Some p2, w2) ->
    context_matches (solver p2) (context_block_of p2 w2) /\
    (forall a, context p1 = Some a -> bft_heap w2 !! a = None).


(** "[copy(p1, p2); copy(p2, p3)] yields [p3] identical to [p1] for every
    setter-observable field": kinds, convergence parameters, verbosity,
    the (1,1)-block reference, the settings of the nested records (a
    clone has a name of its own) and the context scalars. *)
Definition same_sles_settings (a b : option cs_param_sles_t) : Prop :=
  match a, b with
  | Some x, Some y =>
      sles_solver_class x = sles_solver_class y /\
      sles_precond x = sles_precond y /\
      sles_solver x = sles_solver y /\
      sles_amg_type x = sles_amg_type y /\
      sles_cvg_param x = sles_cvg_param y
  | None, None => True
  | _, _ => False
  end.

Definition same_observable_fields (w : world) (p q : cs_param_saddle_t)
  : Prop :=
  solver p = solver q /\
  solver_class p = solver_class q /\
  precond p = precond q /\
  schur_approx p = schur_approx q /\
  cvg_param p = cvg_param q /\
  verbosity p = verbosity q /\
  block11_sles_param p = block11_sles_param q /\
  same_sles_settings (schur_sles_param p) (schur_sles_param q) /\
  same_sles_settings (xtra_sles_param p) (xtra_sles_param q) /\
  context_block_of p w = context_block_of q w.

Definition copy_chain_identical (w : world) (p1 p2 p3 : cs_param_saddle_t)
  : Prop :=
  forall p2' p3',
    cs_param_saddle_copy create copy_from (Some p1) (Some p2)
    = Normal (Some p2') ->
    cs_param_saddle_copy create copy_from (Some p2') (Some p3)
    = Normal (Some p3') ->
    same_observable_fields w p3' p1.

(** "With MINRES, a lower or upper triangular preconditioner is rejected
    at setup time", in either order of the two calls: one of them
    returns an error code or, at the least, the record does not end with
    the triangular preconditioner. *)
Definition minres_rejects_triangular (k : string) (p : cs_param_saddle_t)
    (w : world) : Prop :=
  (forall i1 sp1 w1 i2 sp2,
     cs_param_saddle_set_solver create copy_from check_class
       (Some "minres") (Some p) w = Normal (i1, sp1, w1) ->
     cs_param_saddle_set_precond (Some k) sp1 = (i2, sp2) ->
     i1 <> 0 \/ i2 <> 0 \/ precond <$> sp2 <> Some (triangular_precond k))
  /\
  (forall i1 sp1 i2 sp2 w2,
     cs_param_saddle_set_precond (Some k) (Some p) = (i1, sp1) ->
     cs_param_saddle_set_solver create copy_from check_class
       (Some "minres") sp1 w = Normal (i2, sp2, w2) ->
     i1 <> 0 \/ i2 <> 0 \/ precond <$> sp2 <> Some (triangular_precond k)).

End Statements.

(** ** Closed forms for the arrays of [cs_cdofb_monolithic_sles.c]

    The entries the specification gives for the scaled mass matrix and
    for the Schur matrix, cell by cell and face by face.  Reads use the
    total lookup [!!!]; the results below only use them inside the
    arrays. *)

Section ClosedForms.

Variable CS_TURB_NONE : Z.
Variable CS_NAVSTO_MODEL_STEADY : Z.
Variable cs_property_cell_value : float -> cs_property_t -> nat -> float.
Variable cs_quant_set_face_nvec : nat -> cs_cdo_quantities_t -> cs_nvec3_t.
Variable cs_nvec3 : float * float * float -> cs_nvec3_t.

(** The viscosity of cell [i]: the reference laminar viscosity without
    turbulence model, the evaluated total viscosity otherwise. *)
Definition cell_viscosity (ts : cs_time_step_t) (nsp : cs_navsto_param_t)
    (i : nat) : float :=
  if decide (iturb (model (turbulence nsp)) = CS_TURB_NONE)
  then ref_value (lam_viscosity nsp)
  else cs_property_cell_value (t_cur ts) (tot_viscosity nsp) i.

(** The coefficient related to time: [0.01 * mu_ref] for a steady model,
    [1/dt] otherwise. *)
Definition time_coefficient (ts : cs_time_step_t) (nsp : cs_navsto_param_t)
  : float :=
  if decide (Z.land (model_flag nsp) CS_NAVSTO_MODEL_STEADY ≠ 0)
  then (0.01 * ref_value (lam_viscosity nsp))%float
  else (1 / (dt ts).1.1)%float.

(** [sum_k D[off + k] * n_k^2], accumulated from zero in the order
    k = 0, 1, 2. *)
Definition weighted_sum (D : list float) (off : nat) (nvf : cs_nvec3_t)
  : float :=
  let '(n0, n1, n2) := unitv nvf in
  (0 + D !!! off * n0 * n0
     + D !!! (off + 1)%nat * n1 * n1
     + D !!! (off + 2)%nat * n2 * n2)%float.

(** Interior face [f], of area [A = meas] and unit normal [n]:
    [-A^2 * sum_k D[3f + k] * n_k^2]. *)
Definition interior_contrib (quant : cs_cdo_quantities_t) (D : list float)
    (f : nat) : float :=
  let nvf := cs_quant_set_face_nvec f quant in
  (weighted_sum D (3 * f) nvf * (- meas nvf * meas nvf))%float.

(** Boundary face [f]: [+A^2 * sum_k D[3 n_i_faces + 3f + k] * n_k^2]. *)
Definition boundary_contrib (quant : cs_cdo_quantities_t) (mesh : cs_mesh_t)
    (D : list float) (f : nat) : float :=
  let bn := b_face_normal quant in
  let nvf := cs_nvec3 (bn !!! (3 * f)%nat, bn !!! (3 * f + 1)%nat,
                       bn !!! (3 * f + 2)%nat) in
  (weighted_sum D (3 * n_i_faces mesh + 3 * f) nvf
   * (meas nvf * meas nvf))%float.

(** The diagonal entry of cell [c] once the interior faces [0 .. m) have
    been visited: starting from zero, the contribution of a face is
    subtracted once for each side on which [c] lies. *)
Definition interior_step (quant : cs_cdo_quantities_t) (mesh : cs_mesh_t)
    (D : list float) (c : nat) (v : float) (f : nat) : float :=
  let '(cell_i, cell_j) := i_face_cells mesh !!! f in
  let v := if decide (cell_i = c)
           then (v - interior_contrib quant D f)%float else v in
  if decide (cell_j = c) then (v - interior_contrib quant D f)%float else v.

Definition diag_interior (quant : cs_cdo_quantities_t) (mesh : cs_mesh_t)
    (D : list float) (m c : nat) : float :=
  foldl (interior_step quant mesh D c) 0%float (seq 0 m).

(** ... and once the boundary faces [0 .. m) have been visited as well:
    the contribution of a boundary face is added to its cell. *)
Definition boundary_step (quant : cs_cdo_quantities_t) (mesh : cs_mesh_t)
    (D : list float) (c : nat) (v : float) (f : nat) : float :=
  if decide (b_face_cells mesh !!! f = c)
  then (v + boundary_contrib quant mesh D f)%float else v.

Definition diag_boundary (quant : cs_cdo_quantities_t) (mesh : cs_mesh_t)
    (D : list float) (m c : nat) : float :=
  foldl (boundary_step quant mesh D c)
        (diag_interior quant mesh D (n_i_faces mesh) c) (seq 0 m).

(** The mesh and the arrays are large enough for the two loops. *)
Record schur_inputs_ok (quant : cs_cdo_quantities_t) (mesh : cs_mesh_t)
    (D : list float) : Prop := {
  m11_inv_size : (3 * (n_i_faces mesh + n_b_faces mesh) <= length D)%nat;
  b_normal_size : (3 * n_b_faces mesh <= length (b_face_normal quant))%nat;
  i_cells_ok : forall f, (f < n_i_faces mesh)%nat ->
    exists ci cj, i_face_cells mesh !! f = Some (ci, cj) /\
      (ci < n_cells_with_ghosts mesh)%nat /\
      (cj < n_cells_with_ghosts mesh)%nat;
  b_cells_ok : forall f, (f < n_b_faces mesh)%nat ->
    exists c, b_face_cells mesh !! f = Some c /\
      (c < n_cells_with_ghosts mesh)%nat
}.

(** The state of the loop on interior faces before face [m], and of the
    loop on boundary faces before face [m]. *)
Definition interior_invariant (quant : cs_cdo_quantities_t)
    (mesh : cs_mesh_t) (D : list float) (m : nat)
    (st : list float * list float) : Prop :=
  length st.1 = n_cells_with_ghosts mesh /\
  length st.2 = (2 * n_i_faces mesh)%nat /\
  (forall c, (c < n_cells_with_ghosts mesh)%nat ->
     st.1 !! c = Some (diag_interior quant mesh D m c))
  /\
  (forall f, (f < m)%nat ->
     st.2 !! (2 * f)%nat = Some (interior_contrib quant D f) /\
     st.2 !! (2 * f + 1)%nat = Some (interior_contrib quant D f)).

Definition boundary_invariant (quant : cs_cdo_quantities_t)
    (mesh : cs_mesh_t) (D : list float) (m : nat) (diag : list float)
  : Prop :=
  length diag = n_cells_with_ghosts mesh /\
  (forall c, (c < n_cells_with_ghosts mesh)%nat ->
     diag !! c = Some (diag_boundary quant mesh D m c)).

End ClosedForms.

(** ** Further statements on [cs_param_saddle.c] *)

(** The block behind [context] is of the structure the solver kind is
    going to read it as: the kinds with context scalars have a block of
    their variant, the other kinds are not looked at. *)
Definition context_typed (p : cs_param_saddle_t) (w : world) : Prop :=
  match default_context (solver p) with
  | Some _ => context_matches (solver p) (context_block_of p w)
  | None => True
  end.

(** What the three scalar setters write into a block. *)
Definition write_restart_range (n : Z) (blk : context_block)
  : context_block :=
  match blk with
  | Context_block_krylov _ => Context_block_krylov n
  | _ => blk
  end.

Definition write_notay_scaling (c : float) (blk : context_block)
  : context_block :=
  match blk with
  | Context_notay _ => Context_notay c
  | _ => blk
  end.

Definition write_augmentation_coef (c : float) (blk : context_block)
  : context_block :=
  match blk with
  | Context_alu _ d => Context_alu c d
  | Context_gkb _ t d => Context_gkb c t d
  | _ => blk
  end.

(** The Schur approximations that call for a nested solve, and the
    lumped ones among them. *)
Definition needs_schur_sles (a : cs_param_saddle_schur_approx_t) : bool :=
  match a with
  | CS_PARAM_SADDLE_SCHUR_DIAG_INVERSE
  | CS_PARAM_SADDLE_SCHUR_LUMPED_INVERSE
  | CS_PARAM_SADDLE_SCHUR_MASS_SCALED_DIAG_INVERSE
  | CS_PARAM_SADDLE_SCHUR_MASS_SCALED_LUMPED_INVERSE => true
  | _ => false
  end.

Definition needs_xtra_sles (a : cs_param_saddle_schur_approx_t) : bool :=
  match a with
  | CS_PARAM_SADDLE_SCHUR_LUMPED_INVERSE
  | CS_PARAM_SADDLE_SCHUR_MASS_SCALED_LUMPED_INVERSE => true
  | _ => false
  end.

(** The nested records the Schur approximation of a record calls for are
    there. *)
Definition nested_sles_present (p : cs_param_saddle_t) : Prop :=
  (needs_schur_sles (schur_approx p) = true ->
   is_Some (schur_sles_param p)) /\
  (needs_xtra_sles (schur_approx p) = true ->
   is_Some (xtra_sles_param p)).

(** The heap [w] is the heap [w0] plus, at most, the one block the
    record refers to. *)
Definition owns_context (p : cs_param_saddle_t) (w0 w : world) : Prop :=
  match context p with
  | Some a =>
      bft_heap w0 !! a = None /\
      exists blk, bft_heap w = <[a := blk]> (bft_heap w0)
  | None => bft_heap w = bft_heap w0
  end.

(** The kinds whose setter stores a [double] (ALU, GKB and the Notay
    transformation) have a block of their own variant.  The three keys
    of these kinds allocate the block before [set_solver] returns,
    whereas a refused "fgmres" leaves a record of kind FGMRES with the
    block of the kind before. *)
Definition own_context_block (p : cs_param_saddle_t) (w : world) : Prop :=
  match solver p with
  | CS_PARAM_SADDLE_SOLVER_ALU
  | CS_PARAM_SADDLE_SOLVER_GKB
  | CS_PARAM_SADDLE_SOLVER_NOTAY_TRANSFORM =>
      context_matches (solver p) (context_block_of p w)
  | _ => True
  end.

(** The solver class [cs_param_saddle_set_solver] assigns with a key. *)
Definition class_of_key (k : string) : cs_param_solver_class_t :=
  if String.eqb k "fgmres" then CS_PARAM_SOLVER_CLASS_PETSC
  else if String.eqb k "mumps" then CS_PARAM_SOLVER_CLASS_MUMPS
  else CS_PARAM_SOLVER_CLASS_CS.

(** The calls of a configuration session that read or write the process
    state, and a session run on a record. *)
Inductive saddle_call : Set :=
| Call_set_solver (keyval : string)
| Call_set_restart_range (restart_range : Z)
| Call_set_notay_scaling (scaling_coef : float)
| Call_set_augmentation_coef (coef : float).

Section Sessions.

Variable create : Z -> string -> cs_param_sles_t.
Variable copy_from : cs_param_sles_t -> cs_param_sles_t -> cs_param_sles_t.
Variable check_class : cs_param_solver_class_t -> cs_param_solver_class_t.

Definition run_call (c : saddle_call) (p : cs_param_saddle_t) (w : world)
  : exec (cs_param_saddle_t * world) :=
  match c with
  | Call_set_solver k =>
      '(_, sp, w) ← cs_param_saddle_set_solver create copy_from check_class
                      (Some k) (Some p) w;
      p ← deref sp;
      Normal (p, w)
  | Call_set_restart_range n =>
      w ← cs_param_saddle_set_restart_range (Some p) n w; Normal (p, w)
  | Call_set_notay_scaling c =>
      w ← cs_param_saddle_set_notay_scaling (Some p) c w; Normal (p, w)
  | Call_set_augmentation_coef c =>
      w ← cs_param_saddle_set_augmentation_coef (Some p) c w; Normal (p, w)
  end.

Fixpoint run_calls (cs : list saddle_call) (p : cs_param_saddle_t)
    (w : world) : exec (cs_param_saddle_t * world) :=
  match cs with
  | [] => Normal (p, w)
  | c :: cs => '(p, w) ← run_call c p w; run_calls cs p w
  end.

(** The records a caller can get at: a created record, and what the
    setters, the two lazy initialisers and a copy between such records
    return when they return. *)
Inductive configured : cs_param_saddle_t -> Prop :=
| Configured_create (b : option cs_param_sles_t) :
    configured (cs_param_saddle_create b)
| Configured_set_name (n : option string) (p p' : cs_param_saddle_t) :
    configured p ->
    cs_param_saddle_set_name n (Some p) = Normal (Some p') ->
    configured p'
| Configured_set_block11 (b : option cs_param_sles_t)
    (p p' : cs_param_saddle_t) :
    configured p ->
    cs_param_saddle_set_block11_sles_param (Some p) b = Some p' ->
    configured p'
| Configured_set_precond (k : string) (ierr : Z)
    (p p' : cs_param_saddle_t) :
    configured p ->
    cs_param_saddle_set_precond (Some k) (Some p) = (ierr, Some p') ->
    configured p'
| Configured_set_schur_approx (k : string) (ierr : Z)
    (p p' : cs_param_saddle_t) :
    configured p ->
    cs_param_saddle_set_schur_approx create copy_from (Some k) (Some p)
    = Normal (ierr, Some p') ->
    configured p'
| Configured_set_solver_class (k : string) (ierr : Z)
    (p p' : cs_param_saddle_t) :
    configured p ->
    cs_param_saddle_set_solver_class check_class (Some k) (Some p)
    = (ierr, Some p') ->
    configured p'
| Configured_set_solver (k : string) (ierr : Z)
    (p p' : cs_param_saddle_t) (w w' : world) :
    configured p ->
    cs_param_saddle_set_solver create copy_from check_class
      (Some k) (Some p) w
    = Normal (ierr, Some p', w') ->
    configured p'
| Configured_try_init_schur (p p' : cs_param_saddle_t) :
    configured p ->
    cs_param_saddle_try_init_schur_sles_param create (Some p)
    = Normal (Some p') ->
    configured p'
| Configured_try_init_xtra (p p' : cs_param_saddle_t) :
    configured p ->
    cs_param_saddle_try_init_xtra_sles_param create copy_from (Some p)
    = Normal (Some p') ->
    configured p'
| Configured_copy (ref dest dest' : cs_param_saddle_t) :
    configured ref -> configured dest ->
    cs_param_saddle_copy create copy_from (Some ref) (Some dest)
    = Normal (Some dest') ->
    configured dest'.

End Sessions.

(** The solver kinds [cs_param_saddle_set_solver] gives a transformation
    record to. *)
Definition needs_transfo_sles (s : cs_param_saddle_solver_t) : bool :=
  match s with
  | CS_PARAM_SADDLE_SOLVER_ALU | CS_PARAM_SADDLE_SOLVER_GKB => true
  | _ => false
  end.


(** *** A sample session *)

Module SampleSession.

Import Sample.

(** A configuration session on [verbose_saddlep] in a build without
    PETSc nor MUMPS, and what it ends with: the key "fgmres" is refused
    with the solver kind already switched, so that the restart range is
    stored in the block allocated for ALU. *)
Definition session : list saddle_call :=
  [Call_set_solver "alu"; Call_set_augmentation_coef 250;
   Call_set_solver "fgmres"; Call_set_restart_range 10].

Definition session_run : exec (cs_param_saddle_t * world) := Eval vm_compute in
    run_calls sles_create sles_copy_from no_backend
      session verbose_saddlep w0.

Definition session_saddlep : cs_param_saddle_t := Eval vm_compute in
    match session_run with
    | Normal (p, _) => p
    | _ => verbose_saddlep
    end.

Definition session_world : world := Eval vm_compute in
    match session_run with
    | Normal (_, w) => w
    | _ => w0
    end.

End SampleSession.

(** ** Results on [cs_param_saddle.c] *)

Lemma bind_normal {A B : Type} (m : exec A) (f : A -> exec B) (b : B) :
  m ≫= f = Normal b -> exists a, m = Normal a /\ f a = Normal b.
Proof. destruct m; simpl; [eauto | discriminate]. Qed.

Lemma deref_normal {A : Type} (p : option A) (a : A) :
  deref p = Normal a -> p = Some a.
Proof. destruct p; simpl; congruence. Qed.

(** Inversion of a run that ended normally. *)
Ltac exec_inv :=
  repeat match goal with
    | H : Undefined = Normal _ |- _ => discriminate H
    | H : Normal _ = Normal _ |- _ => injection H as H; subst
    | H : deref _ = Normal _ |- _ => apply deref_normal in H
    | H : _ ≫= _ = Normal _ |- _ =>
        let a := fresh "r" in
        let E := fresh "E" in
        apply bind_normal in H as (a & E & H)
    | H : (let '(_, _) := ?x in _) = Normal _ |- _ => destruct x eqn:?
    | H : (_, _) = (_, _) |- _ => injection H as ? ?; subst
    end.

(** The chain of [strcmp] tests of a setter, one goal per branch. *)
Ltac key_cases k :=
  repeat match goal with
    | |- context [String.eqb k ?s] =>
        let E := fresh "K" in
        destruct (String.eqb k s) eqn:E;
        [apply String.eqb_eq in E; subst k |]
    end.

(** *** The order of the reals, and [fmin] and [fmax] *)

Lemma SFcompare_key (x y : spec_float) :
  x <> S754_nan -> y <> S754_nan ->
  match SFcompare x y with
  | Some Lt => key_lt (sf_key x) (sf_key y)
  | Some Eq => sf_key x = sf_key y
  | Some Gt => key_lt (sf_key y) (sf_key x)
  | None => False
  end.
Proof.
  intros Hx Hy. unfold key_lt.
  destruct x as [sx | sx | | sx mx ex], y as [sy | sy | | sy my ey];
    try congruence; try destruct sx; try destruct sy; cbn;
    try reflexivity; try lia.
  - destruct (Z.compare_spec ex ey) as [He | He | He]; cbn; try lia.
    change (Pos.compare_cont Eq mx my) with (Pos.compare mx my).
    destruct (Pos.compare_spec mx my) as [Hm | Hm | Hm]; cbn;
      [subst; reflexivity | lia | lia].
  - destruct (Z.compare_spec ex ey) as [He | He | He]; cbn; try lia.
    change (Pos.compare_cont Eq mx my) with (Pos.compare mx my).
    destruct (Pos.compare_spec mx my) as [Hm | Hm | Hm]; cbn;
      [subst; reflexivity | lia | lia].
Qed.

Lemma is_nan_spec (x : float) :
  PrimFloat.is_nan x = false <-> Prim2SF x <> S754_nan.
Proof.
  unfold PrimFloat.is_nan. rewrite FloatAxioms.eqb_spec. unfold SFeqb.
  split.
  - intros H E. rewrite E in H. discriminate H.
  - intros H. pose proof (SFcompare_key _ _ H H) as Hk.
    destruct (SFcompare (Prim2SF x) (Prim2SF x)) as [[| |] |];
      try reflexivity; unfold key_lt in Hk; lia.
Qed.

Lemma leb_key (x y : float) :
  PrimFloat.is_nan x = false -> PrimFloat.is_nan y = false ->
  PrimFloat.leb x y = true <-> key_le (sf_key (Prim2SF x)) (sf_key (Prim2SF y)).
Proof.
  rewrite !is_nan_spec. intros Hx Hy. rewrite leb_spec. unfold SFleb.
  pose proof (SFcompare_key _ _ Hx Hy) as Hk.
  unfold key_le, key_lt in *.
  destruct (SFcompare (Prim2SF x) (Prim2SF y)) as [[| |] |];
    split; intros H; try reflexivity; try discriminate H; try lia;
    try (rewrite Hk; lia); try (destruct Hk).
Qed.

Lemma ltb_key (x y : float) :
  PrimFloat.is_nan x = false -> PrimFloat.is_nan y = false ->
  PrimFloat.ltb x y = true <-> key_lt (sf_key (Prim2SF x)) (sf_key (Prim2SF y)).
Proof.
  rewrite !is_nan_spec. intros Hx Hy. rewrite ltb_spec. unfold SFltb.
  pose proof (SFcompare_key _ _ Hx Hy) as Hk.
  unfold key_lt in *.
  destruct (SFcompare (Prim2SF x) (Prim2SF y)) as [[| |] |];
    split; intros H; try reflexivity; try discriminate H; try lia;
    try (rewrite Hk in H; lia); try (destruct Hk).
Qed.

Lemma leb_not_nan (x y : float) :
  PrimFloat.leb x y = true ->
  PrimFloat.is_nan x = false /\ PrimFloat.is_nan y = false.
Proof.
  rewrite leb_spec, !is_nan_spec. unfold SFleb. intros H.
  split; intros E; rewrite E in H;
    [| destruct (Prim2SF x) as [| | |]]; discriminate H.
Qed.

Lemma leb_refl (x : float) :
  PrimFloat.is_nan x = false -> PrimFloat.leb x x = true.
Proof. intros H. apply leb_key; [exact H | exact H |]. unfold key_le. lia. Qed.

Lemma leb_trans (x y z : float) :
  PrimFloat.leb x y = true -> PrimFloat.leb y z = true ->
  PrimFloat.leb x z = true.
Proof.
  intros Hxy Hyz.
  destruct (leb_not_nan _ _ Hxy) as [Hx Hy].
  destruct (leb_not_nan _ _ Hyz) as [_ Hz].
  apply leb_key in Hxy; [| assumption ..].
  apply leb_key in Hyz; [| assumption ..].
  apply leb_key; [assumption .. |]. unfold key_le in *. lia.
Qed.

Lemma ltb_leb (x y : float) :
  PrimFloat.ltb x y = true -> PrimFloat.leb x y = true.
Proof.
  rewrite ltb_spec, leb_spec. unfold SFltb, SFleb.
  destruct (SFcompare _ _) as [[| |] |]; congruence.
Qed.

Lemma not_ltb_leb (x y : float) :
  PrimFloat.is_nan x = false -> PrimFloat.is_nan y = false ->
  PrimFloat.ltb y x = false -> PrimFloat.leb x y = true.
Proof.
  intros Hx Hy H. apply leb_key; [assumption .. |].
  destruct (PrimFloat.ltb y x) eqn:E; [discriminate |].
  assert (Hn : ~ key_lt (sf_key (Prim2SF y)) (sf_key (Prim2SF x))).
  { intros Hk. apply ltb_key in Hk; [congruence | assumption ..]. }
  unfold key_le, key_lt in *. lia.
Qed.

Lemma smallest_of_one (a : float) : smallest_of [a] a.
Proof.
  unfold smallest_of. destruct (PrimFloat.is_nan a) eqn:Ha.
  - left. split; [reflexivity |]. intros x Hx.
    apply list_elem_of_singleton in Hx. subst. exact Ha.
  - right. split; [reflexivity |]. split; [apply list_elem_of_here |].
    intros x Hx _. apply list_elem_of_singleton in Hx. subst.
    apply leb_refl. exact Ha.
Qed.

Lemma fmin_smallest (l : list float) (m c : float) :
  smallest_of l m -> smallest_of (l ++ [c]) (fmin m c).
Proof.
  unfold smallest_of, fmin. intros [[Hm Hl] | (Hm & Hin & Hl)]; rewrite Hm.
  - destruct (PrimFloat.is_nan c) eqn:Hc.
    + left. split; [reflexivity |]. intros x Hx.
      apply elem_of_app in Hx as [Hx | Hx]; [apply Hl, Hx |].
      apply list_elem_of_singleton in Hx. subst. exact Hc.
    + right. split; [reflexivity |].
      split; [apply elem_of_app; right; apply list_elem_of_here |].
      intros x Hx Hn. apply elem_of_app in Hx as [Hx | Hx].
      * rewrite (Hl x Hx) in Hn. discriminate Hn.
      * apply list_elem_of_singleton in Hx. subst. apply leb_refl, Hc.
  - destruct (PrimFloat.is_nan c) eqn:Hc.
    + right. split; [exact Hm |].
      split; [apply elem_of_app; left; exact Hin |].
      intros x Hx Hn. apply elem_of_app in Hx as [Hx | Hx];
        [apply Hl; assumption |].
      apply list_elem_of_singleton in Hx. subst. congruence.
    + destruct (PrimFloat.ltb c m) eqn:Hlt.
      * right. split; [exact Hc |].
        split; [apply elem_of_app; right; apply list_elem_of_here |].
        intros x Hx Hn. apply elem_of_app in Hx as [Hx | Hx].
        -- apply leb_trans with m; [apply ltb_leb, Hlt | apply Hl; assumption].
        -- apply list_elem_of_singleton in Hx. subst. apply leb_refl, Hc.
      * right. split; [exact Hm |].
        split; [apply elem_of_app; left; exact Hin |].
        intros x Hx Hn. apply elem_of_app in Hx as [Hx | Hx];
          [apply Hl; assumption |].
        apply list_elem_of_singleton in Hx. subst.
        apply not_ltb_leb; assumption.
Qed.

Lemma largest_of_one (a : float) : largest_of [a] a.
Proof.
  unfold largest_of. destruct (PrimFloat.is_nan a) eqn:Ha.
  - left. split; [reflexivity |]. intros x Hx.
    apply list_elem_of_singleton in Hx. subst. exact Ha.
  - right. split; [reflexivity |]. split; [apply list_elem_of_here |].
    intros x Hx _. apply list_elem_of_singleton in Hx. subst.
    apply leb_refl. exact Ha.
Qed.

Lemma fmax_largest (l : list float) (m c : float) :
  largest_of l m -> largest_of (c :: l) (fmax m c).
Proof.
  unfold largest_of, fmax. intros [[Hm Hl] | (Hm & Hin & Hl)]; rewrite Hm.
  - destruct (PrimFloat.is_nan c) eqn:Hc.
    + left. split; [reflexivity |]. intros x Hx.
      apply elem_of_cons in Hx as [-> | Hx]; [exact Hc | apply Hl, Hx].
    + right. split; [reflexivity |].
      split; [apply list_elem_of_here |].
      intros x Hx Hn. apply elem_of_cons in Hx as [-> | Hx].
      * apply leb_refl, Hc.
      * rewrite (Hl x Hx) in Hn. discriminate Hn.
  - destruct (PrimFloat.is_nan c) eqn:Hc.
    + right. split; [exact Hm |].
      split; [apply list_elem_of_further; exact Hin |].
      intros x Hx Hn. apply elem_of_cons in Hx as [-> | Hx];
        [congruence | apply Hl; assumption].
    + destruct (PrimFloat.ltb m c) eqn:Hlt.
      * right. split; [exact Hc |].
        split; [apply list_elem_of_here |].
        intros x Hx Hn. apply elem_of_cons in Hx as [-> | Hx].
        -- apply leb_refl, Hc.
        -- apply leb_trans with m; [apply Hl; assumption | apply ltb_leb, Hlt].
      * right. split; [exact Hm |].
        split; [apply list_elem_of_further; exact Hin |].
        intros x Hx Hn. apply elem_of_cons in Hx as [-> | Hx];
          [| apply Hl; assumption].
        apply not_ltb_leb; assumption.
Qed.

(** The tolerance [_init_xtra_transfo_slesp] computes from three
    candidates. *)
Lemma tightened_tolerance (a b c : float) :
  exists m, smallest_of [a; b; c] m /\
    largest_of [1e-14%float; m] (fmax (fmin (fmin a b) c) 1e-14).
Proof.
  exists (fmin (fmin a b) c). split.
  - apply (fmin_smallest [a; b]). apply (fmin_smallest [a]).
    apply smallest_of_one.
  - apply (fmax_largest [_]). apply largest_of_one.
Qed.

Section ParamSaddleResults.

Variable create : Z -> string -> cs_param_sles_t.
Variable copy_from : cs_param_sles_t -> cs_param_sles_t -> cs_param_sles_t.
Variable check_class : cs_param_solver_class_t -> cs_param_solver_class_t.

#[local] Abbreviation saddle_set_solver :=
  (cs_param_saddle_set_solver create copy_from check_class).
#[local] Abbreviation saddle_set_schur_approx :=
  (cs_param_saddle_set_schur_approx create copy_from).
#[local] Abbreviation saddle_set_solver_class :=
  (cs_param_saddle_set_solver_class check_class).
#[local] Abbreviation saddle_copy := (cs_param_saddle_copy create copy_from).

Lemma init_xtra_transfo_normal (p p' : cs_param_saddle_t) :
  _init_xtra_transfo_slesp create copy_from p = Normal p' ->
  exists b x, block11_sles_param p = Some b /\
    p' = with_xtra_sles_param (Some x) p /\
    rtol (sles_cvg_param x)
    = fmax (fmin (fmin (0.1 * rtol (sles_cvg_param b))%float
                       (0.1 * rtol (cvg_param p))%float)
                 (10 * atol (cvg_param p))%float)
           1e-14 /\
    atol (sles_cvg_param x)
    = fmin (atol (cvg_param p)) (atol (sles_cvg_param b)).
Proof.
  unfold _init_xtra_transfo_slesp.
  destruct (block11_sles_param p) as [b |] eqn:Hb.
  - destruct (xtra_sles_param p); simpl;
      (destruct (sles_name b); simpl; [| discriminate]);
      intros [= <-]; exists b; eexists; (split; [reflexivity |]);
      (split; [reflexivity |]); split; reflexivity.
  - destruct (xtra_sles_param p); simpl; discriminate.
Qed.

Lemma init_xtra_transfo_runs (p : cs_param_saddle_t) (b : cs_param_sles_t) :
  block11_sles_param p = Some b -> is_Some (sles_name b) ->
  exists x, _init_xtra_transfo_slesp create copy_from p
            = Normal (with_xtra_sles_param (Some x) p).
Proof.
  intros Hb [n Hn]. unfold _init_xtra_transfo_slesp. rewrite Hb.
  destruct (xtra_sles_param p); simpl; rewrite Hn; simpl; eauto.
Qed.

Lemma install_context (blk : context_block) (p p' : cs_param_saddle_t)
    (w w' : world) :
  valid_context p w ->
  install blk p w = Normal (p', w') ->
  exists a, p' = with_context (Some a) p /\
    bft_heap w !! a = None /\
    bft_heap w' !! a = Some blk /\
    sles_epzero w' = sles_epzero w /\
    (forall old, context p = Some old -> bft_heap w' !! old = None).
Proof.
  intros Hv. unfold install, BFT_MALLOC, replace_context. cbn [fst snd].
  set (a := fresh (dom (bft_heap w))).
  assert (Ha : bft_heap w !! a = None).
  { apply not_elem_of_dom. apply is_fresh. }
  destruct (context p) as [old |] eqn:Hc; simpl.
  - destruct (Hv old Hc) as [b0 Hold].
    assert (Hne : a <> old) by congruence.
    unfold BFT_FREE; simpl. rewrite lookup_insert_ne by exact Hne.
    rewrite Hold; simpl. intros [= <- <-]. exists a; simpl.
    repeat split; try done.
    + rewrite lookup_delete_ne by congruence. apply lookup_insert_eq.
    + intros o [= <-]. apply lookup_delete_eq.
  - intros [= <- <-]. exists a; simpl. repeat split; try done.
    apply lookup_insert_eq.
Qed.

Lemma install_context_runs (blk : context_block) (p : cs_param_saddle_t)
    (w : world) :
  valid_context p w -> exists r, install blk p w = Normal r.
Proof.
  intros Hv. unfold install, BFT_MALLOC, replace_context. cbn [fst snd].
  set (a := fresh (dom (bft_heap w))).
  assert (Ha : bft_heap w !! a = None).
  { apply not_elem_of_dom. apply is_fresh. }
  destruct (context p) as [old |] eqn:Hc; simpl; [| eauto].
  destruct (Hv old Hc) as [b0 Hold].
  unfold BFT_FREE; simpl.
  rewrite lookup_insert_ne by congruence. rewrite Hold; simpl. eauto.
Qed.

Lemma malloc_then_replace {A : Type} (blk : context_block)
    (p : cs_param_saddle_t) (w : world)
    (k : cs_param_saddle_t * world -> exec A) :
  (let '(ctxp, w1) := BFT_MALLOC blk w in replace_context ctxp p w1 ≫= k)
  = install blk p w ≫= k.
Proof. unfold install. destruct (BFT_MALLOC blk w); reflexivity. Qed.

Lemma replace_context_normal (a : addr) (p p' : cs_param_saddle_t)
    (w w' : world) :
  replace_context a p w = Normal (p', w') -> p' = with_context (Some a) p.
Proof. unfold replace_context. intros H. exec_inv. reflexivity. Qed.

(** C1: with a (1,1)-block record attached, [set_solver] with key "alu"
    or "gkb" can only end with code 0, preconditioner NONE, Schur
    approximation NONE and an extra SLES record whose relative tolerance
    is the largest of 1e-14 and the smallest of 0.1*b11.rtol,
    0.1*saddle.rtol and 10*saddle.atol, and whose absolute tolerance is
    the smallest of saddle.atol and b11.atol; and the call does end so
    when the (1,1)-block record has a name and the context pointer is
    sound. *)
Theorem set_solver_alu_gkb_settings (keyval : string) (p : cs_param_saddle_t)
    (b11 : cs_param_sles_t) (w : world) :
  keyval = "alu" \/ keyval = "gkb" ->
  block11_sles_param p = Some b11 ->
  (is_Some (sles_name b11) -> valid_context p w ->
   exists p' w',
     saddle_set_solver (Some keyval) (Some p) w = Normal (0, Some p', w'))
  /\
  (forall ierr sp' w',
     saddle_set_solver (Some keyval) (Some p) w = Normal (ierr, sp', w') ->
     ierr = 0 /\
     exists p' x,
       sp' = Some p' /\
       precond p' = CS_PARAM_SADDLE_PRECOND_NONE /\
       schur_approx p' = CS_PARAM_SADDLE_SCHUR_NONE /\
       xtra_sles_param p' = Some x /\
       (exists m,
          smallest_of [(0.1 * rtol (sles_cvg_param b11))%float;
                       (0.1 * rtol (cvg_param p))%float;
                       (10 * atol (cvg_param p))%float] m /\
          largest_of [1e-14%float; m] (rtol (sles_cvg_param x))) /\
       smallest_of [atol (cvg_param p); atol (sles_cvg_param b11)]
         (atol (sles_cvg_param x))).
Proof.
  intros Hk Hb. split.
  - intros Hn Hv.
    destruct Hk as [-> | ->]; unfold cs_param_saddle_set_solver;
      cbn [String.eqb Ascii.eqb Bool.eqb];
      match goal with
      | |- context [_init_xtra_transfo_slesp _ _ ?q] =>
          destruct (init_xtra_transfo_runs q b11 Hb Hn) as [x ->]
      end; cbn [mbind exec_bind]; rewrite malloc_then_replace;
      match goal with
      | |- context [install ?blk ?q w] =>
          destruct (install_context_runs blk q w Hv) as [[p' w'] ->]
      end; simpl; eauto.
  - intros ierr sp' w'.
    destruct Hk as [-> | ->]; unfold cs_param_saddle_set_solver;
      cbn [String.eqb Ascii.eqb Bool.eqb]; intros H;
      apply bind_normal in H as (p1 & H1 & H);
      rewrite malloc_then_replace in H;
      apply bind_normal in H as ([p2 w2] & H2 & H);
      injection H as <- <- <-;
      apply init_xtra_transfo_normal in H1 as (b & x & Hb' & -> & Hr & Ha);
      cbn in Hb'; rewrite Hb in Hb'; injection Hb' as <-;
      apply replace_context_normal in H2; subst p2;
      (split; [reflexivity |]); eexists; exists x;
      (split; [reflexivity |]); (split; [reflexivity |]);
      (split; [reflexivity |]); (split; [reflexivity |]);
      rewrite Hr, Ha;
      (split;
       [ apply tightened_tolerance
       | apply (fmin_smallest [_]); apply smallest_of_one ]).
Qed.

Lemma install_epzero (blk : context_block) (p p' : cs_param_saddle_t)
    (w w' : world) :
  install blk p w = Normal (p', w') ->
  p' = with_context (Some (BFT_MALLOC blk w).1) p /\
  sles_epzero w' = sles_epzero w.
Proof.
  unfold install, replace_context, BFT_MALLOC. cbn [fst snd].
  destruct (context p) as [old |]; cbn [mbind exec_bind].
  - unfold BFT_FREE. cbn [bft_heap sles_epzero].
    destruct (_ !! old); cbn [mbind exec_bind]; [| discriminate].
    intros [= <- <-]. split; reflexivity.
  - intros [= <- <-]. split; reflexivity.
Qed.

(** What a call of [cs_param_saddle_set_solver] on a record can end
    with: a refusal of the key, a missing backend, the switch of the
    global threshold for Uzawa-CG, a plain change of kind, or a change
    of kind with a new context. *)
Inductive set_solver_outcome (k : string) (p : cs_param_saddle_t) (w : world)
  : Z -> option cs_param_saddle_t -> world -> Prop :=
| Outcome_unknown_key :
    k ∉ solver_keys ->
    set_solver_outcome k p w 1 (Some p) w
| Outcome_no_petsc :
    k = "fgmres" ->
    check_class CS_PARAM_SOLVER_CLASS_PETSC <> CS_PARAM_SOLVER_CLASS_PETSC ->
    set_solver_outcome k p w 2
      (Some (with_solver_class CS_PARAM_SOLVER_CLASS_PETSC
               (with_solver CS_PARAM_SADDLE_SOLVER_FGMRES p))) w
| Outcome_no_mumps :
    k = "mumps" ->
    check_class CS_PARAM_SOLVER_CLASS_MUMPS = CS_PARAM_N_SOLVER_CLASSES ->
    set_solver_outcome k p w 3
      (Some (with_solver_class CS_PARAM_SOLVER_CLASS_MUMPS
               (with_solver CS_PARAM_SADDLE_SOLVER_MUMPS p))) w
| Outcome_uzawa_cg :
    k = "uzawa_cg" ->
    set_solver_outcome k p w 0
      (Some (with_solver_class CS_PARAM_SOLVER_CLASS_CS
               (with_solver CS_PARAM_SADDLE_SOLVER_UZAWA_CG p)))
      (cs_sles_set_epzero 1e-15 w)
| Outcome_plain (p' : cs_param_saddle_t) :
    k ∈ ["none"; "minres"; "mumps"] ->
    solver_of_key k = Some (solver p') ->
    default_context (solver p') = None ->
    context p' = context p ->
    set_solver_outcome k p w 0 (Some p') w
| Outcome_context (p1 p' : cs_param_saddle_t) (blk : context_block)
    (w' : world) :
    k ∈ ["alu"; "fgmres"; "gcr"; "gkb"; "notay"] ->
    solver_of_key k = Some (solver p1) ->
    context p1 = context p ->
    default_context (solver p1) = Some blk ->
    install blk p1 w = Normal (p', w') ->
    set_solver_outcome k p w 0 (Some p') w'.

Lemma set_solver_inv (k : string) (p : cs_param_saddle_t) (w : world)
    (ierr : Z) (sp' : option cs_param_saddle_t) (w' : world) :
  saddle_set_solver (Some k) (Some p) w = Normal (ierr, sp', w') ->
  set_solver_outcome k p w ierr sp' w'.
Proof.
  unfold cs_param_saddle_set_solver. key_cases k;
    cbn [String.eqb Ascii.eqb Bool.eqb]; intros H.
  - injection H as <- <- <-.
    apply Outcome_plain; [set_solver | reflexivity ..].
  - apply bind_normal in H as (p1 & H1 & H).
    rewrite malloc_then_replace in H.
    apply bind_normal in H as ([p2 w2] & H2 & H). injection H as <- <- <-.
    apply init_xtra_transfo_normal in H1 as (b & x & _ & -> & _).
    eapply Outcome_context; [set_solver | | | | exact H2]; reflexivity.
  - destruct (decide _) as [Hc | Hc].
    + injection H as <- <- <-. apply Outcome_no_petsc; [reflexivity | exact Hc].
    + rewrite malloc_then_replace in H.
      apply bind_normal in H as ([p2 w2] & H2 & H). injection H as <- <- <-.
      eapply Outcome_context; [set_solver | | | | exact H2]; reflexivity.
  - rewrite malloc_then_replace in H.
    apply bind_normal in H as ([p2 w2] & H2 & H). injection H as <- <- <-.
    eapply Outcome_context; [set_solver | | | | exact H2]; reflexivity.
  - apply bind_normal in H as (p1 & H1 & H).
    rewrite malloc_then_replace in H.
    apply bind_normal in H as ([p2 w2] & H2 & H). injection H as <- <- <-.
    apply init_xtra_transfo_normal in H1 as (b & x & _ & -> & _).
    eapply Outcome_context; [set_solver | | | | exact H2]; reflexivity.
  - injection H as <- <- <-.
    apply Outcome_plain; [set_solver | reflexivity ..].
  - destruct (decide _) as [Hc | Hc]; injection H as <- <- <-.
    + apply Outcome_no_mumps; [reflexivity | exact Hc].
    + apply Outcome_plain; [set_solver | reflexivity ..].
  - rewrite malloc_then_replace in H.
    apply bind_normal in H as ([p2 w2] & H2 & H). injection H as <- <- <-.
    eapply Outcome_context; [set_solver | | | | exact H2]; reflexivity.
  - injection H as <- <- <-. apply Outcome_uzawa_cg. reflexivity.
  - injection H as <- <- <-. apply Outcome_unknown_key.
    unfold solver_keys. rewrite !not_elem_of_cons.
    repeat match goal with
      | K : String.eqb _ _ = false |- _ => apply String.eqb_neq in K
      end.
    repeat split; try assumption. apply not_elem_of_nil.
Qed.

Lemma set_solver_context_step (k : string) (p p' : cs_param_saddle_t)
    (w w' : world) :
  valid_context p w ->
  saddle_set_solver (Some k) (Some p) w = Normal (0, Some p', w') ->
  valid_context p' w' /\
  solver_of_key k = Some (solver p') /\
  match default_context (solver p') with
  | Some blk =>
      exists a, context p' = Some a /\
        bft_heap w !! a = None /\
        bft_heap w' !! a = Some blk /\
        (forall old, context p = Some old -> bft_heap w' !! old = None)
  | None => context p' = context p /\ bft_heap w' = bft_heap w
  end.
Proof.
  intros Hv H. apply set_solver_inv in H. inversion H; subst.
  - split; [exact Hv |]. split; [reflexivity |]. cbn. split; reflexivity.
  - match goal with
    | Hc : @eq (option addr) _ (context p) |- _ =>
        split; [unfold valid_context; rewrite Hc; exact Hv |]
    end.
    split; [assumption |].
    match goal with
    | Hd : default_context _ = None |- _ => rewrite Hd
    end.
    split; [assumption | reflexivity].
  - match goal with
    | Hi : install _ ?q _ = Normal _,
      Hc : @eq (option addr) _ (context p) |- _ =>
        apply install_context in Hi as (a & -> & Hf & Ha & _ & Ho);
        [| unfold valid_context; rewrite Hc; exact Hv];
        rewrite Hc in Ho
    end.
    cbn [solver context with_context].
    split.
    { intros a' [= <-]. rewrite Ha. eauto. }
    split; [assumption |].
    match goal with
    | Hd : default_context _ = Some _ |- _ => rewrite Hd
    end.
    exists a. repeat split; assumption.
Qed.

Lemma default_context_matches (s : cs_param_saddle_solver_t)
    (blk : context_block) :
  default_context s = Some blk -> context_matches s (Some blk).
Proof. destruct s; intros [= <-]; exact I. Qed.

(** C2 (as amended): after two calls of [set_solver] that both return 0,
    the second one with a key of a kind that owns context scalars (alu,
    fgmres, gcr, gkb, notay), the context is a live block of the variant
    of that kind with its default scalars, and the block the record
    referred to before the second call has been released; with a key of
    a kind without context scalars (none, minres, mumps, uzawa_cg) the
    second call leaves the context pointer and the blocks as they were. *)
Theorem set_solver_twice_context (k k' : string) (p p1 : cs_param_saddle_t)
    (w w1 w2 : world) (sp2 : option cs_param_saddle_t) :
  valid_context p w ->
  saddle_set_solver (Some k) (Some p) w = Normal (0, Some p1, w1) ->
  saddle_set_solver (Some k') (Some p1) w1 = Normal (0, sp2, w2) ->
  exists p2, sp2 = Some p2 /\
    solver_of_key k' = Some (solver p2) /\
    match default_context (solver p2) with
    | Some blk =>
        context_block_of p2 w2 = Some blk /\
        context_matches (solver p2) (context_block_of p2 w2) /\
        (forall old, context p1 = Some old -> bft_heap w2 !! old = None)
    | None => context p2 = context p1 /\ bft_heap w2 = bft_heap w1
    end.
Proof.
  intros Hv H1 H2.
  apply set_solver_context_step in H1 as (Hv1 & _ & _); [| exact Hv].
  assert (exists p2, sp2 = Some p2) as [p2 ->].
  { apply set_solver_inv in H2. inversion H2; eauto. }
  exists p2. split; [reflexivity |].
  apply set_solver_context_step in H2 as (_ & Hs & H2); [| exact Hv1].
  split; [exact Hs |].
  pose proof (default_context_matches (solver p2)) as Hm.
  destruct (default_context (solver p2)) as [blk |]; [| exact H2].
  specialize (Hm blk eq_refl).
  destruct H2 as (a & Hc & _ & Ha & Ho).
  assert (Hb : context_block_of p2 w2 = Some blk).
  { unfold context_block_of. rewrite Hc. exact Ha. }
  rewrite Hb. repeat split; assumption.
Qed.






(** C9 (as amended): no setter rejects a triangular preconditioner for
    MINRES.  [set_precond] with key "lower" or "upper" returns 0 and
    assigns the preconditioner whatever the solver is, and [set_solver]
    with key "minres" returns 0 and leaves the preconditioner as it is:
    in either order of the two calls the record ends with solver MINRES
    and preconditioner LOWER or UPPER. *)
Theorem minres_accepts_triangular_precond (k : string)
    (p : cs_param_saddle_t) (w : world) :
  k = "lower" \/ k = "upper" ->
  (exists p1 p2,
     saddle_set_solver (Some "minres") (Some p) w = Normal (0, Some p1, w) /\
     cs_param_saddle_set_precond (Some k) (Some p1) = (0, Some p2) /\
     solver p2 = CS_PARAM_SADDLE_SOLVER_MINRES /\
     precond p2 = triangular_precond k)
  /\
  (exists p1 p2,
     cs_param_saddle_set_precond (Some k) (Some p) = (0, Some p1) /\
     saddle_set_solver (Some "minres") (Some p1) w = Normal (0, Some p2, w) /\
     solver p2 = CS_PARAM_SADDLE_SOLVER_MINRES /\
     precond p2 = triangular_precond k).
Proof.
  intros [-> | ->]; split; do 2 eexists; repeat split.
Qed.

Lemma init_schur_normal (p p' : cs_param_saddle_t) :
  _init_schur_slesp create p = Normal p' ->
  exists s, p' = with_schur_sles_param (Some s) p /\
    sles_solver s = CS_PARAM_SOLVER_FCG /\
    sles_precond s = CS_PARAM_PRECOND_AMG /\
    sles_amg_type s = CS_PARAM_AMG_INHOUSE_K /\
    rtol (sles_cvg_param s) = 1e-4%float.
Proof.
  unfold _init_schur_slesp. intros H.
  apply bind_normal in H as (n & _ & H). injection H as <-.
  destruct (schur_sles_param p); eexists; repeat split.
Qed.

Lemma init_xtra_normal (p p' : cs_param_saddle_t) :
  _init_xtra_slesp create copy_from p = Normal p' ->
  exists x, p' = with_xtra_sles_param (Some x) p /\
    rtol (sles_cvg_param x) = 1e-3%float /\
    n_max_iter (sles_cvg_param x) = 50.
Proof.
  unfold _init_xtra_slesp. intros H.
  apply bind_normal in H as (n & _ & H).
  apply bind_normal in H as (b & _ & H). injection H as <-.
  destruct (xtra_sles_param p); eexists; repeat split.
Qed.

Lemma init_schur_runs (p : cs_param_saddle_t) :
  is_Some (cs_param_saddle_get_name (Some p)) ->
  exists p', _init_schur_slesp create p = Normal p' /\
    name p' = name p /\ block11_sles_param p' = block11_sles_param p.
Proof.
  intros [n Hn]. unfold _init_schur_slesp.
  assert (Hn' : forall q,
             cs_param_saddle_get_name (Some (with_schur_sles_param q p))
             = Some n) by (intros; exact Hn).
  destruct (schur_sles_param p); rewrite ?Hn', ?Hn;
    cbn [deref mbind exec_bind]; eexists; repeat split.
Qed.

Lemma init_xtra_runs (p : cs_param_saddle_t) :
  is_Some (cs_param_saddle_get_name (Some p)) ->
  is_Some (block11_sles_param p) ->
  exists p', _init_xtra_slesp create copy_from p = Normal p'.
Proof.
  intros [n Hn] [b Hb]. unfold _init_xtra_slesp.
  assert (Hn' : forall q,
             cs_param_saddle_get_name (Some (with_xtra_sles_param q p))
             = Some n) by (intros; exact Hn).
  destruct (xtra_sles_param p); rewrite ?Hn', ?Hn, Hb;
    cbn [deref mbind exec_bind]; eexists; reflexivity.
Qed.

(** C4: [set_schur_approx] with a key that calls for a nested solve
    (diag_inv, lumped_inv and their mass-scaled forms) can only end with
    code 0 and a Schur SLES record with solver FCG, preconditioner AMG
    and relative tolerance 1e-4, and, for the two lumped forms, an extra
    SLES record with relative tolerance 1e-3 and at most 50 iterations;
    and the call does end so when the record has a name to build on and
    a (1,1)-block record attached. *)
Theorem set_schur_approx_nested_sles (keyval : string)
    (p : cs_param_saddle_t) :
  keyval ∈ schur_solve_keys ->
  (is_Some (cs_param_saddle_get_name (Some p)) ->
   is_Some (block11_sles_param p) ->
   exists p', saddle_set_schur_approx (Some keyval) (Some p)
              = Normal (0, Some p'))
  /\
  (forall ierr sp',
     saddle_set_schur_approx (Some keyval) (Some p) = Normal (ierr, sp') ->
     ierr = 0 /\
     exists p' s,
       sp' = Some p' /\
       schur_sles_param p' = Some s /\
       sles_solver s = CS_PARAM_SOLVER_FCG /\
       sles_precond s = CS_PARAM_PRECOND_AMG /\
       rtol (sles_cvg_param s) = 1e-4%float /\
       (keyval ∈ lumped_keys ->
        exists x, xtra_sles_param p' = Some x /\
          rtol (sles_cvg_param x) = 1e-3%float /\
          n_max_iter (sles_cvg_param x) = 50)).
Proof.
  intros Hk. unfold schur_solve_keys in Hk.
  rewrite !elem_of_cons in Hk.
  split.
  - intros Hn Hb.
    assert (Hn' : forall a,
               is_Some (cs_param_saddle_get_name
                          (Some (with_schur_approx a p))))
      by (intros; exact Hn).
    assert (Hb' : forall a,
               is_Some (block11_sles_param (with_schur_approx a p)))
      by (intros; exact Hb).
    destruct Hk as [-> | [-> | [-> | [-> | Hk]]]];
      [ | | | | apply elem_of_nil in Hk; destruct Hk];
      unfold cs_param_saddle_set_schur_approx;
      cbn [String.eqb Ascii.eqb Bool.eqb orb];
      match goal with
      | |- context [_init_schur_slesp _ ?q] =>
          destruct (init_schur_runs q (Hn' _)) as (p1 & -> & Hn1 & Hb1)
      end; cbn [mbind exec_bind]; eauto;
      (destruct (init_xtra_runs p1) as (p2 & ->);
       [ unfold cs_param_saddle_get_name; rewrite Hn1, Hb1; exact (Hn' _)
       | rewrite Hb1; exact (Hb' _)
       | cbn [mbind exec_bind]; eauto ]).
  - intros ierr sp'.
    destruct Hk as [-> | [-> | [-> | [-> | Hk]]]];
      [ | | | | apply elem_of_nil in Hk; destruct Hk];
      unfold cs_param_saddle_set_schur_approx;
      cbn [String.eqb Ascii.eqb Bool.eqb orb]; intros H;
      apply bind_normal in H as (p1 & H1 & H);
      apply init_schur_normal in H1 as (s & -> & Hs & Hp & _ & Hr);
      try (apply bind_normal in H as (p2 & H2 & H);
           apply init_xtra_normal in H2 as (x & -> & Hxr & Hxn));
      injection H as <- <-; (split; [reflexivity |]);
      eexists; exists s; (repeat split; try assumption);
      unfold lumped_keys; rewrite !elem_of_cons;
      intros [Hl | [Hl | Hl]];
      try discriminate Hl; try (apply elem_of_nil in Hl; destruct Hl);
      exists x; repeat split; assumption.
Qed.

Lemma cvg_param_eta (c : cs_param_convergence_t) :
  mk_cvg (n_max_iter c) (atol c) (rtol c) (dtol c) = c.
Proof. destruct c; reflexivity. Qed.

Lemma try_init_schur_normal (p : cs_param_saddle_t)
    (sp' : option cs_param_saddle_t) :
  cs_param_saddle_try_init_schur_sles_param create (Some p) = Normal sp' ->
  exists s, sp' = Some (with_schur_sles_param (Some s) p).
Proof.
  unfold cs_param_saddle_try_init_schur_sles_param.
  destruct (schur_sles_param p) as [s |] eqn:Hs.
  - intros [= <-]. exists s. destruct p; cbn in Hs; subst; reflexivity.
  - intros H. apply bind_normal in H as (p1 & H1 & H). injection H as <-.
    apply init_schur_normal in H1 as (s & -> & _). eauto.
Qed.

Lemma try_init_xtra_normal (p : cs_param_saddle_t)
    (sp' : option cs_param_saddle_t) :
  cs_param_saddle_try_init_xtra_sles_param create copy_from (Some p)
  = Normal sp' ->
  exists x, sp' = Some (with_xtra_sles_param (Some x) p).
Proof.
  unfold cs_param_saddle_try_init_xtra_sles_param.
  destruct (xtra_sles_param p) as [x |] eqn:Hx.
  - intros [= <-]. exists x. destruct p; cbn in Hx; subst; reflexivity.
  - intros H. apply bind_normal in H as (p1 & H1 & H). injection H as <-.
    apply init_xtra_normal in H1 as (x & -> & _). eauto.
Qed.

(** One copy: what is transferred from [ref], member by member. *)
Lemma saddle_copy_normal (ref dest dest' : cs_param_saddle_t) :
  saddle_copy (Some ref) (Some dest) = Normal (Some dest') ->
  solver dest' = solver ref /\
  solver_class dest' = solver_class ref /\
  precond dest' = precond ref /\
  schur_approx dest' = schur_approx ref /\
  cvg_param dest' = cvg_param ref /\
  block11_sles_param dest' = block11_sles_param ref /\
  verbosity dest' = verbosity dest /\
  context dest' = context dest /\
  match schur_sles_param ref with
  | Some s => exists d, schur_sles_param dest' = Some (copy_from s d)
  | None => schur_sles_param dest' = schur_sles_param dest
  end /\
  match xtra_sles_param ref with
  | Some x => exists d, xtra_sles_param dest' = Some (copy_from x d)
  | None => xtra_sles_param dest' = xtra_sles_param dest
  end.
Proof.
  unfold cs_param_saddle_copy. cbn [deref mbind exec_bind].
  intros H.
  apply bind_normal in H as (d1 & H1 & H).
  apply bind_normal in H as (d2 & H2 & H). injection H as <-.
  assert (Hx : exists n,
             match xtra_sles_param ref with
             | Some x => exists d,
                 d2 = with_xtra_sles_param (Some (copy_from x d))
                        (with_name n d1)
             | None => d2 = d1
             end).
  { destruct (xtra_sles_param ref) as [x |].
    - apply bind_normal in H2 as (o1 & E1 & H2).
      apply bind_normal in H2 as (o2 & E2 & H2).
      apply bind_normal in H2 as (d3 & E3 & H2).
      apply bind_normal in H2 as (dx & E4 & H2). injection H2 as <-.
      apply deref_normal in E3, E4. subst o2.
      assert (exists n, o1 = Some (with_name n d1)) as [n ->].
      { destruct (name d1) eqn:Hn.
        - injection E1 as <-. exists (name d1).
          destruct d1; reflexivity.
        - cbn in E1. injection E1 as <-. eauto. }
      apply try_init_xtra_normal in E2 as (x0 & [= ->]).
      exists n, dx. reflexivity.
    - injection H2 as <-. exists None. reflexivity. }
  assert (Hs : exists n,
             match schur_sles_param ref with
             | Some s => exists d,
                 d1 = with_schur_sles_param (Some (copy_from s d))
                        (with_name n
                           (with_block11_sles_param (block11_sles_param ref)
                              (with_cvg_param
                                 (mk_cvg (n_max_iter (cvg_param ref))
                                    (atol (cvg_param ref))
                                    (rtol (cvg_param ref))
                                    (dtol (cvg_param ref)))
                                 (with_schur_approx (schur_approx ref)
                                    (with_precond (precond ref)
                                       (with_solver (solver ref)
                                          (with_solver_class
                                             (solver_class ref) dest)))))))
             | None =>
                 d1 = with_block11_sles_param (block11_sles_param ref)
                        (with_cvg_param
                           (mk_cvg (n_max_iter (cvg_param ref))
                              (atol (cvg_param ref))
                              (rtol (cvg_param ref))
                              (dtol (cvg_param ref)))
                           (with_schur_approx (schur_approx ref)
                              (with_precond (precond ref)
                                 (with_solver (solver ref)
                                    (with_solver_class
                                       (solver_class ref) dest)))))
             end).
  { destruct (schur_sles_param ref) as [s |].
    - apply bind_normal in H1 as (o1 & E1 & H1).
      apply bind_normal in H1 as (o2 & E2 & H1).
      apply bind_normal in H1 as (d3 & E3 & H1).
      apply bind_normal in H1 as (ds & E4 & H1). injection H1 as <-.
      apply deref_normal in E3, E4. subst o2.
      match type of E1 with
      | match name ?q with _ => _ end = _ =>
          assert (exists n, o1 = Some (with_name n q)) as [n ->];
          [ destruct (name q) eqn:Hn;
            [ injection E1 as <-; exists (name q); reflexivity
            | cbn in E1; injection E1 as <-; eauto ] |]
      end.
      apply try_init_schur_normal in E2 as (s0 & [= ->]).
      exists n, ds. reflexivity.
    - injection H1 as <-. exists None. reflexivity. }
  destruct Hs as [n1 Hs], Hx as [n2 Hx].
  destruct (schur_sles_param ref) as [s |],
           (xtra_sles_param ref) as [x |];
    repeat match goal with
      | H : exists _, _ |- _ => destruct H as [? H]
      end; subst; cbn; repeat split; eauto using cvg_param_eta.
Qed.

(** C8 (as amended): after [copy(p1, p2); copy(p2, p3)], both ending
    normally, [p3] has the solver, solver class, preconditioner, Schur
    approximation, four convergence parameters and (1,1)-block reference
    of [p1]; when [p1] owns a Schur (an extra) SLES record, [p3] owns one
    whose settings come from that of [p1] through two applications of
    [cs_param_sles_copy_from]; the verbosity of [p3] is the one it had. *)
Theorem copy_chain_transfers (p1 p2 p3 p2' p3' : cs_param_saddle_t) :
  saddle_copy (Some p1) (Some p2) = Normal (Some p2') ->
  saddle_copy (Some p2') (Some p3) = Normal (Some p3') ->
  solver p3' = solver p1 /\
  solver_class p3' = solver_class p1 /\
  precond p3' = precond p1 /\
  schur_approx p3' = schur_approx p1 /\
  cvg_param p3' = cvg_param p1 /\
  block11_sles_param p3' = block11_sles_param p1 /\
  (forall s1, schur_sles_param p1 = Some s1 ->
     exists d2 d3,
       schur_sles_param p3' = Some (copy_from (copy_from s1 d2) d3)) /\
  (forall x1, xtra_sles_param p1 = Some x1 ->
     exists d2 d3,
       xtra_sles_param p3' = Some (copy_from (copy_from x1 d2) d3)) /\
  verbosity p3' = verbosity p3.
Proof.
  intros H1 H2.
  apply saddle_copy_normal in H1
    as (A1 & A2 & A3 & A4 & A5 & A6 & _ & _ & A7 & A8).
  apply saddle_copy_normal in H2
    as (B1 & B2 & B3 & B4 & B5 & B6 & B9 & _ & B7 & B8).
  repeat split; try congruence.
  - intros s1 Hs. rewrite Hs in A7. destruct A7 as [d2 A7].
    rewrite A7 in B7. destruct B7 as [d3 B7]. eauto.
  - intros x1 Hx. rewrite Hx in A8. destruct A8 as [d2 A8].
    rewrite A8 in B8. destruct B8 as [d3 B8]. eauto.
Qed.

End ParamSaddleResults.

(** ** Results on [cs_cdofb_monolithic_sles.c] *)

(** A loop whose body runs normally and re-establishes an invariant runs
    normally and ends in the invariant. *)
Lemma for_loop_invariant {S : Type} (body : nat -> S -> exec S)
    (Inv : nat -> S -> Prop) (count start : nat) (s : S) :
  Inv start s ->
  (forall i t, (start <= i < start + count)%nat -> Inv i t ->
     exists t', body i t = Normal t' /\ Inv (Datatypes.S i) t') ->
  exists s', for_loop body start count s = Normal s' /\
    Inv (start + count)%nat s'.
Proof.
  revert start s. induction count as [| n IH]; intros start s H0 Hstep.
  - exists s. rewrite Nat.add_0_r. split; [reflexivity | exact H0].
  - destruct (Hstep start s ltac:(lia) H0) as (t & Hb & Ht).
    destruct (IH (Datatypes.S start) t Ht) as (s' & Hl & Hs').
    { intros i u Hi. apply Hstep. lia. }
    exists s'. cbn [for_loop]. rewrite Hb. cbn [mbind exec_bind].
    split; [exact Hl |]. replace (start + Datatypes.S n)%nat
      with (Datatypes.S start + n)%nat by lia. exact Hs'.
Qed.

Lemma array_get_normal (a : list float) (i : nat) :
  (i < length a)%nat -> array_get a i = Normal (a !!! i).
Proof.
  intros Hi. unfold array_get.
  destruct (lookup_lt_is_Some_2 a i Hi) as [x Hx].
  rewrite Hx. apply list_lookup_total_correct in Hx. rewrite Hx. reflexivity.
Qed.

Lemma array_set_normal (a : list float) (i : nat) (v : float) :
  (i < length a)%nat -> array_set a i v = Normal (<[i := v]> a).
Proof. intros Hi. unfold array_set. case_decide; [reflexivity | lia]. Qed.

Lemma cs_array_real_fill_zero_normal (n : nat) (a : list float) :
  length a = n ->
  cs_array_real_fill_zero n a = Normal (replicate n 0%float).
Proof.
  intros Hn. unfold cs_array_real_fill_zero.
  destruct (for_loop_invariant
              (fun i a => array_set a i 0%float)
              (fun i b => length b = n /\
                 forall j, (j < i)%nat -> b !! j = Some 0%float)
              n 0 a) as (b & -> & Hl & Hb).
  - split; [exact Hn | intros j Hj; lia].
  - intros i t Hi [Hl Ht]. exists (<[i := 0%float]> t).
    split; [apply array_set_normal; lia |].
    split; [rewrite length_insert; exact Hl |].
    intros j Hj. destruct (decide (j = i)) as [-> | Hne].
    + apply list_lookup_insert_eq. lia.
    + rewrite list_lookup_insert_ne by congruence. apply Ht. lia.
  - f_equal. apply list_eq. intros j.
    destruct (decide (j < n)%nat) as [Hj | Hj].
    + rewrite Hb by lia. symmetry. apply lookup_replicate_2. exact Hj.
    + rewrite !lookup_ge_None_2; [reflexivity | |];
        rewrite ?length_replicate; lia.
Qed.

Section MonolithicSlesResults.

Variable CS_TURB_NONE : Z.
Variable CS_NAVSTO_MODEL_STEADY : Z.
Variable cs_property_cell_value : float -> cs_property_t -> nat -> float.
Variable cs_quant_set_face_nvec : nat -> cs_cdo_quantities_t -> cs_nvec3_t.
Variable cs_nvec3 : float * float * float -> cs_nvec3_t.
Variable cs_saddle_solver_sles_full_system : cs_saddle_solver_t -> Z.
Variable cs_saddle_solver_notay : cs_saddle_solver_t -> Z.

(** C3: as written, the guard of the full-system driver stops every run:
    with the solver MUMPS, and with FGMRES as well, the driver ends in the
    fatal "Full system solver is expected" error and never reaches the
    solve; the guard of the Notay driver stops a run exactly when the
    solver is not the Notay transformation. *)
Theorem full_system_guard_always_fatal :
  (forall sv,
     cs_cdofb_monolithic_sles_full_system
       cs_saddle_solver_sles_full_system (Some sv)
     = Fatal ("cs_cdofb_monolithic_sles_full_system: "
              ++ "Full system solver is expected."))
  /\
  (forall sv,
     cs_cdofb_monolithic_sles_notay cs_saddle_solver_notay (Some sv)
     = Fatal ("cs_cdofb_monolithic_sles_notay: "
              ++ "Notay's transformation is expected.")
     <-> solver (param sv) <> CS_PARAM_SADDLE_SOLVER_NOTAY_TRANSFORM).
Proof.
  split; intros sv.
  - unfold cs_cdofb_monolithic_sles_full_system.
    destruct (solver (param sv)); reflexivity.
  - unfold cs_cdofb_monolithic_sles_notay.
    destruct (solver (param sv)); cbn; split; intros H; done.
Qed.

#[local] Abbreviation mu_at :=
  (cell_viscosity CS_TURB_NONE cs_property_cell_value).
#[local] Abbreviation alpha_t := (time_coefficient CS_NAVSTO_MODEL_STEADY).

Lemma eval_at_cells_normal (cdoq : cs_cdo_quantities_t) (t : float)
    (pty : cs_property_t) (a : list float) :
  length a = n_cells cdoq ->
  exists b, cs_property_eval_at_cells cs_property_cell_value cdoq t pty a
            = Normal b /\
    length b = n_cells cdoq /\
    forall j, (j < n_cells cdoq)%nat ->
      b !! j = Some (cs_property_cell_value t pty j).
Proof.
  intros Hn. unfold cs_property_eval_at_cells.
  destruct (for_loop_invariant
              (fun i a => array_set a i (cs_property_cell_value t pty i))
              (fun i b => length b = n_cells cdoq /\
                 forall j, (j < i)%nat ->
                   b !! j = Some (cs_property_cell_value t pty j))
              (n_cells cdoq) 0 a) as (b & Hb & Hl & Hv).
  - split; [exact Hn | intros j Hj; lia].
  - intros i u Hi [Hl Hu].
    exists (<[i := cs_property_cell_value t pty i]> u).
    split; [apply array_set_normal; lia |].
    split; [rewrite length_insert; exact Hl |].
    intros j Hj. destruct (decide (j = i)) as [-> | Hne].
    + apply list_lookup_insert_eq. lia.
    + rewrite list_lookup_insert_ne by congruence. apply Hu. lia.
  - exists b. auto.
Qed.

(** C6: the scaled mass matrix of the pressure space has, for every cell
    [i], the entry [mu_i / V_i], with [mu_i] the reference laminar
    viscosity without turbulence model and the evaluated total viscosity
    otherwise; the Schur scaling returned is [rho0 * alpha_t] with
    [alpha_t = 0.01 * mu_ref] for a steady model and [1/dt] otherwise.
    Hence, for a steady model whose viscosity is [mu] (reference value
    and, with a turbulence model, evaluated value in every cell) and
    whose cells all have volume [V], every entry is [mu / V] and the
    scaling is [rho0 * (0.01 * mu)]. *)
Theorem m22_scaled_diag_mass_matrix (cdoq : cs_cdo_quantities_t)
    (ts : cs_time_step_t) (fresh : float) (nsp : cs_navsto_param_t) :
  (n_cells cdoq <= length (cell_vol cdoq))%nat ->
  exists m22_mass_diag,
    _get_m22_scaled_diag_mass_matrix CS_TURB_NONE CS_NAVSTO_MODEL_STEADY
      cs_property_cell_value cdoq ts fresh nsp
    = Normal (m22_mass_diag,
              (ref_value (mass_density nsp) * alpha_t ts nsp)%float) /\
    length m22_mass_diag = n_cells cdoq /\
    (forall i, (i < n_cells cdoq)%nat ->
       m22_mass_diag !! i
       = Some (mu_at ts nsp i / cell_vol cdoq !!! i)%float) /\
    (forall mu V,
       Z.land (model_flag nsp) CS_NAVSTO_MODEL_STEADY <> 0 ->
       ref_value (lam_viscosity nsp) = mu ->
       (forall i, (i < n_cells cdoq)%nat -> mu_at ts nsp i = mu) ->
       (forall i, (i < n_cells cdoq)%nat -> cell_vol cdoq !! i = Some V) ->
       (forall i, (i < n_cells cdoq)%nat ->
          m22_mass_diag !! i = Some (mu / V)%float) /\
       (ref_value (mass_density nsp) * alpha_t ts nsp
        = ref_value (mass_density nsp) * (0.01 * mu))%float).
Proof.
  intros Hvol.
  set (n := n_cells cdoq) in *.
  assert (Hm : exists m,
             (if decide (iturb (model (turbulence nsp)) = CS_TURB_NONE) then
                let visc_val := ref_value (lam_viscosity nsp) in
                for_loop (fun i m =>
                            vol ← array_get (cell_vol cdoq) i;
                            array_set m i (visc_val / vol)%float)
                         0 n (replicate n fresh)
              else
                m ← cs_property_eval_at_cells cs_property_cell_value cdoq
                      (t_cur ts) (tot_viscosity nsp) (replicate n fresh);
                for_loop (fun i m =>
                            v ← array_get m i;
                            vol ← array_get (cell_vol cdoq) i;
                            array_set m i (v / vol)%float)
                         0 n m) = Normal m /\
             length m = n /\
             forall i, (i < n)%nat ->
               m !! i = Some (mu_at ts nsp i / cell_vol cdoq !!! i)%float).
  { unfold cell_viscosity. case_decide as Ht.
    - destruct (for_loop_invariant
                  (fun i m =>
                     vol ← array_get (cell_vol cdoq) i;
                     array_set m i (ref_value (lam_viscosity nsp) / vol)%float)
                  (fun i b => length b = n /\
                     forall j, (j < i)%nat ->
                       b !! j = Some (ref_value (lam_viscosity nsp)
                                      / cell_vol cdoq !!! j)%float)
                  n 0 (replicate n fresh)) as (b & Hb & Hl & Hv).
      + split; [apply length_replicate | intros j Hj; lia].
      + intros i u Hi [Hl Hu].
        rewrite array_get_normal by lia. cbn [mbind exec_bind].
        rewrite array_set_normal by lia. eexists. split; [reflexivity |].
        split; [rewrite length_insert; exact Hl |].
        intros j Hj. destruct (decide (j = i)) as [-> | Hne].
        * apply list_lookup_insert_eq. lia.
        * rewrite list_lookup_insert_ne by congruence. apply Hu. lia.
      + exists b. auto.
    - destruct (eval_at_cells_normal cdoq (t_cur ts) (tot_viscosity nsp)
                  (replicate n fresh)) as (e & -> & Hel & Hev).
      { apply length_replicate. }
      cbn [mbind exec_bind].
      destruct (for_loop_invariant
                  (fun i m =>
                     v ← array_get m i;
                     vol ← array_get (cell_vol cdoq) i;
                     array_set m i (v / vol)%float)
                  (fun i b => length b = n /\
                     (forall j, (j < i)%nat ->
                        b !! j
                        = Some (cs_property_cell_value (t_cur ts)
                                  (tot_viscosity nsp) j
                                / cell_vol cdoq !!! j)%float) /\
                     (forall j, (i <= j < n)%nat ->
                        b !! j
                        = Some (cs_property_cell_value (t_cur ts)
                                  (tot_viscosity nsp) j)))
                  n 0 e) as (b & Hb & Hl & Hv & _).
      + split; [exact Hel |]. split; [intros j Hj; lia |].
        intros j Hj. apply Hev. lia.
      + intros i u Hi (Hl & Hu & Hr).
        rewrite array_get_normal by lia. cbn [mbind exec_bind].
        rewrite array_get_normal by lia. cbn [mbind exec_bind].
        rewrite array_set_normal by lia. eexists. split; [reflexivity |].
        split; [rewrite length_insert; exact Hl |]. split.
        * intros j Hj. destruct (decide (j = i)) as [-> | Hne].
          -- rewrite list_lookup_insert_eq by lia.
             rewrite (list_lookup_total_correct u i _ (Hr i ltac:(lia))).
             reflexivity.
          -- rewrite list_lookup_insert_ne by congruence. apply Hu. lia.
        * intros j Hj. rewrite list_lookup_insert_ne by lia. apply Hr. lia.
      + exists b. auto. }
  destruct Hm as (m & Hrun & Hl & Hv).
  exists m. split; [| split; [exact Hl | split; [exact Hv |]]].
  - subst n. cbv zeta in Hrun.
    unfold _get_m22_scaled_diag_mass_matrix. cbv zeta. rewrite Hrun.
    reflexivity.
  - intros mu V Hs Hmu Hu HV. split.
    + intros i Hi. rewrite (Hv i Hi), (Hu i Hi).
      rewrite (list_lookup_total_correct _ _ _ (HV i Hi)). reflexivity.
    + unfold time_coefficient. rewrite decide_True by exact Hs.
      rewrite Hmu. reflexivity.
Qed.

Lemma normal_weighted_sum_normal (base : list float) (off : nat)
    (nvf : cs_nvec3_t) :
  (off + 2 < length base)%nat ->
  normal_weighted_sum base off nvf = Normal (weighted_sum base off nvf).
Proof.
  intros Hoff. unfold normal_weighted_sum, weighted_sum, unitv_at.
  destruct (unitv nvf) as [[n0 n1] n2]. cbn [for_loop].
  rewrite Nat.add_0_r.
  rewrite !array_get_normal by lia. reflexivity.
Qed.

Lemma read3_normal (a : list float) (off : nat) :
  (off + 2 < length a)%nat ->
  read3 a off
  = Normal (a !!! off, a !!! (off + 1)%nat, a !!! (off + 2)%nat).
Proof.
  intros Hoff. unfold read3. rewrite !array_get_normal by lia. reflexivity.
Qed.

Lemma diag_interior_S (quant : cs_cdo_quantities_t) (mesh : cs_mesh_t)
    (D : list float) (m c : nat) :
  diag_interior cs_quant_set_face_nvec quant mesh D (Datatypes.S m) c
  = interior_step cs_quant_set_face_nvec quant mesh D c
      (diag_interior cs_quant_set_face_nvec quant mesh D m c) m.
Proof. unfold diag_interior. rewrite seq_S, foldl_app. reflexivity. Qed.

Lemma diag_boundary_S (quant : cs_cdo_quantities_t) (mesh : cs_mesh_t)
    (D : list float) (m c : nat) :
  diag_boundary cs_quant_set_face_nvec cs_nvec3 quant mesh D
    (Datatypes.S m) c
  = boundary_step cs_nvec3 quant mesh D c
      (diag_boundary cs_quant_set_face_nvec cs_nvec3 quant mesh D m c) m.
Proof. unfold diag_boundary. rewrite seq_S, foldl_app. reflexivity. Qed.

Lemma interior_face_step (quant : cs_cdo_quantities_t) (mesh : cs_mesh_t)
    (D : list float) (f_id : nat) (st : list float * list float) :
  schur_inputs_ok quant mesh D ->
  (f_id < n_i_faces mesh)%nat ->
  interior_invariant cs_quant_set_face_nvec quant mesh D f_id st ->
  exists st',
    (let '(diag_smat, xtra_smat) := st in
     let nvf := cs_quant_set_face_nvec f_id quant in
     contrib ← normal_weighted_sum D (3 * f_id) nvf;
     let contrib := (contrib * (- meas nvf * meas nvf))%float in
     xtra_smat ← array_set xtra_smat (2 * f_id + 1) contrib;
     xtra_smat ← array_set xtra_smat (2 * f_id) contrib;
     '(cell_i, cell_j) ← deref (i_face_cells mesh !! f_id);
     d ← array_get diag_smat cell_i;
     diag_smat ← array_set diag_smat cell_i (d - contrib)%float;
     d ← array_get diag_smat cell_j;
     diag_smat ← array_set diag_smat cell_j (d - contrib)%float;
     Normal (diag_smat, xtra_smat)) = Normal st' /\
    interior_invariant cs_quant_set_face_nvec quant mesh D
      (Datatypes.S f_id) st'.
Proof.
  intros Hok Hf. destruct st as [diag xtra].
  intros (Hld & Hlx & Hd & Hx). cbn [fst snd] in *.
  destruct (i_cells_ok _ _ _ Hok f_id Hf) as (ci & cj & Hc & Hci & Hcj).
  pose proof (m11_inv_size _ _ _ Hok) as HD.
  cbv zeta. rewrite normal_weighted_sum_normal by lia.
  cbn [mbind exec_bind].
  fold (interior_contrib cs_quant_set_face_nvec quant D f_id).
  set (contrib := interior_contrib cs_quant_set_face_nvec quant D f_id).
  rewrite array_set_normal by lia. cbn [mbind exec_bind].
  rewrite array_set_normal by (rewrite length_insert; lia).
  cbn [mbind exec_bind]. rewrite Hc. cbn [deref mbind exec_bind].
  rewrite array_get_normal by lia. cbn [mbind exec_bind].
  rewrite array_set_normal by lia. cbn [mbind exec_bind].
  rewrite array_get_normal by (rewrite length_insert; lia).
  cbn [mbind exec_bind].
  rewrite array_set_normal by (rewrite length_insert; lia).
  eexists. split; [reflexivity |].
  unfold interior_invariant. cbn [fst snd].
  rewrite !length_insert. split; [exact Hld |]. split; [exact Hlx |]. split.
  - intros c Hcl. rewrite diag_interior_S. unfold interior_step.
    rewrite (list_lookup_total_correct _ _ _ Hc). fold contrib.
    rewrite (list_lookup_total_correct _ _ _ (Hd ci Hci)).
    destruct (decide (cj = c)) as [-> | Hnj].
    + rewrite list_lookup_insert_eq by (rewrite length_insert; lia).
      f_equal. f_equal.
      destruct (decide (ci = c)) as [-> | Hni].
      * rewrite list_lookup_total_insert_eq by lia. reflexivity.
      * rewrite list_lookup_total_insert_ne by exact Hni.
        apply list_lookup_total_correct, Hd, Hcl.
    + rewrite list_lookup_insert_ne by exact Hnj.
      destruct (decide (ci = c)) as [-> | Hni].
      * rewrite list_lookup_insert_eq by lia. reflexivity.
      * rewrite list_lookup_insert_ne by exact Hni. apply Hd, Hcl.
  - intros f Hfl. destruct (decide (f = f_id)) as [-> | Hne].
    + split.
      * rewrite list_lookup_insert_eq by (rewrite length_insert; lia).
        reflexivity.
      * rewrite list_lookup_insert_ne by lia.
        rewrite list_lookup_insert_eq by lia. reflexivity.
    + rewrite !list_lookup_insert_ne by lia. apply Hx. lia.
Qed.

Lemma boundary_face_step (quant : cs_cdo_quantities_t) (mesh : cs_mesh_t)
    (D : list float) (f_id : nat) (diag : list float) :
  schur_inputs_ok quant mesh D ->
  (f_id < n_b_faces mesh)%nat ->
  boundary_invariant cs_quant_set_face_nvec cs_nvec3 quant mesh D f_id diag ->
  exists diag',
    (v ← read3 (b_face_normal quant) (3 * f_id);
     let nvf := cs_nvec3 v in
     contrib ← normal_weighted_sum D (3 * n_i_faces mesh + 3 * f_id) nvf;
     let contrib := (contrib * (meas nvf * meas nvf))%float in
     c ← deref (b_face_cells mesh !! f_id);
     d ← array_get diag c;
     array_set diag c (d + contrib)%float) = Normal diag' /\
    boundary_invariant cs_quant_set_face_nvec cs_nvec3 quant mesh D
      (Datatypes.S f_id) diag'.
Proof.
  intros Hok Hf (Hld & Hd).
  destruct (b_cells_ok _ _ _ Hok f_id Hf) as (cb & Hc & Hcb).
  pose proof (m11_inv_size _ _ _ Hok) as HD.
  pose proof (b_normal_size _ _ _ Hok) as HN.
  rewrite read3_normal by lia. cbn [mbind exec_bind]. cbv zeta.
  rewrite normal_weighted_sum_normal by lia. cbn [mbind exec_bind].
  fold (boundary_contrib cs_nvec3 quant mesh D f_id).
  set (contrib := boundary_contrib cs_nvec3 quant mesh D f_id).
  rewrite Hc. cbn [deref mbind exec_bind].
  rewrite array_get_normal by lia. cbn [mbind exec_bind].
  rewrite array_set_normal by lia.
  eexists. split; [reflexivity |].
  unfold boundary_invariant. rewrite length_insert. split; [exact Hld |].
  intros c Hcl. rewrite diag_boundary_S. unfold boundary_step.
  rewrite (list_lookup_total_correct _ _ _ Hc). fold contrib.
  destruct (decide (cb = c)) as [-> | Hne].
  - rewrite list_lookup_insert_eq by lia.
    rewrite (list_lookup_total_correct _ _ _ (Hd c Hcl)). reflexivity.
  - rewrite list_lookup_insert_ne by exact Hne. apply Hd, Hcl.
Qed.

(** C5: with a mesh and arrays large enough for the two loops, the
    function returns a diagonal array of [n_cells_with_ghosts] entries
    and an extra-diagonal array of [2 * n_i_faces] entries such that
    - both slots [2f] and [2f + 1] of an interior face [f] hold
      [-A^2 * sum_k D[3f + k] * n_k^2];
    - the diagonal entry of a cell is what is obtained from zero by
      subtracting that value once for each side of an interior face on
      which the cell lies, then adding
      [+A^2 * sum_k D[3 n_i_faces + 3f + k] * n_k^2] for each boundary
      face [f] of the cell, faces taken in increasing order. *)
Theorem schur_matrix_from_m11_inv_approx_entries
    (quant : cs_cdo_quantities_t) (mesh : cs_mesh_t) (fresh : float)
    (mat_class : cs_param_solver_class_t) (D : list float) :
  schur_inputs_ok quant mesh D ->
  exists diag_smat xtra_smat,
    _schur_matrix_from_m11_inv_approx cs_quant_set_face_nvec cs_nvec3
      quant mesh fresh mat_class D
    = Normal (diag_smat, xtra_smat) /\
    length diag_smat = n_cells_with_ghosts mesh /\
    length xtra_smat = (2 * n_i_faces mesh)%nat /\
    (forall f, (f < n_i_faces mesh)%nat ->
       let nvf := cs_quant_set_face_nvec f quant in
       let contrib :=
         (weighted_sum D (3 * f) nvf * (- meas nvf * meas nvf))%float in
       xtra_smat !! (2 * f)%nat = Some contrib /\
       xtra_smat !! (2 * f + 1)%nat = Some contrib) /\
    (forall c, (c < n_cells_with_ghosts mesh)%nat ->
       diag_smat !! c
       = Some (foldl (boundary_step cs_nvec3 quant mesh D c)
                 (foldl (interior_step cs_quant_set_face_nvec quant mesh D c)
                    0%float (seq 0 (n_i_faces mesh)))
                 (seq 0 (n_b_faces mesh)))).
Proof.
  intros Hok. unfold _schur_matrix_from_m11_inv_approx. cbv zeta.
  rewrite !cs_array_real_fill_zero_normal by apply length_replicate.
  cbn [mbind exec_bind].
  match goal with
  | |- context [for_loop ?body 0 (n_i_faces mesh) ?s] =>
      destruct (for_loop_invariant body
                  (interior_invariant cs_quant_set_face_nvec quant mesh D)
                  (n_i_faces mesh) 0 s)
        as ([diag1 xtra1] & -> & Hld1 & Hlx1 & Hd1 & Hx1)
  end.
  { unfold interior_invariant. cbn [fst snd]. rewrite !length_replicate.
    repeat split; try lia.
    intros c Hc. apply lookup_replicate_2. exact Hc. }
  { intros i t Hi Ht.
    exact (interior_face_step quant mesh D i t Hok ltac:(lia) Ht). }
  cbn [fst snd plus] in *. cbn [mbind exec_bind].
  match goal with
  | |- context [for_loop ?body 0 (n_b_faces mesh) ?s] =>
      destruct (for_loop_invariant body
                  (boundary_invariant cs_quant_set_face_nvec cs_nvec3
                     quant mesh D)
                  (n_b_faces mesh) 0 s) as (diag2 & -> & Hld2 & Hd2)
  end.
  { split; [exact Hld1 | exact Hd1]. }
  { intros i t Hi Ht.
    exact (boundary_face_step quant mesh D i t Hok ltac:(lia) Ht). }
  cbn [mbind exec_bind plus] in *.
  exists diag2, xtra1. repeat split; try assumption; apply Hx1; assumption.
Qed.

End MonolithicSlesResults.

(** ** Further results on [cs_param_saddle.c] *)

Section ParamSaddleMore.

Variable create : Z -> string -> cs_param_sles_t.
Variable copy_from : cs_param_sles_t -> cs_param_sles_t -> cs_param_sles_t.
Variable check_class : cs_param_solver_class_t -> cs_param_solver_class_t.

#[local] Abbreviation saddle_set_solver :=
  (cs_param_saddle_set_solver create copy_from check_class).
#[local] Abbreviation saddle_set_schur_approx :=
  (cs_param_saddle_set_schur_approx create copy_from).
#[local] Abbreviation saddle_copy := (cs_param_saddle_copy create copy_from).

Lemma context_typed_block (p : cs_param_saddle_t) (w : world)
    (d : context_block) :
  context_typed p w -> default_context (solver p) = Some d ->
  exists a blk, context p = Some a /\ bft_heap w !! a = Some blk /\
    context_matches (solver p) (Some blk).
Proof.
  unfold context_typed, context_block_of. intros Ht Hd. rewrite Hd in Ht.
  destruct (context p) as [a |]; cbn in Ht.
  - destruct (bft_heap w !! a) as [blk |] eqn:Hb.
    + exists a, blk. split; [reflexivity |]. split; [exact Hb | exact Ht].
    + destruct (solver p); try discriminate Hd; destruct Ht.
  - destruct (solver p); try discriminate Hd; destruct Ht.
Qed.

Lemma store_context_lookup (a : addr) (blk : context_block) (w : world)
    (p : cs_param_saddle_t) :
  context p = Some a ->
  context_block_of p (store_context a blk w) = Some blk /\
  sles_epzero (store_context a blk w) = sles_epzero w /\
  (forall b, context p <> Some b ->
     bft_heap (store_context a blk w) !! b = bft_heap w !! b).
Proof.
  intros Hc. unfold context_block_of, store_context. rewrite Hc. cbn.
  split; [apply lookup_insert_eq |]. split; [reflexivity |].
  intros b Hb. apply lookup_insert_ne. congruence.
Qed.

(** X1: on a record whose context is of the variant of its solver kind,
    [set_augmentation_coef] ends normally; for ALU and GKB the value is
    read back by [get_augmentation_coef] and the other scalars of the
    block, the other blocks and the rest of the process state are kept;
    for every other kind nothing is written and the value read is 0. *)
Theorem augmentation_coef_round_trip (p : cs_param_saddle_t) (w : world)
    (coef : float) :
  context_typed p w ->
  exists w',
    cs_param_saddle_set_augmentation_coef (Some p) coef w = Normal w' /\
    context_typed p w' /\
    sles_epzero w' = sles_epzero w /\
    (forall b, context p <> Some b -> bft_heap w' !! b = bft_heap w !! b) /\
    context_block_of p w'
    = match solver p with
      | CS_PARAM_SADDLE_SOLVER_ALU
      | CS_PARAM_SADDLE_SOLVER_GKB =>
          write_augmentation_coef coef <$> context_block_of p w
      | _ => context_block_of p w
      end /\
    cs_param_saddle_get_augmentation_coef (Some p) w'
    = Normal match solver p with
             | CS_PARAM_SADDLE_SOLVER_ALU
             | CS_PARAM_SADDLE_SOLVER_GKB => coef
             | _ => 0%float
             end.
Proof.
  intros Ht.
  destruct (solver p) eqn:Hs.
  all: try (exists w;
            unfold cs_param_saddle_set_augmentation_coef,
              cs_param_saddle_get_augmentation_coef;
            rewrite Hs; repeat split; auto; fail).
  - destruct (context_typed_block p w _ Ht ltac:(rewrite Hs; reflexivity))
      as (a & blk & Hc & Hb & Hm).
    rewrite Hs in Hm. destruct blk as [g d | | |]; try destruct Hm.
    exists (store_context a (Context_alu coef d) w).
    destruct (store_context_lookup a (Context_alu coef d) w p Hc)
      as (Hl & He & Hf).
    unfold cs_param_saddle_set_augmentation_coef,
      cs_param_saddle_get_augmentation_coef, load_context.
    rewrite Hs, Hc. cbn [deref mbind exec_bind]. rewrite Hb.
    cbn [deref mbind exec_bind].
    split; [reflexivity |].
    split; [unfold context_typed; rewrite Hs, Hl; exact I |].
    split; [exact He |].
    split; [intros b Hne; apply Hf; rewrite Hc; exact Hne |]. split.
    + rewrite Hl. unfold context_block_of. rewrite Hc. cbn. rewrite Hb.
      reflexivity.
    + cbn [store_context bft_heap]. rewrite lookup_insert_eq. reflexivity.
  - destruct (context_typed_block p w _ Ht ltac:(rewrite Hs; reflexivity))
      as (a & blk & Hc & Hb & Hm).
    rewrite Hs in Hm. destruct blk as [| g t d | |]; try destruct Hm.
    exists (store_context a (Context_gkb coef t d) w).
    destruct (store_context_lookup a (Context_gkb coef t d) w p Hc)
      as (Hl & He & Hf).
    unfold cs_param_saddle_set_augmentation_coef,
      cs_param_saddle_get_augmentation_coef, load_context.
    rewrite Hs, Hc. cbn [deref mbind exec_bind]. rewrite Hb.
    cbn [deref mbind exec_bind].
    split; [reflexivity |].
    split; [unfold context_typed; rewrite Hs, Hl; exact I |].
    split; [exact He |].
    split; [intros b Hne; apply Hf; rewrite Hc; exact Hne |]. split.
    + rewrite Hl. unfold context_block_of. rewrite Hc. cbn. rewrite Hb.
      reflexivity.
    + cbn [store_context bft_heap]. rewrite lookup_insert_eq. reflexivity.
Qed.

(** X2: on a record whose context is of the variant of its solver kind,
    [set_restart_range] and [set_notay_scaling] end normally; for FGMRES
    and GCR the block becomes the block-Krylov block with the given
    number of stored directions, for the Notay transformation the block
    with the given scaling; the other blocks and the threshold are kept,
    and for every other kind the process state is left as it is. *)
Theorem restart_range_and_notay_scaling_writes (p : cs_param_saddle_t)
    (w : world) (restart_range : Z) (scaling_coef : float) :
  context_typed p w ->
  (exists w',
     cs_param_saddle_set_restart_range (Some p) restart_range w
     = Normal w' /\
     context_typed p w' /\
     sles_epzero w' = sles_epzero w /\
     (forall b, context p <> Some b -> bft_heap w' !! b = bft_heap w !! b) /\
     match solver p with
     | CS_PARAM_SADDLE_SOLVER_FGMRES
     | CS_PARAM_SADDLE_SOLVER_GCR =>
         context_block_of p w' = Some (Context_block_krylov restart_range)
     | _ => w' = w
     end)
  /\
  (exists w',
     cs_param_saddle_set_notay_scaling (Some p) scaling_coef w = Normal w' /\
     context_typed p w' /\
     sles_epzero w' = sles_epzero w /\
     (forall b, context p <> Some b -> bft_heap w' !! b = bft_heap w !! b) /\
     match solver p with
     | CS_PARAM_SADDLE_SOLVER_NOTAY_TRANSFORM =>
         context_block_of p w' = Some (Context_notay scaling_coef)
     | _ => w' = w
     end).
Proof.
  intros Ht. split.
  - destruct (solver p) eqn:Hs.
    all: try (exists w; unfold cs_param_saddle_set_restart_range;
              rewrite Hs; repeat split; auto; fail).
    all: destruct (context_typed_block p w _ Ht
                     ltac:(rewrite Hs; reflexivity))
           as (a & blk & Hc & Hb & Hm);
      rewrite Hs in Hm; destruct blk as [| | n |]; try destruct Hm;
      exists (store_context a (Context_block_krylov restart_range) w);
      destruct (store_context_lookup a (Context_block_krylov restart_range)
                  w p Hc) as (Hl & He & Hf);
      unfold cs_param_saddle_set_restart_range, load_context;
      rewrite Hs, Hc; cbn [deref mbind exec_bind]; rewrite Hb;
      cbn [deref mbind exec_bind];
      (split; [reflexivity |]);
      (split; [unfold context_typed; rewrite Hs, Hl; exact I |]);
      (split; [exact He |]);
      (split; [intros b Hne; apply Hf; rewrite Hc; exact Hne | exact Hl]).
  - destruct (solver p) eqn:Hs.
    all: try (exists w; unfold cs_param_saddle_set_notay_scaling;
              rewrite Hs; repeat split; auto; fail).
    destruct (context_typed_block p w _ Ht ltac:(rewrite Hs; reflexivity))
      as (a & blk & Hc & Hb & Hm).
    rewrite Hs in Hm. destruct blk as [| | | c]; try destruct Hm.
    exists (store_context a (Context_notay scaling_coef) w).
    destruct (store_context_lookup a (Context_notay scaling_coef) w p Hc)
      as (Hl & He & Hf).
    unfold cs_param_saddle_set_notay_scaling, load_context.
    rewrite Hs, Hc. cbn [deref mbind exec_bind]. rewrite Hb.
    cbn [deref mbind exec_bind].
    split; [reflexivity |].
    split; [unfold context_typed; rewrite Hs, Hl; exact I |].
    split; [exact He |].
    split; [intros b Hne; apply Hf; rewrite Hc; exact Hne | exact Hl].
Qed.

Lemma set_solver_typed (k : string) (p p' : cs_param_saddle_t)
    (w w' : world) :
  valid_context p w ->
  saddle_set_solver (Some k) (Some p) w = Normal (0, Some p', w') ->
  valid_context p' w' /\ context_typed p' w' /\
  solver_of_key k = Some (solver p') /\
  forall d, default_context (solver p') = Some d ->
    context_block_of p' w' = Some d.
Proof.
  intros Hv H.
  destruct (set_solver_context_step create copy_from check_class
              k p p' w w' Hv H) as (Hv' & Hk & Hd).
  split; [exact Hv' |]. unfold context_typed.
  destruct (default_context (solver p')) as [d |] eqn:Hdc.
  - destruct Hd as (a & Hc & _ & Ha & _).
    assert (Hb : context_block_of p' w' = Some d).
    { unfold context_block_of. rewrite Hc. exact Ha. }
    split.
    + rewrite Hb. apply default_context_matches. exact Hdc.
    + split; [exact Hk |]. intros d' [= <-]. exact Hb.
  - split; [exact I |]. split; [exact Hk |]. intros d' Hd'. discriminate.
Qed.

(** X3: after a [set_solver] that returns 0 on a record whose context
    pointer is sound, the context is of the variant the new solver kind
    reads, so that the accessors of the context scalars are defined, and
    [get_augmentation_coef] returns the default of the kind: 100 for ALU
    and 0 for every other kind. *)
Theorem set_solver_then_get_augmentation_coef (k : string)
    (p p' : cs_param_saddle_t) (w w' : world) :
  valid_context p w ->
  saddle_set_solver (Some k) (Some p) w = Normal (0, Some p', w') ->
  context_typed p' w' /\
  cs_param_saddle_get_augmentation_coef (Some p') w'
  = Normal (if String.eqb k "alu" then 100 else 0)%float.
Proof.
  intros Hv H.
  destruct (set_solver_typed k p p' w w' Hv H) as (_ & Ht & Hk & Hd).
  split; [exact Ht |].
  unfold cs_param_saddle_get_augmentation_coef, load_context.
  unfold solver_of_key in Hk. revert Hk. key_cases k;
    cbn [String.eqb Ascii.eqb Bool.eqb]; intros [= Hk]; rewrite <- Hk;
    try reflexivity; try discriminate.
  all: specialize (Hd _ ltac:(rewrite <- Hk; reflexivity));
    unfold context_block_of in Hd;
    destruct (context p') as [a |]; [| discriminate Hd];
    cbn in Hd; cbn [deref mbind exec_bind]; rewrite Hd; reflexivity.
Qed.

(** X4: in a build without PETSc, [set_solver] with key "fgmres" returns 2
    with the solver already switched to FGMRES and the context left as
    it was; on a record without context, [set_restart_range] then reads
    through the [NULL] context pointer. *)
Theorem failed_fgmres_leaves_no_context (p : cs_param_saddle_t) (w : world)
    (restart_range : Z) :
  check_class CS_PARAM_SOLVER_CLASS_PETSC <> CS_PARAM_SOLVER_CLASS_PETSC ->
  context p = None ->
  exists p',
    saddle_set_solver (Some "fgmres") (Some p) w = Normal (2, Some p', w) /\
    solver p' = CS_PARAM_SADDLE_SOLVER_FGMRES /\
    context p' = None /\
    cs_param_saddle_set_restart_range (Some p') restart_range w = Undefined.
Proof.
  intros Hc Hn. unfold cs_param_saddle_set_solver.
  cbn [String.eqb Ascii.eqb Bool.eqb]. rewrite decide_True by exact Hc.
  eexists. split; [reflexivity |]. split; [reflexivity |].
  split; [exact Hn |].
  unfold cs_param_saddle_set_restart_range, load_context. cbn [solver].
  cbn [with_solver_class with_solver solver context]. rewrite Hn.
  reflexivity.
Qed.

(** X5: [cs_param_saddle_copy] transfers the solver kind but not the
    context: after a copy from a record whose kind is ALU or GKB into a
    record without context, [get_augmentation_coef] on the destination
    reads through the [NULL] context pointer, whatever the process
    state; likewise [set_restart_range] after a copy from a FGMRES or
    GCR record. *)
Theorem copy_leaves_context_behind (ref dest dest' : cs_param_saddle_t)
    (w : world) (restart_range : Z) :
  context dest = None ->
  saddle_copy (Some ref) (Some dest) = Normal (Some dest') ->
  solver dest' = solver ref /\
  context dest' = None /\
  (solver ref = CS_PARAM_SADDLE_SOLVER_ALU \/
   solver ref = CS_PARAM_SADDLE_SOLVER_GKB ->
   cs_param_saddle_get_augmentation_coef (Some dest') w = Undefined) /\
  (solver ref = CS_PARAM_SADDLE_SOLVER_FGMRES \/
   solver ref = CS_PARAM_SADDLE_SOLVER_GCR ->
   cs_param_saddle_set_restart_range (Some dest') restart_range w
   = Undefined).
Proof.
  intros Hn H.
  apply saddle_copy_normal in H as (Hs & _ & _ & _ & _ & _ & _ & Hc & _).
  rewrite Hn in Hc.
  split; [exact Hs |]. split; [exact Hc |].
  unfold cs_param_saddle_get_augmentation_coef,
    cs_param_saddle_set_restart_range, load_context.
  rewrite Hs, Hc.
  split; intros [-> | ->]; reflexivity.
Qed.

(** X6: a [set_precond] that returns 0 changes nothing but the
    preconditioner and, when the key is "uzawa" and no Schur
    approximation was chosen, the Schur approximation, which becomes
    MASS_SCALED; with every other key, or with an approximation already
    chosen, the Schur approximation is kept.  Right after the call a
    Uzawa-like preconditioner thus never goes with the approximation
    NONE, but a later [set_schur_approx("none")] returns 0 all the same
    and leaves UZAWA with NONE. *)
Theorem set_precond_uzawa_promotion (k : string)
    (p p' : cs_param_saddle_t) :
  cs_param_saddle_set_precond (Some k) (Some p) = (0, Some p') ->
  p' = with_schur_approx (schur_approx p') (with_precond (precond p') p) /\
  (precond p' = CS_PARAM_SADDLE_PRECOND_UZAWA <-> k = "uzawa") /\
  schur_approx p'
  = (if decide (k = "uzawa" /\
                schur_approx p = CS_PARAM_SADDLE_SCHUR_NONE)
     then CS_PARAM_SADDLE_SCHUR_MASS_SCALED
     else schur_approx p) /\
  (precond p' = CS_PARAM_SADDLE_PRECOND_UZAWA ->
   schur_approx p' <> CS_PARAM_SADDLE_SCHUR_NONE) /\
  exists p'',
    saddle_set_schur_approx (Some "none") (Some p') = Normal (0, Some p'') /\
    precond p'' = precond p' /\
    schur_approx p'' = CS_PARAM_SADDLE_SCHUR_NONE.
Proof.
  unfold cs_param_saddle_set_precond.
  destruct p as [v n c sv pc cv sa b11 s0 x0 ctx].
  cbn [schur_approx with_precond].
  key_cases k;
    [ | | | | | destruct sa; cbn [decide] | ];
    intros [= <-]; cbn;
    (split; [reflexivity |]);
    (split; [split; intros E; try reflexivity; try discriminate E |]);
    (split; [case_decide as Hd; try reflexivity;
             try (destruct Hd as [Hd1 Hd2];
                  first [discriminate Hd1 | discriminate Hd2]);
             exfalso; apply Hd; split; reflexivity |]);
    (split; [intros E; first [discriminate E | discriminate] |]);
    eexists; repeat split.
Qed.

(** X7: choosing a Schur approximation with a nested solve starts the
    nested record afresh: the outcome of [set_schur_approx] does not
    depend on the Schur SLES record the saddle record held, nor, for the
    two lumped forms, on the extra one.  With the keys none, identity,
    mass and mass_scaled the call returns 0 and keeps both nested
    records as they are. *)
Theorem set_schur_approx_resets_nested (k : string)
    (p : cs_param_saddle_t)
    (s x : option cs_param_sles_t) :
  (k ∈ schur_solve_keys ->
   saddle_set_schur_approx (Some k) (Some (with_schur_sles_param s p))
   = saddle_set_schur_approx (Some k) (Some p))
  /\
  (k ∈ lumped_keys ->
   saddle_set_schur_approx (Some k)
     (Some (with_xtra_sles_param x (with_schur_sles_param s p)))
   = saddle_set_schur_approx (Some k) (Some p))
  /\
  (k ∈ ["none"; "identity"; "mass"; "mass_scaled"] ->
   exists p',
     saddle_set_schur_approx (Some k) (Some p) = Normal (0, Some p') /\
     schur_sles_param p' = schur_sles_param p /\
     xtra_sles_param p' = xtra_sles_param p).
Proof.
  unfold schur_solve_keys, lumped_keys. rewrite !elem_of_cons.
  split; [| split].
  - intros [-> | [-> | [-> | [-> | Hk]]]];
      [ | | | | apply elem_of_nil in Hk; destruct Hk];
      destruct p as [v n c sv pc cv sa b11 s0 x0 ctx];
      unfold cs_param_saddle_set_schur_approx, _init_schur_slesp,
        _init_xtra_slesp;
      cbn [String.eqb Ascii.eqb Bool.eqb orb];
      destruct n, b11 as [[[bn |] fid bc bpc bsv bamg bcv] |];
      destruct s, s0, x0; reflexivity.
  - intros [-> | [-> | Hk]];
      [ | | apply elem_of_nil in Hk; destruct Hk];
      destruct p as [v n c sv pc cv sa b11 s0 x0 ctx];
      unfold cs_param_saddle_set_schur_approx, _init_schur_slesp,
        _init_xtra_slesp;
      cbn [String.eqb Ascii.eqb Bool.eqb orb];
      destruct n, b11 as [[[bn |] fid bc bpc bsv bamg bcv] |];
      destruct s, s0, x, x0; reflexivity.
  - intros [-> | [-> | [-> | [-> | Hk]]]];
      [ | | | | apply elem_of_nil in Hk; destruct Hk];
      eexists; repeat split.
Qed.

(** X8: [try_init_schur_sles_param] and [try_init_xtra_sles_param] keep
    a nested record that is already there, so that a second call, when
    the first one ended normally, changes nothing. *)
Theorem try_init_idempotent (p : cs_param_saddle_t)
    (sp1 : option cs_param_saddle_t) :
  (is_Some (schur_sles_param p) ->
   cs_param_saddle_try_init_schur_sles_param create (Some p)
   = Normal (Some p)) /\
  (is_Some (xtra_sles_param p) ->
   cs_param_saddle_try_init_xtra_sles_param create copy_from (Some p)
   = Normal (Some p)) /\
  (cs_param_saddle_try_init_schur_sles_param create (Some p) = Normal sp1 ->
   cs_param_saddle_try_init_schur_sles_param create sp1 = Normal sp1) /\
  (cs_param_saddle_try_init_xtra_sles_param create copy_from (Some p)
   = Normal sp1 ->
   cs_param_saddle_try_init_xtra_sles_param create copy_from sp1
   = Normal sp1).
Proof.
  split; [| split; [| split]].
  - intros [s Hs]. unfold cs_param_saddle_try_init_schur_sles_param.
    rewrite Hs. reflexivity.
  - intros [x Hx]. unfold cs_param_saddle_try_init_xtra_sles_param.
    rewrite Hx. reflexivity.
  - intros H.
    destruct (try_init_schur_normal create p sp1 H) as [s ->].
    reflexivity.
  - intros H.
    destruct (try_init_xtra_normal create copy_from p sp1 H) as [x ->].
    reflexivity.
Qed.

(** X9: [set_solver] with a known key does not look at the solver kind
    the record had, nor, but for the key "none", at its solver class;
    with the keys "alu" and "gkb" it does not look at the preconditioner,
    the Schur approximation and the extra SLES record either.  A solver
    class chosen before the solver is chosen is thus lost. *)
Theorem set_solver_forgets_previous_choice (k : string)
    (p : cs_param_saddle_t) (w : world)
    (s : cs_param_saddle_solver_t) (c : cs_param_solver_class_t)
    (pc : cs_param_saddle_precond_t) (sa : cs_param_saddle_schur_approx_t)
    (x : option cs_param_sles_t) :
  k ∈ solver_keys ->
  saddle_set_solver (Some k) (Some (with_solver s p)) w
  = saddle_set_solver (Some k) (Some p) w /\
  (k <> "none" ->
   saddle_set_solver (Some k) (Some (with_solver_class c p)) w
   = saddle_set_solver (Some k) (Some p) w /\
   forall ierr p' w',
     saddle_set_solver (Some k) (Some p) w = Normal (ierr, Some p', w') ->
     solver_class p' = class_of_key k) /\
  (k = "alu" \/ k = "gkb" ->
   saddle_set_solver (Some k)
     (Some (with_precond pc (with_schur_approx sa
                               (with_xtra_sles_param x p)))) w
   = saddle_set_solver (Some k) (Some p) w).
Proof.
  unfold solver_keys. rewrite !elem_of_cons. intros Hk.
  destruct p as [v n c0 sv pc0 cv sa0 b11 s0 x0 ctx].
  split; [| split].
  - destruct Hk as [-> | [-> | [-> | [-> | [-> | [-> | [-> | [-> | [-> | Hk]
      ]]]]]]]]; [ | | | | | | | | | apply elem_of_nil in Hk; destruct Hk];
      unfold cs_param_saddle_set_solver, _init_xtra_transfo_slesp;
      cbn [String.eqb Ascii.eqb Bool.eqb]; try reflexivity;
      destruct x0; reflexivity.
  - intros Hne. split.
    + destruct Hk as [-> | [-> | [-> | [-> | [-> | [-> | [-> | [-> | [-> | Hk]
        ]]]]]]]]; [ | | | | | | | | | apply elem_of_nil in Hk; destruct Hk];
        try congruence;
        unfold cs_param_saddle_set_solver, _init_xtra_transfo_slesp;
        cbn [String.eqb Ascii.eqb Bool.eqb]; try reflexivity;
        destruct x0; reflexivity.
    + intros ierr p' w'.
      destruct Hk as [-> | [-> | [-> | [-> | [-> | [-> | [-> | [-> | [-> | Hk]
        ]]]]]]]]; [ | | | | | | | | | apply elem_of_nil in Hk; destruct Hk];
        try congruence;
        unfold cs_param_saddle_set_solver;
        cbn [String.eqb Ascii.eqb Bool.eqb]; intros H;
        try (apply bind_normal in H as (p1 & H1 & H);
             apply init_xtra_transfo_normal in H1 as (b & x1 & _ & -> & _));
        try destruct (decide _);
        try rewrite malloc_then_replace in H;
        try (apply bind_normal in H as ([p2 w2] & H2 & H);
             apply install_epzero in H2 as [-> _]);
        injection H as <- <- <-; reflexivity.
  - intros [-> | ->];
      unfold cs_param_saddle_set_solver, _init_xtra_transfo_slesp;
      cbn [String.eqb Ascii.eqb Bool.eqb];
      destruct x, x0; reflexivity.
Qed.

(** X10: the lumped Schur approximations and the solvers ALU and GKB
    keep their extra SLES record in the same member.  After
    [set_solver] with "alu" or "gkb", a [set_schur_approx] with a lumped
    key returns 0, leaves the solver kind and the context as they are,
    and replaces the transformation record: the extra record now has
    the relative tolerance 1e-3 and 50 iterations at most, whatever
    tolerance [set_solver] had computed. *)
Theorem lumped_schur_replaces_transformation_record (k kl : string)
    (p p1 : cs_param_saddle_t) (w w1 : world)
    (ierr : Z) (sp2 : option cs_param_saddle_t) :
  k = "alu" \/ k = "gkb" ->
  kl ∈ lumped_keys ->
  saddle_set_solver (Some k) (Some p) w = Normal (0, Some p1, w1) ->
  saddle_set_schur_approx (Some kl) (Some p1) = Normal (ierr, sp2) ->
  ierr = 0 /\
  exists p2 x,
    sp2 = Some p2 /\
    solver_of_key k = Some (solver p2) /\
    context p2 = context p1 /\
    needs_xtra_sles (schur_approx p2) = true /\
    xtra_sles_param p2 = Some x /\
    rtol (sles_cvg_param x) = 1e-3%float /\
    n_max_iter (sles_cvg_param x) = 50.
Proof.
  intros Hk Hl Hs Ha.
  assert (Hsolver : solver_of_key k = Some (solver p1)).
  { destruct Hk as [-> | ->];
      unfold cs_param_saddle_set_solver in Hs;
      cbn [String.eqb Ascii.eqb Bool.eqb] in Hs;
      apply bind_normal in Hs as (q & Hq & Hs);
      rewrite malloc_then_replace in Hs;
      apply bind_normal in Hs as ([q2 w2] & Hi & Hs);
      injection Hs as <- <-;
      apply init_xtra_transfo_normal in Hq as (b & x & _ & -> & _);
      apply replace_context_normal in Hi; subst q2; reflexivity. }
  unfold lumped_keys in Hl. rewrite !elem_of_cons in Hl.
  destruct Hl as [-> | [-> | Hl]]; [ | | apply elem_of_nil in Hl; destruct Hl];
    unfold cs_param_saddle_set_schur_approx in Ha;
    cbn [String.eqb Ascii.eqb Bool.eqb orb] in Ha;
    apply bind_normal in Ha as (q1 & H1 & Ha);
    apply bind_normal in Ha as (q2 & H2 & Ha);
    injection Ha as <- <-;
    apply init_schur_normal in H1 as (s & -> & _);
    apply init_xtra_normal in H2 as (x & -> & Hr & Hn);
    (split; [reflexivity |]); eexists; exists x;
    repeat split; assumption.
Qed.

Lemma set_solver_nested_fields (k : string) (p p' : cs_param_saddle_t)
    (w w' : world) (ierr : Z) :
  saddle_set_solver (Some k) (Some p) w = Normal (ierr, Some p', w') ->
  schur_sles_param p' = schur_sles_param p /\
  solver p' <> CS_PARAM_SADDLE_N_SOLVERS \/ p' = p /\ ierr = 1.
Proof.
  unfold cs_param_saddle_set_solver. key_cases k;
    cbn [String.eqb Ascii.eqb Bool.eqb]; intros H;
    try (apply bind_normal in H as (p1 & H1 & H);
         apply init_xtra_transfo_normal in H1 as (b & x1 & _ & -> & _));
    try destruct (decide _);
    try rewrite malloc_then_replace in H;
    try (apply bind_normal in H as ([p2 w2] & H2 & H);
         apply install_epzero in H2 as [-> _]);
    injection H as <- <- <-;
    first [ right; split; reflexivity
          | left; split; [reflexivity | discriminate] ].
Qed.

Lemma set_solver_xtra_field (k : string) (p p' : cs_param_saddle_t)
    (w w' : world) (ierr : Z) :
  saddle_set_solver (Some k) (Some p) w = Normal (ierr, Some p', w') ->
  (needs_transfo_sles (solver p') = true /\
   schur_approx p' = CS_PARAM_SADDLE_SCHUR_NONE /\
   is_Some (xtra_sles_param p')) \/
  (needs_transfo_sles (solver p') = false /\
   schur_approx p' = schur_approx p /\
   xtra_sles_param p' = xtra_sles_param p) \/
  p' = p.
Proof.
  unfold cs_param_saddle_set_solver. key_cases k;
    cbn [String.eqb Ascii.eqb Bool.eqb]; intros H;
    try (apply bind_normal in H as (p1 & H1 & H);
         apply init_xtra_transfo_normal in H1 as (b & x1 & _ & -> & _));
    try destruct (decide _);
    try rewrite malloc_then_replace in H;
    try (apply bind_normal in H as ([p2 w2] & H2 & H);
         apply install_epzero in H2 as [-> _]);
    injection H as <- <- <-;
    first [ right; right; reflexivity
          | right; left; repeat split; reflexivity
          | left; repeat split; eexists; reflexivity ].
Qed.

Lemma set_schur_approx_fields (k : string) (p p' : cs_param_saddle_t)
    (ierr : Z) :
  saddle_set_schur_approx (Some k) (Some p) = Normal (ierr, Some p') ->
  solver p' = solver p /\
  (is_Some (schur_sles_param p) -> is_Some (schur_sles_param p')) /\
  (is_Some (xtra_sles_param p) -> is_Some (xtra_sles_param p')) /\
  (p' = p \/
   (needs_schur_sles (schur_approx p') = true ->
    is_Some (schur_sles_param p')) /\
   (needs_xtra_sles (schur_approx p') = true ->
    is_Some (xtra_sles_param p'))).
Proof.
  unfold cs_param_saddle_set_schur_approx. key_cases k;
    cbn [String.eqb Ascii.eqb Bool.eqb orb]; intros H;
    try (apply bind_normal in H as (p1 & H1 & H);
         apply init_schur_normal in H1 as (s & -> & _));
    try (apply bind_normal in H as (p2 & H2 & H);
         apply init_xtra_normal in H2 as (x & -> & _));
    try (destruct (String.eqb k "mass" || String.eqb k "mass_scaled"));
    try (apply bind_normal in H as (p1 & H1 & H);
         apply init_schur_normal in H1 as (s & -> & _));
    try (apply bind_normal in H as (p2 & H2 & H);
         apply init_xtra_normal in H2 as (x & -> & _));
    injection H as <- <-; cbn;
    (split; [reflexivity |]);
    (split; [intros; try assumption; eexists; reflexivity |]);
    (split; [intros; try assumption; eexists; reflexivity |]);
    first [ left; reflexivity
          | right; split; intros; try discriminate; eexists; reflexivity ].
Qed.

(** X11: on every record a caller can get at (a created one, or what
    the setters, the lazy initialisers and a copy between such records
    return), the nested records the Schur approximation calls for are
    there, the solvers ALU and GKB have their extra record, and the
    solver kind is never the end marker of the enumeration. *)
Theorem configured_record_has_nested_sles (p : cs_param_saddle_t) :
  configured create copy_from check_class p ->
  nested_sles_present p /\
  (needs_transfo_sles (solver p) = true -> is_Some (xtra_sles_param p)) /\
  solver p <> CS_PARAM_SADDLE_N_SOLVERS.
Proof.
  unfold nested_sles_present.
  induction 1 as
    [ b
    | n p p' _ IH H
    | b p p' _ IH H
    | k ierr p p' _ IH H
    | k ierr p p' _ IH H
    | k ierr p p' _ IH H
    | k ierr p p' w w' _ IH H
    | p p' _ IH H
    | p p' _ IH H
    | ref dest dest' _ IHr _ IHd H ].
  - cbn. repeat split; intros; discriminate.
  - unfold cs_param_saddle_set_name in H.
    apply bind_normal in H as (n' & _ & H). injection H as <-.
    exact IH.
  - injection H as <-. exact IH.
  - destruct IH as [[IH1 IH2] [IH3 IH4]].
    unfold cs_param_saddle_set_precond in H.
    destruct p as [v n c sv pc cv sa b11 s0 x0 ctx].
    cbn [schur_approx with_precond] in H. revert H.
    key_cases k; [ | | | | | destruct sa; cbn [decide] | ];
      intros [= <- <-]; cbn in *;
      repeat split; intros; try discriminate; auto.
  - destruct IH as [[IH1 IH2] [IH3 IH4]].
    apply set_schur_approx_fields in H as (Hs & Hm1 & Hm2 & [-> | [H1 H2]]).
    + repeat split; assumption.
    + rewrite Hs. repeat split; try assumption.
      intros Ht. apply Hm2, IH3, Ht.
  - destruct IH as [[IH1 IH2] [IH3 IH4]].
    unfold cs_param_saddle_set_solver_class in H.
    destruct (String.eqb k "cs" || String.eqb k "saturne");
      [injection H as <- <-; repeat split; assumption |].
    revert H. key_cases k; try destruct (decide _);
      intros [= <- <-]; repeat split; assumption.
  - destruct IH as [[IH1 IH2] [IH3 IH4]].
    pose proof (set_solver_nested_fields _ _ _ _ _ _ H) as Hn.
    apply set_solver_xtra_field in H as [(Ht & Ha & Hx) | [(Ht & Ha & Hx) | ->]].
    + rewrite Ha. repeat split; intros; try discriminate; try assumption.
      intros E. rewrite E in Ht. discriminate.
    + destruct Hn as [[Hs Hn] | [-> _]]; [| repeat split; assumption].
      rewrite Ha, Hx, Hs, Ht.
      repeat split; intros; try discriminate; auto.
    + repeat split; assumption.
  - destruct IH as [[IH1 IH2] [IH3 IH4]].
    apply try_init_schur_normal in H as [s [= ->]]. cbn.
    repeat split; intros; auto.
  - destruct IH as [[IH1 IH2] [IH3 IH4]].
    apply try_init_xtra_normal in H as [x [= ->]]. cbn.
    repeat split; intros; auto.
  - destruct IHr as [[IH1 IH2] [IH3 IH4]].
    apply saddle_copy_normal in H
      as (Hsv & _ & _ & Ha & _ & _ & _ & _ & Hs & Hx).
    rewrite Hsv, Ha.
    assert (Hs' : is_Some (schur_sles_param ref) ->
                  is_Some (schur_sles_param dest')).
    { intros [s Hr]. rewrite Hr in Hs. destruct Hs as [d ->]. eauto. }
    assert (Hx' : is_Some (xtra_sles_param ref) ->
                  is_Some (xtra_sles_param dest')).
    { intros [x Hr]. rewrite Hr in Hx. destruct Hx as [d ->]. eauto. }
    repeat split; auto.
Qed.

Lemma owns_context_ext (p q : cs_param_saddle_t) (w0 w : world) :
  context q = context p -> owns_context p w0 w -> owns_context q w0 w.
Proof. unfold owns_context. intros ->. trivial. Qed.

Lemma install_owns (blk : context_block) (p p' : cs_param_saddle_t)
    (w0 w w' : world) :
  owns_context p w0 w ->
  install blk p w = Normal (p', w') ->
  owns_context p' w0 w'.
Proof.
  unfold owns_context, install, BFT_MALLOC, replace_context. cbn [fst snd].
  set (a := fresh (dom (bft_heap w))).
  assert (Ha : bft_heap w !! a = None).
  { apply not_elem_of_dom. apply is_fresh. }
  destruct (context p) as [old |]; cbn [mbind exec_bind].
  - intros [H0 [b Hw]]. unfold BFT_FREE. cbn [bft_heap sles_epzero].
    assert (Hne : a <> old).
    { intros E. rewrite Hw, E, lookup_insert_eq in Ha. discriminate. }
    rewrite lookup_insert_ne by exact Hne.
    rewrite Hw, lookup_insert_eq. cbn [mbind exec_bind].
    intros [= <- <-]. cbn. split.
    + rewrite Hw, lookup_insert_ne in Ha by congruence. exact Ha.
    + exists blk. rewrite delete_insert_ne by congruence.
      rewrite delete_insert_id by exact H0. reflexivity.
  - intros Hw [= <- <-]. cbn. split.
    + rewrite <- Hw. exact Ha.
    + exists blk. rewrite Hw. reflexivity.
Qed.

Lemma set_solver_owns (k : string) (p p' : cs_param_saddle_t)
    (w0 w w' : world) (ierr : Z) :
  owns_context p w0 w ->
  saddle_set_solver (Some k) (Some p) w = Normal (ierr, Some p', w') ->
  owns_context p' w0 w'.
Proof.
  intros Ho H. apply set_solver_inv in H.
  inversion H; subst; try exact Ho.
  - eapply owns_context_ext; [| exact Ho]. assumption.
  - eapply install_owns; [| eassumption].
    eapply owns_context_ext; [| exact Ho]. assumption.
Qed.

Lemma store_owns (p : cs_param_saddle_t) (a : addr) (blk : context_block)
    (w0 w : world) :
  context p = Some a ->
  owns_context p w0 w -> owns_context p w0 (store_context a blk w).
Proof.
  unfold owns_context. intros ->. intros [H0 [b Hw]].
  split; [exact H0 |]. exists blk. cbn. rewrite Hw.
  apply insert_insert_eq.
Qed.

Lemma owns_context_valid (p : cs_param_saddle_t) (w0 w : world) :
  owns_context p w0 w -> valid_context p w.
Proof.
  unfold owns_context, valid_context. intros Ho a Ha. rewrite Ha in Ho.
  destruct Ho as [_ [b ->]]. rewrite lookup_insert_eq. eexists; reflexivity.
Qed.

Lemma context_typed_own_block (p : cs_param_saddle_t) (w : world) :
  context_typed p w -> own_context_block p w.
Proof.
  unfold context_typed, own_context_block.
  destruct (solver p); cbn [default_context]; trivial.
Qed.

Lemma run_call_owns (c : saddle_call) (p p' : cs_param_saddle_t)
    (w0 w w' : world) :
  owns_context p w0 w ->
  run_call create copy_from check_class c p w = Normal (p', w') ->
  owns_context p' w0 w'.
Proof.
  intros Ho. destruct c as [k | n | c | c]; cbn [run_call]; intros H.
  - apply bind_normal in H as ([[i sp] w1] & H1 & H).
    apply bind_normal in H as (q & Hq & H). injection H as <- <-.
    destruct sp as [q' |]; [| discriminate]. injection Hq as ->.
    eapply set_solver_owns; eassumption.
  - apply bind_normal in H as (w1 & H1 & H). injection H as <- <-.
    revert H1. unfold cs_param_saddle_set_restart_range, load_context.
    destruct (solver p); try (intros [= <-]; exact Ho);
      (destruct (context p) as [a |] eqn:Hc; [| discriminate]);
      cbn [deref mbind exec_bind];
      (destruct (bft_heap w !! a) as [blk |]; [| discriminate]);
      cbn [deref mbind exec_bind];
      intros [= <-]; apply store_owns; assumption.
  - apply bind_normal in H as (w1 & H1 & H). injection H as <- <-.
    revert H1. unfold cs_param_saddle_set_notay_scaling, load_context.
    destruct (decide _); [intros [= <-]; exact Ho |].
    (destruct (context p) as [a |] eqn:Hc; [| discriminate]);
      cbn [deref mbind exec_bind];
      (destruct (bft_heap w !! a) as [blk |]; [| discriminate]);
      cbn [deref mbind exec_bind];
      destruct blk; try discriminate;
      intros [= <-]; apply store_owns; assumption.
  - apply bind_normal in H as (w1 & H1 & H). injection H as <- <-.
    revert H1. unfold cs_param_saddle_set_augmentation_coef, load_context.
    destruct (solver p); try (intros [= <-]; exact Ho);
      (destruct (context p) as [a |] eqn:Hc; [| discriminate]);
      cbn [deref mbind exec_bind];
      (destruct (bft_heap w !! a) as [blk |]; [| discriminate]);
      cbn [deref mbind exec_bind];
      destruct blk; try discriminate;
      intros [= <-]; apply store_owns; assumption.
Qed.

(** A call keeps the blocks of ALU, GKB and Notay records of their own
    variant. *)
Lemma run_call_own_block (c : saddle_call) (p p' : cs_param_saddle_t)
    (w0 w w' : world) :
  owns_context p w0 w ->
  own_context_block p w ->
  run_call create copy_from check_class c p w = Normal (p', w') ->
  own_context_block p' w'.
Proof.
  intros Ho Hb. destruct c as [k | n | c | c]; cbn [run_call]; intros H.
  - apply bind_normal in H as ([[i sp] w1] & H1 & H).
    apply bind_normal in H as (q & Hq & H). injection H as <- <-.
    destruct sp as [q' |]; [| discriminate]. injection Hq as ->.
    destruct (decide (i = 0)) as [-> | Hi].
    + apply context_typed_own_block.
      apply (set_solver_typed k p _ w w1); [| exact H1].
      eapply owns_context_valid; exact Ho.
    + apply set_solver_inv in H1.
      inversion H1; subst; try exact Hb; try exact I; contradiction.
  - apply bind_normal in H as (w1 & H1 & H). injection H as <- <-.
    revert H1 Hb. unfold cs_param_saddle_set_restart_range, own_context_block.
    destruct (solver p); try (intros [= <-] Hb; exact Hb);
      intros _ _; exact I.
  - apply bind_normal in H as (w1 & H1 & H). injection H as <- <-.
    revert H1 Hb.
    unfold cs_param_saddle_set_notay_scaling, load_context, own_context_block.
    destruct (decide _) as [Hs | Hs]; [intros [= <-] Hb; exact Hb |].
    apply dec_stable in Hs. rewrite Hs.
    (destruct (context p) as [a |] eqn:Hc; [| discriminate]);
      cbn [deref mbind exec_bind];
      (destruct (bft_heap w !! a) as [blk |]; [| discriminate]);
      cbn [deref mbind exec_bind];
      destruct blk; try discriminate; intros [= <-] _.
    unfold context_block_of, store_context. rewrite Hc. cbn.
    rewrite lookup_insert_eq. exact I.
  - apply bind_normal in H as (w1 & H1 & H). injection H as <- <-.
    revert H1 Hb.
    unfold cs_param_saddle_set_augmentation_coef, load_context,
      own_context_block.
    destruct (solver p); try (intros [= <-] Hb; exact Hb);
      (destruct (context p) as [a |] eqn:Hc; [| discriminate]);
      cbn [deref mbind exec_bind];
      (destruct (bft_heap w !! a) as [blk |]; [| discriminate]);
      cbn [deref mbind exec_bind];
      destruct blk; try discriminate; intros [= <-] _;
      unfold context_block_of, store_context; rewrite Hc; cbn;
      rewrite lookup_insert_eq; exact I.
Qed.

(** X12: a record never owns more than one context block.  Take a heap
    that is a heap [w0] plus, at most, the block of the record, this
    block being of the variant of the record's kind when the kind is
    ALU, GKB or the Notay transformation (a created record is so, and so
    is every record a session ends with).  After any sequence of
    [set_solver], [set_restart_range], [set_notay_scaling] and
    [set_augmentation_coef] that returns, the heap still is [w0] plus,
    at most, the block of the final record, of the variant of its kind
    for the three kinds; this covers the sessions in which a refused
    "fgmres" leaves the block of the kind before and [set_restart_range]
    stores into it.  [cs_param_saddle_free] then returns, sets the
    caller's pointer to [NULL], and leaves the heap [w0]: no context
    block of an earlier solver kind is left behind. *)
Theorem session_then_free_restores_heap (cs : list saddle_call)
    (p p' : cs_param_saddle_t) (w0 w w' : world) :
  owns_context p w0 w ->
  own_context_block p w ->
  run_calls create copy_from check_class cs p w = Normal (p', w') ->
  owns_context p' w0 w' /\
  own_context_block p' w' /\
  exists w'',
    cs_param_saddle_free (Some (Some p')) w' = Normal (Some None, w'') /\
    bft_heap w'' = bft_heap w0 /\
    sles_epzero w'' = sles_epzero w'.
Proof.
  revert p w. induction cs as [| c cs IH]; intros p w Ho Hb H.
  - injection H as <- <-. split; [exact Ho |]. split; [exact Hb |].
    unfold cs_param_saddle_free, owns_context in *.
    destruct (context p) as [a |].
    + destruct Ho as [H0 [b Hw]]. unfold BFT_FREE.
      rewrite Hw, lookup_insert_eq. cbn. eexists. split; [reflexivity |].
      cbn. split; [| reflexivity]. apply delete_insert_id. exact H0.
    + cbn. eexists. split; [reflexivity |]. split; [exact Ho | reflexivity].
  - cbn [run_calls] in H.
    apply bind_normal in H as ([p1 w1] & H1 & H).
    apply (IH p1 w1); [| | exact H].
    + eapply run_call_owns; eassumption.
    + eapply run_call_own_block; eassumption.
Qed.

(** X13: [cs_param_saddle_get_type_name] gives two solver kinds the
    same label only when they are the same kind, or when they are MUMPS
    and the Notay transformation, which are both labelled "MUMPS". *)
Theorem type_name_tells_kinds_apart_but_notay
    (s1 s2 : cs_param_saddle_solver_t) :
  cs_param_saddle_get_type_name s1 = cs_param_saddle_get_type_name s2 <->
  s1 = s2 \/
  (s1 = CS_PARAM_SADDLE_SOLVER_MUMPS /\
   s2 = CS_PARAM_SADDLE_SOLVER_NOTAY_TRANSFORM) \/
  (s1 = CS_PARAM_SADDLE_SOLVER_NOTAY_TRANSFORM /\
   s2 = CS_PARAM_SADDLE_SOLVER_MUMPS).
Proof.
  destruct s1, s2; cbn; split; intros H;
    try discriminate H; try reflexivity;
    try (left; reflexivity);
    try (right; left; split; reflexivity);
    try (right; right; split; reflexivity);
    destruct H as [H | [[H1 H2] | [H1 H2]]]; discriminate.
Qed.

End ParamSaddleMore.

(** ** Further results on [cs_cdofb_monolithic_sles.c] *)

(** A loop one of whose bodies is undefined, whatever the state, is
    undefined. *)
Lemma for_loop_undefined {S : Type} (body : nat -> S -> exec S)
    (count start i0 : nat) (s : S) :
  (start <= i0 < start + count)%nat ->
  (forall t, body i0 t = Undefined) ->
  for_loop body start count s = Undefined.
Proof.
  revert start s. induction count as [| n IH]; intros start s Hi Hb; [lia |].
  cbn [for_loop]. destruct (decide (i0 = start)) as [-> | Hne].
  - rewrite Hb. reflexivity.
  - destruct (body start s) as [t |]; [| reflexivity].
    cbn [mbind exec_bind]. apply IH; [lia | exact Hb].
Qed.

(** The loop [for (i = 0; i < n; i++) out[i] = 1./vol[i]] on a fresh
    array of [n] entries. *)
Lemma reciprocal_loop (vols : list float) (n : nat) (fresh : float) :
  (n <= length vols)%nat ->
  for_loop (fun i out =>
              vol ← array_get vols i; array_set out i (1 / vol)%float)
           0 n (replicate n fresh)
  = Normal ((fun vol => (1 / vol)%float) <$> take n vols).
Proof.
  intros Hn.
  destruct (for_loop_invariant
              (fun i out =>
                 vol ← array_get vols i; array_set out i (1 / vol)%float)
              (fun i out => length out = n /\
                 forall j, (j < i)%nat ->
                   out !! j = (fun vol => (1 / vol)%float) <$> vols !! j)
              n 0 (replicate n fresh)) as (out & -> & Hl & Ho).
  - split; [apply length_replicate | intros j Hj; lia].
  - intros i t Hi [Hl Ht].
    exists (<[i := (1 / vols !!! i)%float]> t).
    rewrite array_get_normal by lia. cbn [mbind exec_bind].
    split; [apply array_set_normal; lia |].
    split; [rewrite length_insert; exact Hl |].
    intros j Hj. destruct (decide (j = i)) as [-> | Hne].
    + rewrite list_lookup_insert_eq by lia.
      destruct (lookup_lt_is_Some_2 vols i ltac:(lia)) as [x Hx].
      rewrite Hx. apply list_lookup_total_correct in Hx. rewrite Hx.
      reflexivity.
    + rewrite list_lookup_insert_ne by congruence. apply Ht. lia.
  - f_equal. apply list_eq. intros j.
    rewrite list_lookup_fmap.
    destruct (decide (j < n)%nat) as [Hj | Hj].
    + rewrite lookup_take_lt by exact Hj. apply Ho. exact Hj.
    + rewrite lookup_take_ge by lia.
      apply lookup_ge_None_2. lia.
Qed.

Lemma reciprocal_loop_undefined (vols : list float) (n : nat)
    (a : list float) :
  (length vols < n)%nat ->
  for_loop (fun i out =>
              vol ← array_get vols i; array_set out i (1 / vol)%float)
           0 n a
  = Undefined.
Proof.
  intros Hn. apply (for_loop_undefined _ n 0 (length vols)); [lia |].
  intros t. unfold array_get.
  rewrite (lookup_ge_None_2 vols (length vols)) by lia. reflexivity.
Qed.

Lemma zeta_size_bounds (gamma : float) (tt' : Z) :
  1 <= tt' < INT_MAX ->
  exists z, gkb_zeta_size_of gamma tt' = Normal z /\ 1 <= z <= tt' + 1.
Proof.
  unfold INT_MAX. intros Ht. unfold gkb_zeta_size_of, int_result, CS_MAX.
  unfold INT_MIN, INT_MAX.
  repeat match goal with
         | |- context [PrimFloat.ltb gamma ?c] =>
             destruct (PrimFloat.ltb gamma c)
         end;
    repeat (case_decide; try lia; cbn [mbind exec_bind]);
    eexists; (split; [reflexivity | lia]).
Qed.

Lemma assert_passes (NDEBUG : bool) (P : Prop) `{Decision P} :
  (NDEBUG = false -> P) -> assert_fails NDEBUG (bool_decide P) = false.
Proof.
  intros HP. unfold assert_fails. destruct NDEBUG; [reflexivity |].
  rewrite bool_decide_eq_true_2 by (apply HP; reflexivity). reflexivity.
Qed.

Lemma assert_aborts (P : Prop) `{Decision P} :
  ~ P -> assert_fails false (bool_decide P) = true.
Proof.
  intros HP. unfold assert_fails.
  rewrite bool_decide_eq_false_2 by exact HP. reflexivity.
Qed.

Section MonolithicSlesMore.

Variable create : Z -> string -> cs_param_sles_t.
Variable copy_from : cs_param_sles_t -> cs_param_sles_t -> cs_param_sles_t.
Variable check_class : cs_param_solver_class_t -> cs_param_solver_class_t.

Lemma gkb_init_context_runs (NDEBUG : bool) (quant : cs_cdo_quantities_t)
    (fresh : float) (n_columns_m11 : nat) (w : world)
    (sv : cs_saddle_solver_t) (ctx : cs_saddle_solver_context_gkb_t)
    (gamma : float) (tt' : Z) (d : bool) :
  context_block_of (param sv) w = Some (Context_gkb gamma tt' d) ->
  (n2_scatter_dofs sv <= length (cell_vol quant))%nat ->
  1 <= tt' < INT_MAX ->
  (NDEBUG = false ->
   n1_scatter_dofs sv = (3 * n_faces quant)%nat /\
   n2_scatter_dofs sv = n_cells quant) ->
  exists ctx',
    _gkb_init_context NDEBUG quant fresh n_columns_m11 true w
      (Some sv) (Some ctx)
    = Normal (Passed ctx') /\
    gkb_zeta_size_of gamma tt' = Normal (gkb_zeta_size ctx') /\
    1 <= gkb_zeta_size ctx' <= tt' + 1 /\
    gkb_zeta_array ctx'
    = Some (replicate (Z.to_nat (gkb_zeta_size ctx')) 0%float) /\
    gkb_inv_m22 ctx'
    = Some ((fun vol => (1 / vol)%float)
              <$> take (n2_scatter_dofs sv) (cell_vol quant)) /\
    gkb_alpha ctx' = 0%float /\ gkb_beta ctx' = 0%float /\
    gkb_zeta ctx' = 0%float /\ gkb_zeta_square_sum ctx' = 0%float.
Proof.
  intros Hb Hn Ht Hs.
  destruct (zeta_size_bounds gamma tt' Ht) as (z & Hz & Hzb).
  unfold _gkb_init_context.
  assert (H0 : assert_fails NDEBUG
                 (bool_decide (Some ctx ≠ None) && bool_decide (Some sv ≠ None))
               = false).
  { unfold assert_fails.
    rewrite !bool_decide_eq_true_2 by discriminate.
    destruct NDEBUG; reflexivity. }
  rewrite H0. cbn [deref mbind exec_bind].
  rewrite (assert_passes NDEBUG _ (fun E => proj1 (Hs E))).
  rewrite (assert_passes NDEBUG _ (fun E => proj2 (Hs E))).
  cbn [negb].
  rewrite reciprocal_loop by exact Hn. cbn [mbind exec_bind].
  unfold context_block_of in Hb. unfold load_context.
  destruct (context (param sv)) as [a |]; [| discriminate Hb].
  cbn in Hb. cbn [deref mbind exec_bind]. rewrite Hb.
  cbn [deref mbind exec_bind]. rewrite Hz. cbn [mbind exec_bind].
  unfold BFT_MALLOC_reals. case_decide; [| lia]. cbn [mbind exec_bind].
  change (for_loop (fun i zeta_array => array_set zeta_array i 0%float) 0
            (Z.to_nat z) (replicate (Z.to_nat z) fresh))
    with (cs_array_real_fill_zero (Z.to_nat z)
            (replicate (Z.to_nat z) fresh)).
  rewrite cs_array_real_fill_zero_normal by apply length_replicate.
  cbn [mbind exec_bind]. eexists. split; [reflexivity |]. cbn.
  repeat split; try reflexivity; lia.
Qed.

(** X14: take a solver handle whose parameters have the context of a
    GKB solver with a truncation threshold between 1 and [INT_MAX - 1],
    every pressure unknown having a cell volume.  In a build with
    [NDEBUG], and in a build with assertions when the handle has three
    unknowns per face and one per cell of the mesh,
    [_gkb_init_context] with a setup to do returns: the window of the
    energy-norm estimate has between 1 and [tt + 1] entries, all of them
    zero; [inv_m22] holds the reciprocals of the first [n2_scatter_dofs]
    cell volumes; and the three coefficients and the sum of squares are
    zero.  In a build with assertions and with other sizes the call ends
    in a failed assertion, with or without a setup to do, as it does
    when the context or the handle is [NULL]. *)
Theorem gkb_init_context_window (NDEBUG : bool)
    (quant : cs_cdo_quantities_t)
    (fresh : float) (n_columns_m11 : nat) (w : world)
    (sv : cs_saddle_solver_t) (ctx : cs_saddle_solver_context_gkb_t)
    (gamma : float) (tt' : Z) (d : bool) :
  context_block_of (param sv) w = Some (Context_gkb gamma tt' d) ->
  (n2_scatter_dofs sv <= length (cell_vol quant))%nat ->
  1 <= tt' < INT_MAX ->
  ((NDEBUG = false ->
    n1_scatter_dofs sv = (3 * n_faces quant)%nat /\
    n2_scatter_dofs sv = n_cells quant) ->
   exists ctx',
     _gkb_init_context NDEBUG quant fresh n_columns_m11 true w
       (Some sv) (Some ctx)
     = Normal (Passed ctx') /\
     gkb_zeta_size_of gamma tt' = Normal (gkb_zeta_size ctx') /\
     1 <= gkb_zeta_size ctx' <= tt' + 1 /\
     gkb_zeta_array ctx'
     = Some (replicate (Z.to_nat (gkb_zeta_size ctx')) 0%float) /\
     gkb_inv_m22 ctx'
     = Some ((fun vol => (1 / vol)%float)
               <$> take (n2_scatter_dofs sv) (cell_vol quant)) /\
     gkb_alpha ctx' = 0%float /\ gkb_beta ctx' = 0%float /\
     gkb_zeta ctx' = 0%float /\ gkb_zeta_square_sum ctx' = 0%float) /\
  (forall do_setup,
     (n1_scatter_dofs sv <> (3 * n_faces quant)%nat ->
      _gkb_init_context false quant fresh n_columns_m11 do_setup w
        (Some sv) (Some ctx)
      = Normal (Assertion_failed "n1_dofs == 3*quant->n_faces")) /\
     (n1_scatter_dofs sv = (3 * n_faces quant)%nat ->
      n2_scatter_dofs sv <> n_cells quant ->
      _gkb_init_context false quant fresh n_columns_m11 do_setup w
        (Some sv) (Some ctx)
      = Normal (Assertion_failed "n2_dofs == quant->n_cells")) /\
     _gkb_init_context false quant fresh n_columns_m11 do_setup w
       (Some sv) None
     = Normal (Assertion_failed "ctx != NULL && solver != NULL") /\
     _gkb_init_context false quant fresh n_columns_m11 do_setup w
       None (Some ctx)
     = Normal (Assertion_failed "ctx != NULL && solver != NULL")).
Proof.
  intros Hb Hn Ht. split.
  - intros Hs. apply (gkb_init_context_runs NDEBUG _ _ _ _ _ _ gamma tt' d);
      assumption.
  - intros do_setup. split; [| split; [| split]]; try reflexivity.
    + intros H1. unfold _gkb_init_context.
      cbn [assert_fails negb andb bool_decide decide_rel deref mbind exec_bind].
      change (assert_fails false (bool_decide (Some ctx ≠ None)
                                  && bool_decide (Some sv ≠ None)))
        with false.
      cbn [deref mbind exec_bind].
      rewrite (assert_aborts _ H1). reflexivity.
    + intros H1 H2. unfold _gkb_init_context.
      change (assert_fails false (bool_decide (Some ctx ≠ None)
                                  && bool_decide (Some sv ≠ None)))
        with false.
      cbn [deref mbind exec_bind].
      rewrite (assert_passes false _ (fun _ => H1)).
      rewrite (assert_aborts _ H2). reflexivity.
Qed.

(** X15: after [set_solver("gkb")] and [set_augmentation_coef(coef)],
    whatever the real [coef], [_gkb_init_context] with a setup to do, on
    a handle for the record that every pressure unknown has a cell
    volume for and, in a build with assertions, that has three unknowns
    per face and one per cell of the mesh, returns with a window of
    between 1 and 6 entries, all zero: the truncation threshold is the 5
    [set_solver] wrote, as no function of [cs_param_saddle.c] changes
    it. *)
Theorem gkb_window_after_configuration (NDEBUG : bool)
    (p p1 : cs_param_saddle_t)
    (w w1 : world) (coef : float) (quant : cs_cdo_quantities_t)
    (fresh : float) (n_columns_m11 : nat) (sv : cs_saddle_solver_t)
    (ctx : cs_saddle_solver_context_gkb_t) :
  valid_context p w ->
  cs_param_saddle_set_solver create copy_from check_class
    (Some "gkb") (Some p) w = Normal (0, Some p1, w1) ->
  param sv = p1 ->
  (n2_scatter_dofs sv <= length (cell_vol quant))%nat ->
  (NDEBUG = false ->
   n1_scatter_dofs sv = (3 * n_faces quant)%nat /\
   n2_scatter_dofs sv = n_cells quant) ->
  exists w2 ctx',
    cs_param_saddle_set_augmentation_coef (Some p1) coef w1 = Normal w2 /\
    _gkb_init_context NDEBUG quant fresh n_columns_m11 true w2
      (Some sv) (Some ctx)
    = Normal (Passed ctx') /\
    gkb_zeta_size_of coef 5 = Normal (gkb_zeta_size ctx') /\
    1 <= gkb_zeta_size ctx' <= 6 /\
    gkb_zeta_array ctx'
    = Some (replicate (Z.to_nat (gkb_zeta_size ctx')) 0%float).
Proof.
  intros Hv Hs Hp Hn Hsz.
  destruct (set_solver_typed create copy_from check_class
              "gkb" p p1 w w1 Hv Hs) as (Hv1 & _ & Hk & Hd).
  cbn in Hk. injection Hk as Hk. symmetry in Hk.
  specialize (Hd (Context_gkb 0 5 false)). rewrite Hk in Hd.
  specialize (Hd eq_refl).
  unfold context_block_of in Hd.
  destruct (context p1) as [a |] eqn:Hc; [| discriminate Hd]. cbn in Hd.
  exists (store_context a (Context_gkb coef 5 false) w1).
  destruct (store_context_lookup a (Context_gkb coef 5 false) w1 p1 Hc)
    as (Hb & _ & _).
  rewrite <- Hp in Hb.
  destruct (gkb_init_context_runs NDEBUG quant fresh n_columns_m11 _ sv ctx
              coef 5 false Hb Hn) as (ctx' & Hr & Hz & Hzb & Ha & _).
  { unfold INT_MAX. lia. }
  { exact Hsz. }
  exists ctx'. split.
  { unfold cs_param_saddle_set_augmentation_coef, load_context.
    rewrite Hk, Hc. cbn [deref mbind exec_bind]. rewrite Hd. reflexivity. }
  split; [exact Hr |].
  split; [exact Hz |]. split; [lia | exact Ha].
Qed.

(** X16: [_alu_init_context] on a solver handle.  In a build with
    assertions it ends in a failed assertion when the context is [NULL],
    with or without a setup to do, and, with a setup to do, when the
    handle has not one unknown per cell and three per face of the mesh.
    Otherwise, with a setup to do, it returns exactly when it is given a
    context and every pressure unknown has a cell volume: [inv_m22] then
    holds the reciprocals of the first [n2_scatter_dofs] cell volumes
    and the other buffers have the sizes of the two blocks, whatever the
    context held before; and without a setup to do it hands the pointer
    back as it is, which in a build with [NDEBUG] may be [NULL]. *)
Theorem alu_init_context_defined (NDEBUG : bool)
    (quant : cs_cdo_quantities_t)
    (fresh : float) (sv : cs_saddle_solver_t)
    (ctx : option cs_saddle_solver_context_alu_t) :
  (is_Some ctx ->
   (n2_scatter_dofs sv <= length (cell_vol quant))%nat ->
   (NDEBUG = false ->
    n2_scatter_dofs sv = n_cells quant /\
    n1_scatter_dofs sv = (3 * n_faces quant)%nat) ->
   exists ctx',
     _alu_init_context NDEBUG quant fresh true (Some sv) ctx
     = Normal (Passed (Some ctx')) /\
     alu_inv_m22 ctx'
     = Some ((fun vol => (1 / vol)%float)
               <$> take (n2_scatter_dofs sv) (cell_vol quant)) /\
     length <$> alu_res2 ctx' = Some (n2_scatter_dofs sv) /\
     length <$> alu_m21x1 ctx' = Some (n2_scatter_dofs sv) /\
     length <$> alu_b1_tilda ctx' = Some (n1_scatter_dofs sv) /\
     length <$> alu_rhs ctx' = Some (n1_scatter_dofs sv)) /\
  ((NDEBUG = false ->
    is_Some ctx /\
    n2_scatter_dofs sv = n_cells quant /\
    n1_scatter_dofs sv = (3 * n_faces quant)%nat) ->
   ctx = None \/ (length (cell_vol quant) < n2_scatter_dofs sv)%nat ->
   _alu_init_context NDEBUG quant fresh true (Some sv) ctx = Undefined) /\
  (forall do_setup,
     _alu_init_context false quant fresh do_setup (Some sv) None
     = Normal (Assertion_failed "ctx != NULL")) /\
  (is_Some ctx ->
   (n2_scatter_dofs sv <> n_cells quant ->
    _alu_init_context false quant fresh true (Some sv) ctx
    = Normal (Assertion_failed
                "solver->n2_scatter_dofs == quant->n_cells")) /\
   (n2_scatter_dofs sv = n_cells quant ->
    n1_scatter_dofs sv <> (3 * n_faces quant)%nat ->
    _alu_init_context false quant fresh true (Some sv) ctx
    = Normal (Assertion_failed
                "solver->n1_scatter_dofs == 3*quant->n_faces"))) /\
  ((NDEBUG = false -> is_Some ctx) ->
   _alu_init_context NDEBUG quant fresh false (Some sv) ctx
   = Normal (Passed ctx)).
Proof.
  split; [| split; [| split; [| split]]].
  - intros [c ->] Hn Hs. unfold _alu_init_context.
    rewrite (assert_passes NDEBUG (Some c ≠ None)) by (intros _; discriminate).
    cbn [negb deref mbind exec_bind].
    rewrite (assert_passes NDEBUG _ (fun E => proj1 (Hs E))).
    rewrite (assert_passes NDEBUG _ (fun E => proj2 (Hs E))).
    cbn [negb deref mbind exec_bind].
    rewrite reciprocal_loop by exact Hn. cbn [mbind exec_bind].
    eexists. split; [reflexivity |]. cbn.
    rewrite !length_replicate. repeat split.
  - intros Hs Hu. unfold _alu_init_context.
    rewrite (assert_passes NDEBUG (ctx ≠ None)).
    2:{ intros E. destruct (proj1 (Hs E)) as [c ->]. discriminate. }
    cbn [negb deref mbind exec_bind].
    rewrite (assert_passes NDEBUG _ (fun E => proj1 (proj2 (Hs E)))).
    rewrite (assert_passes NDEBUG _ (fun E => proj2 (proj2 (Hs E)))).
    destruct Hu as [-> | Hn]; [reflexivity |].
    destruct ctx; [| reflexivity]. cbn [deref mbind exec_bind].
    rewrite reciprocal_loop_undefined by exact Hn. reflexivity.
  - intros do_setup. reflexivity.
  - intros [c ->]. split.
    + intros H2. unfold _alu_init_context.
      rewrite (assert_passes false (Some c ≠ None)) by (intros _; discriminate).
      cbn [negb deref mbind exec_bind].
      rewrite (assert_aborts _ H2). reflexivity.
    + intros H2 H1. unfold _alu_init_context.
      rewrite (assert_passes false (Some c ≠ None)) by (intros _; discriminate).
      cbn [negb deref mbind exec_bind].
      rewrite (assert_passes false _ (fun _ => H2)).
      rewrite (assert_aborts _ H1). reflexivity.
  - intros Hc. unfold _alu_init_context.
    rewrite (assert_passes NDEBUG (ctx ≠ None)).
    2:{ intros E. destruct (Hc E) as [c ->]. discriminate. }
    reflexivity.
Qed.

End MonolithicSlesMore.

(** ** The results at sample inputs *)

Module Checks.

Import Sample.

#[local] Abbreviation set_solver_all :=
  (cs_param_saddle_set_solver sles_create sles_copy_from all_backends).
#[local] Abbreviation copy_sample :=
  (cs_param_saddle_copy sles_create sles_copy_from).

Lemma valid_context_verbose : valid_context verbose_saddlep w0.
Proof. intros a Ha. discriminate Ha. Qed.

Lemma run_alu :
  set_solver_all (Some "alu") (Some verbose_saddlep) w0
  = Normal (0, Some alu_saddlep, alu_world).
Proof. vm_compute. reflexivity. Qed.

Lemma run_alu_minres :
  set_solver_all (Some "minres") (Some alu_saddlep) alu_world
  = Normal (0, Some minres_saddlep, alu_world).
Proof. vm_compute. reflexivity. Qed.

Lemma run_alu_gcr :
  set_solver_all (Some "gcr") (Some alu_saddlep) alu_world
  = Normal (0, Some gcr_saddlep, gcr_world).
Proof. vm_compute. reflexivity. Qed.

Lemma run_copy_once :
  copy_sample (Some alu_saddlep) (Some saddlep) = Normal (Some copied_once).
Proof. vm_compute. reflexivity. Qed.

Lemma run_copy_twice :
  copy_sample (Some copied_once) (Some saddlep) = Normal (Some copied_twice).
Proof. vm_compute. reflexivity. Qed.

Lemma set_solver_alu_gkb_settings_witness :
  ("alu" = "alu" \/ "alu" = "gkb") /\
  block11_sles_param verbose_saddlep = Some b11 /\
  exists x,
    xtra_sles_param alu_saddlep = Some x /\
    precond alu_saddlep = CS_PARAM_SADDLE_PRECOND_NONE /\
    schur_approx alu_saddlep = CS_PARAM_SADDLE_SCHUR_NONE /\
    (exists m,
       smallest_of [(0.1 * 1e-5)%float; (0.1 * 1e-6)%float;
                    (10 * 1e-12)%float] m /\
       largest_of [1e-14%float; m] (rtol (sles_cvg_param x))) /\
    smallest_of [1e-12%float; 1e-14%float] (atol (sles_cvg_param x)).
Proof.
  split; [left; reflexivity |]. split; [reflexivity |].
  destruct (proj2 (set_solver_alu_gkb_settings sles_create sles_copy_from
                     all_backends "alu" verbose_saddlep b11 w0
                     (or_introl eq_refl) eq_refl)
              0 (Some alu_saddlep) alu_world run_alu)
    as (_ & q & x & Hq & Hp & Hs & Hx & Hr & Ha).
  injection Hq as <-. exists x. repeat split; assumption.
Defined.

Lemma set_solver_twice_context_witness :
  valid_context verbose_saddlep w0 /\
  context_block_of gcr_saddlep gcr_world = Some (Context_block_krylov 30) /\
  (forall old, context alu_saddlep = Some old ->
     bft_heap gcr_world !! old = None).
Proof.
  split; [exact valid_context_verbose |].
  destruct (set_solver_twice_context sles_create sles_copy_from all_backends
              "alu" "gcr" verbose_saddlep alu_saddlep w0 alu_world gcr_world
              (Some gcr_saddlep) valid_context_verbose run_alu run_alu_gcr)
    as (p2 & Hp & _ & Hc).
  injection Hp as <-. destruct Hc as (Hb & _ & Ho).
  split; assumption.
Defined.

Lemma alu_then_minres_fields :
  solver minres_saddlep = CS_PARAM_SADDLE_SOLVER_MINRES /\
  context minres_saddlep = context alu_saddlep /\
  context_block_of minres_saddlep alu_world = Some (Context_alu 100 false).
Proof. repeat split. Qed.

(** C2, as the specification words it, fails: after "alu" then "minres"
    the context still is the live ALU block, where the specification
    expects no block and the ALU block released. *)
Lemma context_follows_solver_counterexample :
  ~ context_follows_solver sles_create sles_copy_from all_backends
      "alu" "minres" verbose_saddlep w0.
Proof.
  intros H.
  destruct (H _ _ _ _ _ _ run_alu run_alu_minres) as [Hm _].
  vm_compute in Hm. exact Hm.
Qed.




Lemma copied_twice_fields :
  verbosity alu_saddlep = 2 /\
  verbosity copied_twice = 0 /\
  solver copied_twice = CS_PARAM_SADDLE_SOLVER_ALU /\
  context copied_twice = None /\
  context_block_of alu_saddlep alu_world = Some (Context_alu 100 false).
Proof. repeat split. Qed.

(** C8, as the specification words it, fails: the verbosity of the third
    record stays 0 where the first one has 2, and its context pointer
    stays [NULL] where the first one refers to an ALU block. *)
Lemma copy_chain_identical_counterexample :
  ~ copy_chain_identical sles_create sles_copy_from
      alu_world alu_saddlep saddlep saddlep.
Proof.
  intros H.
  destruct (H _ _ run_copy_once run_copy_twice)
    as (_ & _ & _ & _ & _ & Hv & _).
  vm_compute in Hv. discriminate Hv.
Qed.

Lemma copy_chain_transfers_witness :
  solver copied_twice = solver alu_saddlep /\
  cvg_param copied_twice = cvg_param alu_saddlep /\
  block11_sles_param copied_twice = block11_sles_param alu_saddlep /\
  verbosity copied_twice = verbosity saddlep.
Proof.
  destruct (copy_chain_transfers sles_create sles_copy_from
              alu_saddlep saddlep saddlep copied_once copied_twice
              run_copy_once run_copy_twice)
    as (Hs & _ & _ & _ & Hc & Hb & _ & _ & Hv).
  repeat split; assumption.
Defined.

(** C9, as the specification words it, fails: "minres" then "lower"
    returns 0 twice and leaves the preconditioner LOWER. *)
Lemma minres_rejects_triangular_counterexample :
  ~ minres_rejects_triangular sles_create sles_copy_from all_backends
      "lower" saddlep w0.
Proof.
  intros [H _].
  assert (E1 : set_solver_all (Some "minres") (Some saddlep) w0
               = Normal (0, Some (with_solver_class CS_PARAM_SOLVER_CLASS_CS
                                    (with_solver CS_PARAM_SADDLE_SOLVER_MINRES
                                       saddlep)), w0))
    by (vm_compute; reflexivity).
  destruct (H _ _ _ _ _ E1 eq_refl) as [Hi | [Hi | Hi]];
    apply Hi; reflexivity.
Qed.

Lemma minres_accepts_triangular_precond_witness :
  ("lower" = "lower" \/ "lower" = "upper") /\
  (exists p1 p2,
     set_solver_all (Some "minres") (Some saddlep) w0
     = Normal (0, Some p1, w0) /\
     cs_param_saddle_set_precond (Some "lower") (Some p1) = (0, Some p2) /\
     solver p2 = CS_PARAM_SADDLE_SOLVER_MINRES /\
     precond p2 = CS_PARAM_SADDLE_PRECOND_LOWER) /\
  (exists p1 p2,
     cs_param_saddle_set_precond (Some "lower") (Some saddlep)
     = (0, Some p1) /\
     set_solver_all (Some "minres") (Some p1) w0
     = Normal (0, Some p2, w0) /\
     solver p2 = CS_PARAM_SADDLE_SOLVER_MINRES /\
     precond p2 = CS_PARAM_SADDLE_PRECOND_LOWER).
Proof.
  split; [left; reflexivity |].
  apply (minres_accepts_triangular_precond sles_create sles_copy_from
           all_backends "lower" saddlep w0).
  left. reflexivity.
Defined.

Lemma run_lumped_inv :
  cs_param_saddle_set_schur_approx sles_create sles_copy_from
    (Some "lumped_inv") (Some verbose_saddlep)
  = Normal (0, Some lumped_saddlep).
Proof. vm_compute. reflexivity. Qed.

Lemma set_schur_approx_nested_sles_witness :
  "lumped_inv" ∈ schur_solve_keys /\
  exists s x,
    schur_sles_param lumped_saddlep = Some s /\
    sles_solver s = CS_PARAM_SOLVER_FCG /\
    sles_precond s = CS_PARAM_PRECOND_AMG /\
    rtol (sles_cvg_param s) = 1e-4%float /\
    xtra_sles_param lumped_saddlep = Some x /\
    rtol (sles_cvg_param x) = 1e-3%float /\
    n_max_iter (sles_cvg_param x) = 50.
Proof.
  assert (Hk : "lumped_inv" ∈ schur_solve_keys).
  { unfold schur_solve_keys. apply list_elem_of_further, list_elem_of_here. }
  split; [exact Hk |].
  destruct (proj2 (set_schur_approx_nested_sles sles_create sles_copy_from
                     "lumped_inv" verbose_saddlep Hk)
              0 (Some lumped_saddlep) run_lumped_inv)
    as (_ & q & s & Hq & Hs & Hsol & Hpre & Hr & Hl).
  injection Hq as <-.
  destruct Hl as (x & Hx & Hxr & Hxn).
  { unfold lumped_keys. apply list_elem_of_here. }
  exists s, x. repeat split; assumption.
Defined.

Lemma sample_schur_inputs_ok : schur_inputs_ok quant mesh m11_inv.
Proof.
  constructor.
  - vm_compute. lia.
  - vm_compute. lia.
  - intros f Hf. cbn in Hf. assert (f = 0%nat) as -> by lia.
    exists 0%nat, 1%nat. cbn. repeat split; lia.
  - intros f Hf. cbn in Hf. assert (f = 0%nat) as -> by lia.
    exists 0%nat. cbn. split; [reflexivity | lia].
Qed.

Lemma schur_matrix_from_m11_inv_approx_entries_witness :
  schur_inputs_ok quant mesh m11_inv /\
  exists diag_smat xtra_smat,
    _schur_matrix_from_m11_inv_approx face_nvec nvec3 quant mesh 7
      CS_PARAM_SOLVER_CLASS_CS m11_inv = Normal (diag_smat, xtra_smat) /\
    xtra_smat !! 0%nat = Some (-4)%float /\
    xtra_smat !! 1%nat = Some (-4)%float /\
    diag_smat !! 0%nat = Some 6%float /\
    diag_smat !! 1%nat = Some 4%float.
Proof.
  split; [exact sample_schur_inputs_ok |].
  destruct (schur_matrix_from_m11_inv_approx_entries face_nvec nvec3
              quant mesh 7 CS_PARAM_SOLVER_CLASS_CS m11_inv
              sample_schur_inputs_ok)
    as (d & x & Hrun & _ & _ & Hx & Hd).
  exists d, x. split; [exact Hrun |].
  destruct (Hx 0%nat ltac:(cbn; lia)) as [Hx0 Hx1].
  pose proof (Hd 0%nat ltac:(cbn; lia)) as Hd0.
  pose proof (Hd 1%nat ltac:(cbn; lia)) as Hd1.
  repeat split; assumption.
Defined.

Lemma m22_scaled_diag_mass_matrix_witness :
  (n_cells quant <= length (cell_vol quant))%nat /\
  exists m22_mass_diag,
    _get_m22_scaled_diag_mass_matrix 0 1 cell_value quant ts 7 nsp
    = Normal (m22_mass_diag, (1000 * (0.01 * 0.001))%float) /\
    m22_mass_diag !! 0%nat = Some (0.001 / 0.5)%float /\
    m22_mass_diag !! 1%nat = Some (0.001 / 0.5)%float.
Proof.
  assert (Hn : (n_cells quant <= length (cell_vol quant))%nat)
    by (vm_compute; lia).
  split; [exact Hn |].
  destruct (m22_scaled_diag_mass_matrix 0 1 cell_value quant ts 7 nsp Hn)
    as (m & Hrun & _ & _ & Hu).
  destruct (Hu 0.001%float 0.5%float) as [Hm Hs].
  - vm_compute. discriminate.
  - reflexivity.
  - intros i Hi. reflexivity.
  - intros i Hi. cbn in Hi.
    destruct i as [| [| i]]; [reflexivity | reflexivity | lia].
  - exists m. rewrite Hs in Hrun. split; [exact Hrun |].
    split; apply Hm; cbn; lia.
Defined.

(** *** The further results *)

Import SampleSession.

Lemma context_typed_alu : context_typed alu_saddlep alu_world.
Proof. vm_compute. exact I. Qed.

Lemma augmentation_coef_round_trip_witness :
  context_typed alu_saddlep alu_world /\
  exists w',
    cs_param_saddle_set_augmentation_coef (Some alu_saddlep) 250 alu_world
    = Normal w' /\
    cs_param_saddle_get_augmentation_coef (Some alu_saddlep) w'
    = Normal 250%float.
Proof.
  split; [exact context_typed_alu |].
  destruct (augmentation_coef_round_trip alu_saddlep alu_world 250
              context_typed_alu) as (w' & Hs & _ & _ & _ & _ & Hg).
  exists w'. split; [exact Hs | exact Hg].
Defined.

Lemma context_typed_gcr : context_typed gcr_saddlep gcr_world.
Proof. vm_compute. exact I. Qed.

Lemma restart_range_and_notay_scaling_writes_witness :
  context_typed gcr_saddlep gcr_world /\
  exists w',
    cs_param_saddle_set_restart_range (Some gcr_saddlep) 10 gcr_world
    = Normal w' /\
    context_block_of gcr_saddlep w' = Some (Context_block_krylov 10).
Proof.
  split; [exact context_typed_gcr |].
  destruct (proj1 (restart_range_and_notay_scaling_writes
                     gcr_saddlep gcr_world 10 2 context_typed_gcr))
    as (w' & Hs & _ & _ & _ & Hb).
  exists w'. split; [exact Hs | exact Hb].
Defined.

Lemma set_solver_then_get_augmentation_coef_witness :
  valid_context verbose_saddlep w0 /\
  cs_param_saddle_get_augmentation_coef (Some alu_saddlep) alu_world
  = Normal 100%float.
Proof.
  split; [exact valid_context_verbose |].
  exact (proj2 (set_solver_then_get_augmentation_coef
                  sles_create sles_copy_from all_backends "alu"
                  verbose_saddlep alu_saddlep w0 alu_world
                  valid_context_verbose run_alu)).
Defined.

Lemma no_backend_petsc :
  no_backend CS_PARAM_SOLVER_CLASS_PETSC <> CS_PARAM_SOLVER_CLASS_PETSC.
Proof. discriminate. Qed.

Lemma failed_fgmres_leaves_no_context_witness :
  no_backend CS_PARAM_SOLVER_CLASS_PETSC <> CS_PARAM_SOLVER_CLASS_PETSC /\
  context saddlep = None /\
  exists p',
    cs_param_saddle_set_solver sles_create sles_copy_from no_backend
      (Some "fgmres") (Some saddlep) w0 = Normal (2, Some p', w0) /\
    cs_param_saddle_set_restart_range (Some p') 10 w0 = Undefined.
Proof.
  split; [exact no_backend_petsc |]. split; [reflexivity |].
  destruct (failed_fgmres_leaves_no_context sles_create sles_copy_from
              no_backend saddlep w0 10 no_backend_petsc eq_refl)
    as (p' & Hs & _ & _ & Hr).
  exists p'. split; [exact Hs | exact Hr].
Defined.

Lemma copy_leaves_context_behind_witness :
  context saddlep = None /\
  solver copied_once = CS_PARAM_SADDLE_SOLVER_ALU /\
  cs_param_saddle_get_augmentation_coef (Some copied_once) alu_world
  = Undefined.
Proof.
  split; [reflexivity |].
  destruct (copy_leaves_context_behind sles_create sles_copy_from
              alu_saddlep saddlep copied_once alu_world 10
              eq_refl run_copy_once) as (Hs & _ & Hg & _).
  split; [exact Hs | apply Hg; left; reflexivity].
Defined.

Lemma set_precond_uzawa_promotion_witness :
  cs_param_saddle_set_precond (Some "uzawa") (Some saddlep)
  = (0, Some (with_schur_approx CS_PARAM_SADDLE_SCHUR_MASS_SCALED
                (with_precond CS_PARAM_SADDLE_PRECOND_UZAWA saddlep))) /\
  schur_approx (with_schur_approx CS_PARAM_SADDLE_SCHUR_MASS_SCALED
                  (with_precond CS_PARAM_SADDLE_PRECOND_UZAWA saddlep))
  = CS_PARAM_SADDLE_SCHUR_MASS_SCALED /\
  exists p'',
    cs_param_saddle_set_schur_approx sles_create sles_copy_from
      (Some "none")
      (Some (with_schur_approx CS_PARAM_SADDLE_SCHUR_MASS_SCALED
               (with_precond CS_PARAM_SADDLE_PRECOND_UZAWA saddlep)))
    = Normal (0, Some p'') /\
    precond p'' = CS_PARAM_SADDLE_PRECOND_UZAWA /\
    schur_approx p'' = CS_PARAM_SADDLE_SCHUR_NONE.
Proof.
  split; [reflexivity |].
  destruct (set_precond_uzawa_promotion sles_create sles_copy_from
              "uzawa" saddlep _ eq_refl)
    as (_ & _ & Hm & _ & p'' & Hs & Hp & Ha).
  split; [exact Hm |].
  exists p''. split; [exact Hs |]. split; [exact Hp | exact Ha].
Defined.

Lemma lumped_inv_is_lumped : "lumped_inv" ∈ lumped_keys.
Proof. unfold lumped_keys. apply list_elem_of_here. Qed.

Lemma set_schur_approx_resets_nested_witness :
  "lumped_inv" ∈ lumped_keys /\
  cs_param_saddle_set_schur_approx sles_create sles_copy_from
    (Some "lumped_inv")
    (Some (with_xtra_sles_param (Some b11)
             (with_schur_sles_param (Some b11) verbose_saddlep)))
  = Normal (0, Some lumped_saddlep).
Proof.
  split; [exact lumped_inv_is_lumped |].
  rewrite (proj1 (proj2 (set_schur_approx_resets_nested
                           sles_create sles_copy_from "lumped_inv"
                           verbose_saddlep (Some b11) (Some b11)))
             lumped_inv_is_lumped).
  exact run_lumped_inv.
Defined.

Lemma try_init_idempotent_witness :
  is_Some (schur_sles_param lumped_saddlep) /\
  cs_param_saddle_try_init_schur_sles_param sles_create (Some lumped_saddlep)
  = Normal (Some lumped_saddlep).
Proof.
  assert (H : is_Some (schur_sles_param lumped_saddlep))
    by (eexists; reflexivity).
  split; [exact H |].
  exact (proj1 (try_init_idempotent sles_create sles_copy_from
                  lumped_saddlep None) H).
Defined.

Lemma gcr_is_solver_key : "gcr" ∈ solver_keys.
Proof. unfold solver_keys. set_solver. Qed.

Lemma set_solver_forgets_previous_choice_witness :
  "gcr" ∈ solver_keys /\
  set_solver_all (Some "gcr")
    (Some (with_solver_class CS_PARAM_SOLVER_CLASS_PETSC alu_saddlep))
    alu_world
  = Normal (0, Some gcr_saddlep, gcr_world).
Proof.
  split; [exact gcr_is_solver_key |].
  destruct (set_solver_forgets_previous_choice
              sles_create sles_copy_from all_backends "gcr"
              alu_saddlep alu_world
              CS_PARAM_SADDLE_SOLVER_NONE CS_PARAM_SOLVER_CLASS_PETSC
              CS_PARAM_SADDLE_PRECOND_NONE CS_PARAM_SADDLE_SCHUR_NONE None
              gcr_is_solver_key) as (_ & Hc & _).
  rewrite (proj1 (Hc ltac:(discriminate))). exact run_alu_gcr.
Defined.

Lemma run_alu_lumped_inv :
  cs_param_saddle_set_schur_approx sles_create sles_copy_from
    (Some "lumped_inv") (Some alu_saddlep)
  = Normal (0, Some alu_lumped_saddlep).
Proof. vm_compute. reflexivity. Qed.

Lemma lumped_schur_replaces_transformation_record_witness :
  ("alu" = "alu" \/ "alu" = "gkb") /\
  "lumped_inv" ∈ lumped_keys /\
  solver alu_lumped_saddlep = CS_PARAM_SADDLE_SOLVER_ALU /\
  exists x,
    xtra_sles_param alu_lumped_saddlep = Some x /\
    rtol (sles_cvg_param x) = 1e-3%float.
Proof.
  split; [left; reflexivity |]. split; [exact lumped_inv_is_lumped |].
  destruct (lumped_schur_replaces_transformation_record
              sles_create sles_copy_from all_backends "alu" "lumped_inv"
              verbose_saddlep alu_saddlep w0 alu_world
              0 (Some alu_lumped_saddlep)
              (or_introl eq_refl) lumped_inv_is_lumped
              run_alu run_alu_lumped_inv)
    as (_ & p2 & x & Hp & Hk & _ & _ & Hx & Hr & _).
  injection Hp as <-. split; [reflexivity |].
  exists x. split; [exact Hx | exact Hr].
Defined.

Lemma run_created_lumped_inv :
  cs_param_saddle_set_schur_approx sles_create sles_copy_from
    (Some "lumped_inv") (Some saddlep)
  = Normal (0, Some created_lumped_saddlep).
Proof. vm_compute. reflexivity. Qed.

Lemma configured_created_lumped :
  configured sles_create sles_copy_from all_backends created_lumped_saddlep.
Proof.
  eapply Configured_set_schur_approx;
    [apply (Configured_create _ _ _ (Some b11)) | exact run_created_lumped_inv].
Qed.

Lemma configured_record_has_nested_sles_witness :
  configured sles_create sles_copy_from all_backends created_lumped_saddlep /\
  nested_sles_present created_lumped_saddlep.
Proof.
  split; [exact configured_created_lumped |].
  exact (proj1 (configured_record_has_nested_sles
                  sles_create sles_copy_from all_backends
                  created_lumped_saddlep configured_created_lumped)).
Defined.

Lemma run_session :
  run_calls sles_create sles_copy_from no_backend
    session verbose_saddlep w0
  = Normal (session_saddlep, session_world).
Proof. vm_compute. reflexivity. Qed.

Lemma owns_context_verbose : owns_context verbose_saddlep w0 w0.
Proof. reflexivity. Qed.

Lemma own_context_block_verbose : own_context_block verbose_saddlep w0.
Proof. exact I. Qed.

Lemma session_then_free_restores_heap_witness :
  owns_context verbose_saddlep w0 w0 /\
  own_context_block verbose_saddlep w0 /\
  solver session_saddlep = CS_PARAM_SADDLE_SOLVER_FGMRES /\
  context_block_of session_saddlep session_world
  = Some (Context_block_krylov 10) /\
  exists w'',
    cs_param_saddle_free (Some (Some session_saddlep)) session_world
    = Normal (Some None, w'') /\
    bft_heap w'' = bft_heap w0.
Proof.
  split; [exact owns_context_verbose |].
  split; [exact own_context_block_verbose |].
  split; [reflexivity |].
  split; [vm_compute; reflexivity |].
  destruct (session_then_free_restores_heap
              sles_create sles_copy_from no_backend
              session verbose_saddlep session_saddlep w0 w0 session_world
              owns_context_verbose own_context_block_verbose run_session)
    as (_ & _ & w'' & Hf & Hh & _).
  exists w''. split; [exact Hf | exact Hh].
Defined.

Lemma run_gkb :
  set_solver_all (Some "gkb") (Some verbose_saddlep) w0
  = Normal (0, Some gkb_saddlep, gkb_world).
Proof. vm_compute. reflexivity. Qed.

Lemma gkb_block :
  context_block_of (param gkb_solver) gkb_world
  = Some (Context_gkb 0 5 false).
Proof. vm_compute. reflexivity. Qed.

Lemma gkb_volumes :
  (n2_scatter_dofs gkb_solver <= length (cell_vol quant))%nat.
Proof. vm_compute. lia. Qed.

Lemma zeta_size_default : gkb_zeta_size_of 0 5 = Normal 6.
Proof. vm_compute. reflexivity. Qed.

Lemma zeta_size_250 : gkb_zeta_size_of 250 5 = Normal 3.
Proof. vm_compute. reflexivity. Qed.

Lemma gkb_sizes :
  n1_scatter_dofs gkb_solver = (3 * n_faces quant)%nat /\
  n2_scatter_dofs gkb_solver = n_cells quant.
Proof. split; reflexivity. Qed.

Lemma gkb_init_context_window_witness :
  context_block_of (param gkb_solver) gkb_world
  = Some (Context_gkb 0 5 false) /\
  (n2_scatter_dofs gkb_solver <= length (cell_vol quant))%nat /\
  1 <= 5 < INT_MAX /\
  (n1_scatter_dofs gkb_solver = (3 * n_faces quant)%nat /\
   n2_scatter_dofs gkb_solver = n_cells quant) /\
  exists ctx',
    _gkb_init_context false quant 0 6 true gkb_world
      (Some gkb_solver) (Some gkb_context)
    = Normal (Passed ctx') /\
    gkb_zeta_size ctx' = 6 /\
    gkb_inv_m22 ctx' = Some [2; 2]%float.
Proof.
  assert (Ht : 1 <= 5 < INT_MAX) by (unfold INT_MAX; lia).
  split; [exact gkb_block |]. split; [exact gkb_volumes |].
  split; [exact Ht |]. split; [exact gkb_sizes |].
  destruct (gkb_init_context_window false quant 0 6 gkb_world gkb_solver
              gkb_context 0 5 false gkb_block gkb_volumes Ht)
    as [Hw _].
  destruct (Hw (fun _ => gkb_sizes)) as (ctx' & Hr & Hz & _ & _ & Hi & _).
  exists ctx'. split; [exact Hr |].
  rewrite zeta_size_default in Hz. injection Hz as Hz.
  split; [symmetry; exact Hz | rewrite Hi; vm_compute; reflexivity].
Defined.

Lemma gkb_window_after_configuration_witness :
  valid_context verbose_saddlep w0 /\
  (n2_scatter_dofs gkb_solver <= length (cell_vol quant))%nat /\
  (n1_scatter_dofs gkb_solver = (3 * n_faces quant)%nat /\
   n2_scatter_dofs gkb_solver = n_cells quant) /\
  exists w2 ctx',
    cs_param_saddle_set_augmentation_coef (Some gkb_saddlep) 250 gkb_world
    = Normal w2 /\
    _gkb_init_context false quant 0 6 true w2
      (Some gkb_solver) (Some gkb_context)
    = Normal (Passed ctx') /\
    gkb_zeta_size ctx' = 3.
Proof.
  split; [exact valid_context_verbose |]. split; [exact gkb_volumes |].
  split; [exact gkb_sizes |].
  destruct (gkb_window_after_configuration
              sles_create sles_copy_from all_backends false
              verbose_saddlep gkb_saddlep w0 gkb_world 250 quant 0 6
              gkb_solver gkb_context valid_context_verbose run_gkb
              eq_refl gkb_volumes (fun _ => gkb_sizes))
    as (w2 & ctx' & Hs & Hd & Hz & _).
  exists w2, ctx'. split; [exact Hs |]. split; [exact Hd |].
  rewrite zeta_size_250 in Hz. injection Hz as Hz. symmetry. exact Hz.
Defined.

Lemma alu_init_context_defined_witness :
  (exists ctx',
     _alu_init_context false quant 0 true (Some alu_solver) (Some alu_context)
     = Normal (Passed (Some ctx')) /\
     alu_inv_m22 ctx' = Some [2; 2]%float) /\
  _alu_init_context false quant 0 true (Some alu_solver) None
  = Normal (Assertion_failed "ctx != NULL") /\
  _alu_init_context true quant 0 true (Some alu_solver) None = Undefined /\
  _alu_init_context true quant 0 false (Some alu_solver) None
  = Normal (Passed None).
Proof.
  split; [| split; [| split]].
  - destruct (proj1 (alu_init_context_defined false quant 0 alu_solver
                       (Some alu_context)))
      as (ctx' & Hr & Hi & _).
    + eexists; reflexivity.
    + vm_compute. lia.
    + intros _. split; reflexivity.
    + exists ctx'. split; [exact Hr |]. rewrite Hi. vm_compute. reflexivity.
  - apply (proj1 (proj2 (proj2
             (alu_init_context_defined false quant 0 alu_solver None)))).
  - apply (proj1 (proj2
             (alu_init_context_defined true quant 0 alu_solver None))).
    + intros E. discriminate E.
    + left. reflexivity.
  - apply (proj2 (proj2 (proj2 (proj2
             (alu_init_context_defined true quant 0 alu_solver None))))).
    intros E. discriminate E.
Defined.

End Checks.
